(** * mongoproxy: the wire-protocol codec and the connection relay

    A shallow embedding of [ReadRequest], [WriteRequest] (the codec of the
    MongoDB wire protocol) and of [Proxy.handleConnection] (the relay loop),
    together with the parts of Go's [io], [bufio] and [encoding/binary]
    packages they call.

    Conventions.
    - A byte is [Init.Byte.byte]; a Go [string] and a [[]byte] are [list byte].
    - [int32] and [int64] values are [Z]; decoding wraps to the signed range,
      encoding keeps the low 4 or 8 bytes.  [int] (the running byte counter)
      is a [Z]: it is 64 bits wide and cannot overflow on the streams modelled.
    - An [io.Reader] is an in-memory byte sequence (what [bytes.Reader] gives
      to its caller): [Read] returns as many bytes as asked for when they are
      there, and [io.EOF] at the end.
    - A call that can fail returns an [error]; a run-time panic and a loop that
      never ends are outcomes of their own. *)

From Stdlib Require Import ZArith Lia List String Bool.
From coqutil Require Import Byte Word.LittleEndianList.
From stdpp Require Import base list.
Import ListNotations.
Local Open Scope Z_scope.

(** ** Errors and outcomes *)

Inductive error : Type :=
| EOF                  (* io.EOF *)
| ErrUnexpectedEOF     (* io.ErrUnexpectedEOF *)
| ErrNoProgress        (* io.ErrNoProgress *)
| ErrBufferFull        (* bufio.ErrBufferFull *)
| ErrShortWrite        (* io.ErrShortWrite *)
| ErrClosedPipe        (* a write on a connection the peer has reset *)
| ErrDial              (* net.Dial could not reach the backend *)
| ErrBson (msg : string)       (* an error of the bson package *)
| ErrorWrongLen        (* errors.New("Wrong data length") *)
| ErrorOpcodeUnknown.  (* errors.New("OP Code unknown") *)

Definition error_eqb (a b : error) : bool :=
  match a, b with
  | EOF, EOF | ErrUnexpectedEOF, ErrUnexpectedEOF | ErrNoProgress, ErrNoProgress
  | ErrBufferFull, ErrBufferFull | ErrClosedPipe, ErrClosedPipe | ErrDial, ErrDial
  | ErrShortWrite, ErrShortWrite
  | ErrorWrongLen, ErrorWrongLen | ErrorOpcodeUnknown, ErrorOpcodeUnknown => true
  | ErrBson m, ErrBson m' => String.eqb m m'
  | _, _ => false
  end.

(** What running a Go call can end in. *)
Inductive outcome (A : Type) : Type :=
| Ok (a : A)
| Err (e : error)
| Panic (msg : string)
| Diverge.
Arguments Ok {A} a.
Arguments Err {A} e.
Arguments Panic {A} msg.
Arguments Diverge {A}.

(** A computation over a state [S] (a reader, a writer) that may fail. *)
Definition M (S A : Type) : Type := S -> outcome A * S.

Definition ret {S A} (a : A) : M S A := fun s => (Ok a, s).
Definition fail {S A} (e : error) : M S A := fun s => (Err e, s).
Definition panic {S A} (msg : string) : M S A := fun s => (Panic msg, s).
Definition diverge {S A} : M S A := fun s => (Diverge, s).

Definition bind {S A B} (m : M S A) (k : A -> M S B) : M S B :=
  fun s =>
    match m s with
    | (Ok a, s') => k a s'
    | (Err e, s') => (Err e, s')
    | (Panic msg, s') => (Panic msg, s')
    | (Diverge, s') => (Diverge, s')
    end.

Declare Scope go_scope.
Delimit Scope go_scope with go.
Notation "x <- m ;; k" := (bind m (fun x => k))
  (at level 60, m at next level, right associativity) : go_scope.

(** Lifts a Go call returning [(value, error)] into [M]: a non-nil error is
    returned to the caller at once, the way [if e != nil { return nil, e }]
    does. *)
Definition try {S A} (f : S -> A * option error * S) : M S A :=
  fun s =>
    match f s with
    | (a, None, s') => (Ok a, s')
    | (_, Some e, s') => (Err e, s')
    end.

(** ** Integers on the wire (encoding/binary, little endian) *)

Definition swrap (bits : Z) (z : Z) : Z :=
  (z + 2 ^ (bits - 1)) mod 2 ^ bits - 2 ^ (bits - 1).

Definition int32_of_le (bs : list byte) : Z := swrap 32 (le_combine bs).
Definition int64_of_le (bs : list byte) : Z := swrap 64 (le_combine bs).
Definition le_of_int32 (v : Z) : list byte := le_split 4 v.
Definition le_of_int64 (v : Z) : list byte := le_split 8 v.

Definition is_int32 (v : Z) : Prop := - 2 ^ 31 <= v < 2 ^ 31.
Definition is_int64 (v : Z) : Prop := - 2 ^ 63 <= v < 2 ^ 63.

(** ** io.Reader *)

(** [Read r k] is [r.Read(p)] with [len(p) = k]: the bytes put in [p], the
    error, and the reader afterwards. *)
Class ioReader (R : Type) := Read : R -> nat -> list byte * option error * R.

(** The caller's stream: an in-memory reader over the bytes not yet read. *)
Definition Stream := list byte.

#[export] Instance Stream_Read : ioReader Stream := fun s k =>
  match s with
  | [] => ([], Some EOF, [])
  | _ => (take k s, None, drop k s)
  end.

(** io.ReadAtLeast's loop [for n < min && err == nil]; [need] is [min - n].
    Every [Read] of the readers below returns a byte or an error, so [need]
    rounds are enough and the [ErrNoProgress] of the last line is not
    reached. *)
Fixpoint readLoop {R} `{ioReader R} (fuel : nat) (r : R) (acc : list byte) (need : nat)
  : list byte * option error * R :=
  match need, fuel with
  | O, _ => (acc, None, r)
  | _, S fuel' =>
      match Read r need with
      | (data, None, r') => readLoop fuel' r' (acc ++ data) (need - length data)
      | (data, Some e, r') => (acc ++ data, Some e, r')
      end
  | _, O => (acc, Some ErrNoProgress, r)
  end.

(** io.ReadFull(r, buf) with [len(buf) = k]. *)
Definition ReadFull {R} `{ioReader R} (r : R) (k : nat) : list byte * option error * R :=
  match readLoop k r [] k with
  | (data, e, r') =>
      if (k <=? length data)%nat then (data, None, r')
      else match e with
           | Some EOF => (data, Some (if (0 <? length data)%nat then ErrUnexpectedEOF else EOF), r')
           | _ => (data, e, r')
           end
  end.

(** ** bufio.Reader *)

Definition defaultBufSize : nat := 4096.

(** [buf] is the unread part [b.buf[b.r:b.w]] of the buffer, [rd] the reader
    underneath, [rerr] the error kept for the next call. *)
Record Reader : Type := mkReader {
  buf : list byte;
  rd : Stream;
  rerr : option error;
}.

Definition NewReader (r : Stream) : Reader := mkReader [] r None.

(** The bytes a caller of the buffered reader has yet to see. *)
Definition pending (b : Reader) : list byte := buf b ++ rd b.

(** b.fill(): one read into the free part of the buffer (the reader underneath
    returns a byte or an error on the first try). *)
Definition fill (b : Reader) : Reader :=
  match Read (rd b) (defaultBufSize - length (buf b))%nat with
  | (data, e, rd') =>
      mkReader (buf b ++ data) rd' (match e with Some _ => e | None => rerr b end)
  end.

(** [err == nil] *)
Definition isNil (e : option error) : bool :=
  match e with None => true | Some _ => false end.

(** b.readErr() *)
Definition readErr (b : Reader) : option error * Reader :=
  (rerr b, mkReader (buf b) (rd b) None).

(** The loop of Peek: [for b.w-b.r < n && b.w-b.r < len(b.buf) && b.err == nil]. *)
Fixpoint peekFill (fuel : nat) (n : nat) (b : Reader) : Reader :=
  match fuel with
  | O => b
  | S fuel' =>
      if (length (buf b) <? n)%nat && (length (buf b) <? defaultBufSize)%nat
         && isNil (rerr b)
      then peekFill fuel' n (fill b)
      else b
  end.

(** b.Peek(n) *)
Definition Peek (n : nat) (b : Reader) : list byte * option error * Reader :=
  let b := peekFill (S n) n b in
  if (defaultBufSize <? n)%nat then (buf b, Some ErrBufferFull, b)
  else if (length (buf b) <? n)%nat then
    match readErr b with
    | (Some e, b') => (buf b, Some e, b')
    | (None, b') => (buf b, Some ErrBufferFull, b')
    end
  else (take n (buf b), None, b).

(** b.Read(p) with [len(p) = k]. *)
#[export] Instance Reader_Read : ioReader Reader := fun b k =>
  match k with
  | O => if (0 <? length (buf b))%nat then ([], None, b)
         else let '(e, b') := readErr b in ([], e, b')
  | _ =>
      match buf b with
      | [] =>
          match rerr b with
          | Some _ => let '(e, b') := readErr b in ([], e, b')
          | None =>
              if (defaultBufSize <=? k)%nat then
                (* large read, empty buffer: read directly into p *)
                let '(data, e, rd') := Read (rd b) k in
                (data, e, mkReader [] rd' None)
              else
                (* one read into the buffer, then copy *)
                let '(data, e, rd') := Read (rd b) defaultBufSize in
                match data with
                | [] => ([], e, mkReader [] rd' None)
                | _ => (take k data, None, mkReader (drop k data) rd' e)
                end
          end
      | _ => (take k (buf b), None, mkReader (drop k (buf b)) (rd b) (rerr b))
      end
  end.

(** bytes.IndexByte *)
Fixpoint IndexByte (s : list byte) (c : byte) : option nat :=
  match s with
  | [] => None
  | x :: s' => if Byte.eqb x c then Some O else option_map S (IndexByte s' c)
  end.

(** b.ReadSlice(delim): search the buffer, fill it and search again. Every
    [fill] takes a byte from the reader underneath or records its error. *)
Fixpoint readSliceLoop (fuel : nat) (delim : byte) (b : Reader)
  : list byte * option error * Reader :=
  match IndexByte (buf b) delim with
  | Some i => (take (S i) (buf b), None, mkReader (drop (S i) (buf b)) (rd b) (rerr b))
  | None =>
      match rerr b with
      | Some _ => let '(e, b') := readErr b in (buf b, e, mkReader [] (rd b') (rerr b'))
      | None =>
          if (defaultBufSize <=? length (buf b))%nat
          then (buf b, Some ErrBufferFull, mkReader [] (rd b) (rerr b))
          else match fuel with
               | O => ([], Some ErrNoProgress, b)
               | S fuel' => readSliceLoop fuel' delim (fill b)
               end
      end
  end.

Definition ReadSlice (delim : byte) (b : Reader) : list byte * option error * Reader :=
  readSliceLoop (S (length (rd b))) delim b.

(** b.collectFragments(delim): full buffers are set aside while ReadSlice
    answers ErrBufferFull. *)
Fixpoint collectFragments (fuel : nat) (delim : byte) (acc : list byte) (b : Reader)
  : list byte * option error * Reader :=
  match ReadSlice delim b with
  | (frag, None, b') => (acc ++ frag, None, b')
  | (frag, Some ErrBufferFull, b') =>
      match fuel with
      | O => (acc ++ frag, Some ErrNoProgress, b')
      | S fuel' => collectFragments fuel' delim (acc ++ frag) b'
      end
  | (frag, Some e, b') => (acc ++ frag, Some e, b')
  end.

(** b.ReadString(delim) *)
Definition ReadString (delim : byte) (b : Reader) : list byte * option error * Reader :=
  collectFragments (length (pending b)) delim [] b.

(** encoding/binary.Read(r, binary.LittleEndian, &val) for a value of [size]
    bytes: io.ReadFull, then the bytes are decoded by the caller. *)
Definition binaryRead {R} `{ioReader R} (size : nat) : M R (list byte) :=
  try (fun r => ReadFull r size).

(** ** io.Writer and bufio.Writer *)

(** [Write w p] is [w.Write(p)]: the count written, the error, the writer
    afterwards. *)
Class ioWriter (W : Type) := Write : W -> list byte -> nat * option error * W.

(** The sending side of a connection: the bytes sent so far; once the peer
    has reset the connection every write fails. *)
Record Sink : Type := mkSink {
  sent : list byte;
  broken : bool;
}.

#[export] Instance Sink_Write : ioWriter Sink := fun w p =>
  if broken w then (O, Some ErrClosedPipe, w)
  else (length p, None, mkSink (sent w ++ p) false).

Record Writer : Type := mkWriter {
  wbuf : list byte;       (* b.buf[0:b.n] *)
  wr : Sink;
  werr : option error;
}.

Definition NewWriter (w : Sink) : Writer := mkWriter [] w None.

Definition Available (b : Writer) : nat := (defaultBufSize - length (wbuf b))%nat.

(** b.Flush() *)
Definition Flush (b : Writer) : option error * Writer :=
  match werr b with
  | Some e => (Some e, b)
  | None =>
      match wbuf b with
      | [] => (None, b)
      | _ =>
          let '(n, err, wr') := Write (wr b) (wbuf b) in
          let err := if (n <? length (wbuf b))%nat && isNil err then Some ErrShortWrite else err in
          match err with
          | Some e => (Some e, mkWriter (drop n (wbuf b)) wr' (Some e))
          | None => (None, mkWriter [] wr' None)
          end
      end
  end.

(** The loop of b.Write(p): [for len(p) > b.Available() && b.err == nil].  It
    yields what is left of [p].  A round writes [p] out whole or flushes the
    buffer, so the loop ends within [len(p) + 1] rounds. *)
Fixpoint writeLoop (fuel : nat) (p : list byte) (b : Writer) : list byte * Writer :=
  if (Available b <? length p)%nat && isNil (werr b) then
    match fuel with
    | O => (p, b)
    | S fuel' =>
        match wbuf b with
        | [] =>
            (* large write, empty buffer: write directly from p *)
            let '(n, e, wr') := Write (wr b) p in
            writeLoop fuel' (drop n p) (mkWriter [] wr' e)
        | _ =>
            let n := Available b in
            let '(_, b') := Flush (mkWriter (wbuf b ++ take n p) (wr b) (werr b)) in
            writeLoop fuel' (drop n p) b'
        end
    end
  else (p, b).

(** b.Write(p); the count is not used by any caller here. *)
Definition Writer_Write (p : list byte) (b : Writer) : option error * Writer :=
  let '(p', b') := writeLoop (S (length p)) p b in
  match werr b' with
  | Some e => (Some e, b')
  | None => (None, mkWriter (wbuf b' ++ p') (wr b') None)
  end.

(** The loop of b.WriteString(s): fill the buffer and flush while [s] does
    not fit. *)
Fixpoint writeStringLoop (fuel : nat) (s : list byte) (b : Writer) : list byte * Writer :=
  if (Available b <? length s)%nat && isNil (werr b) then
    match fuel with
    | O => (s, b)
    | S fuel' =>
        let n := Available b in
        let '(_, b') := Flush (mkWriter (wbuf b ++ take n s) (wr b) (werr b)) in
        writeStringLoop fuel' (drop n s) b'
    end
  else (s, b).

(** b.WriteString(s) *)
Definition WriteString (s : list byte) (b : Writer) : option error * Writer :=
  let '(s', b') := writeStringLoop (S (length s)) s b in
  match werr b' with
  | Some e => (Some e, b')
  | None => (None, mkWriter (wbuf b' ++ s') (wr b') None)
  end.

(** b.WriteByte(c) *)
Definition WriteByte (c : byte) (b : Writer) : option error * Writer :=
  match werr b with
  | Some e => (Some e, b)
  | None =>
      if (Available b <=? 0)%nat then
        match Flush b with
        | (Some e, b') => (werr b', b')
        | (None, b') => (None, mkWriter (wbuf b' ++ [c]) (wr b') (werr b'))
        end
      else (None, mkWriter (wbuf b ++ [c]) (wr b) (werr b))
  end.

(** encoding/binary.Write(w, binary.LittleEndian, data), [bs] being the
    encoding of [data]. *)
Definition binaryWrite (bs : list byte) (b : Writer) : option error * Writer :=
  Writer_Write bs b.

(** ** The bson package

    [gopkg.in/mgo.v2/bson] is imported, not part of this package: its codec is
    a parameter.  A [bson.D] is a slice of [DocElem]s, a name and a value. *)
Class Bson : Type := {
  Value : Type;
  Marshal : list (list byte * Value) -> error + list byte;
  Unmarshal : list byte -> error + list (list byte * Value);
}.

Definition DocElem `{Bson} : Type := (list byte * Value)%type.
Definition D `{Bson} : Type := list DocElem.

(** ** Messages *)

Definition OP_REPLY : Z := 1.
Definition OP_MSG : Z := 1000.
Definition OP_UPDATE : Z := 2001.
Definition OP_INSERT : Z := 2002.
Definition RESERVED : Z := 2003.
Definition OP_QUERY : Z := 2004.
Definition OP_GET_MORE : Z := 2005.
Definition OP_DELETE : Z := 2006.
Definition OP_KILL_CURSORS : Z := 2007.

Definition HEADER_SIZE : Z := 16.

Record MsgHeader : Type := mkMsgHeader {
  MessageLength : Z;
  RequestID : Z;
  ResponseTo : Z;
  Opcode : Z;
}.

(** func (o Opcode) String() string *)
Definition Opcode_String (o : Z) : string :=
  if o =? OP_DELETE then "OP_DELETE"
  else if o =? OP_GET_MORE then "OP_GET_MORE"
  else if o =? OP_INSERT then "OP_INSERT"
  else if o =? OP_KILL_CURSORS then "OP_KILL_CURSORS"
  else if o =? OP_MSG then "OP_MSG"
  else if o =? OP_QUERY then "OP_QUERY"
  else if o =? OP_REPLY then "OP_REPLY"
  else if o =? OP_UPDATE then "OP_UPDATE"
  else "UNKNOWN".

(** The struct types implementing RequestMsg. *)
Inductive StructType : Type :=
| TQuery | TUpdate | TInsert | TGetMore | TDelete | TKillCursors | TMsg | TReply.

(** The types a struct field has; this is what [reflect] tells the codec
    about a field (v.Field(i).Type()). *)
Inductive FieldType : Type :=
| PtrMsgHeader   (* *MsgHeader *)
| Int32          (* int32 *)
| Int64          (* int64 *)
| GoString       (* string *)
| BsonD          (* bson.D *)
| SliceBsonD     (* []bson.D *)
| SliceInt64.    (* []int64 *)

(** The struct declarations, field by field in order. *)
Definition structFields (t : StructType) : list FieldType :=
  match t with
  | TQuery => [PtrMsgHeader; Int32; GoString; Int32; Int32; BsonD; BsonD]
  | TUpdate => [PtrMsgHeader; Int32; GoString; Int32; BsonD; BsonD]
  | TInsert => [PtrMsgHeader; Int32; GoString; SliceBsonD]
  | TGetMore => [PtrMsgHeader; Int32; GoString; Int32; Int64]
  | TDelete => [PtrMsgHeader; Int32; GoString; Int32; BsonD]
  | TKillCursors => [PtrMsgHeader; Int32; Int32; SliceInt64]
  | TMsg => [PtrMsgHeader; GoString]
  | TReply => [PtrMsgHeader; Int32; Int64; Int32; Int32; SliceBsonD]
  end.

Section Codec.
Context `{B : Bson}.

(** The value of a field. A nil slice and an empty one are both [[]]. *)
Inductive FieldVal : Type :=
| VHeader (h : MsgHeader)
| VInt32 (n : Z)
| VInt64 (n : Z)
| VString (s : list byte)
| VD (d : D)
| VDs (ds : list D)
| VInt64s (ids : list Z).

(** A value of one of the struct types, as [reflect.ValueOf(req).Elem()] shows
    it: its type and its fields by index. *)
Record RequestMsg : Type := mkReq {
  structType : StructType;
  fields : list FieldVal;
}.

Definition zeroValue (t : FieldType) : FieldVal :=
  match t with
  | PtrMsgHeader => VHeader (mkMsgHeader 0 0 0 0)
  | Int32 => VInt32 0
  | Int64 => VInt64 0
  | GoString => VString []
  | BsonD => VD []
  | SliceBsonD => VDs []
  | SliceInt64 => VInt64s []
  end.

(** The composite literal [&T{MsgHeader: h}]: every other field is zero. *)
Definition structLit (t : StructType) (h : MsgHeader) : RequestMsg :=
  mkReq t (VHeader h :: map zeroValue (tail (structFields t))).

Definition Query (h : MsgHeader) (Flags : Z) (FullCollectionName : list byte)
    (NumberToSkip NumberToReturn : Z) (Query ReturnFieldsSelector : D) : RequestMsg :=
  mkReq TQuery [VHeader h; VInt32 Flags; VString FullCollectionName; VInt32 NumberToSkip;
                VInt32 NumberToReturn; VD Query; VD ReturnFieldsSelector].

Definition Update (h : MsgHeader) (ZERO : Z) (FullCollectionName : list byte)
    (Flags : Z) (Selector Update : D) : RequestMsg :=
  mkReq TUpdate [VHeader h; VInt32 ZERO; VString FullCollectionName; VInt32 Flags;
                 VD Selector; VD Update].

Definition Insert (h : MsgHeader) (Flags : Z) (FullCollectionName : list byte)
    (Documents : list D) : RequestMsg :=
  mkReq TInsert [VHeader h; VInt32 Flags; VString FullCollectionName; VDs Documents].

Definition GetMore (h : MsgHeader) (ZERO : Z) (FullCollectionName : list byte)
    (NumberToReturn CursorID : Z) : RequestMsg :=
  mkReq TGetMore [VHeader h; VInt32 ZERO; VString FullCollectionName;
                  VInt32 NumberToReturn; VInt64 CursorID].

Definition Delete (h : MsgHeader) (ZERO : Z) (FullCollectionName : list byte)
    (Flags : Z) (Selector : D) : RequestMsg :=
  mkReq TDelete [VHeader h; VInt32 ZERO; VString FullCollectionName; VInt32 Flags;
                 VD Selector].

Definition KillCursors (h : MsgHeader) (ZERO NumberOfCursorIDs : Z)
    (CursorIDs : list Z) : RequestMsg :=
  mkReq TKillCursors [VHeader h; VInt32 ZERO; VInt32 NumberOfCursorIDs; VInt64s CursorIDs].

Definition Msg (h : MsgHeader) (Message : list byte) : RequestMsg :=
  mkReq TMsg [VHeader h; VString Message].

Definition Reply (h : MsgHeader) (ResponseFlags CursorID StartingFrom NumberReturned : Z)
    (Documents : list D) : RequestMsg :=
  mkReq TReply [VHeader h; VInt32 ResponseFlags; VInt64 CursorID; VInt32 StartingFrom;
                VInt32 NumberReturned; VDs Documents].

(** func (req *T) GetOp() Opcode *)
Definition GetOp (req : RequestMsg) : Z :=
  match structType req with
  | TQuery => OP_QUERY
  | TUpdate => OP_UPDATE
  | TInsert => OP_INSERT
  | TGetMore => OP_GET_MORE
  | TDelete => OP_DELETE
  | TKillCursors => OP_KILL_CURSORS
  | TMsg => OP_MSG
  | TReply => OP_REPLY
  end.

(** ** Decoding *)

(** func readMsgHeader(r io.Reader): the header, or the error of the read. *)
Definition readMsgHeader {R} `{ioReader R} : M R MsgHeader :=
  (bs <- binaryRead 16 ;;
   ret (mkMsgHeader (int32_of_le (take 4 bs))
                    (int32_of_le (take 4 (drop 4 bs)))
                    (int32_of_le (take 4 (drop 8 bs)))
                    (int32_of_le (take 4 (drop 12 bs)))))%go.

(** func readInt32s(r io.Reader, n int) ([]int32, error) *)
Fixpoint readInt32s {R} `{ioReader R} (n : nat) : M R (list Z) :=
  match n with
  | O => ret []
  | S n' => (bs <- binaryRead 4 ;;
             v <- readInt32s n' ;;
             ret (int32_of_le bs :: v))%go
  end.

(** func readInt64s(r io.Reader, n int) ([]int64, error) *)
Fixpoint readInt64s {R} `{ioReader R} (n : nat) : M R (list Z) :=
  match n with
  | O => ret []
  | S n' => (bs <- binaryRead 8 ;;
             v <- readInt64s n' ;;
             ret (int64_of_le bs :: v))%go
  end.

(** func readDoc(r *bufio.Reader) (bson.D, int, error).  [make([]byte, n)]
    panics when [n] is negative. *)
Definition readDoc : M Reader (D * Z) :=
  (b <- try (Peek 4) ;;
   let n := int32_of_le b in
   if n <? 0 then panic "runtime error: makeslice: len out of range"
   else
     bDoc <- try (fun r => ReadFull r (Z.to_nat n)) ;;
     match Unmarshal bDoc with
     | inl e => fail e
     | inr out => ret (out, n)
     end)%go.

(** The loop over the elements of a [[]bson.D] field:
    [for { d, n, e := readDoc(...); ...; if bytesRead == int(h.MessageLength) { break } }].
    It yields the slice and the byte counter. *)
Fixpoint readDocs (fuel : nat) (h : MsgHeader) (bytesRead : Z) (data : list D)
  : M Reader (list D * Z) :=
  match fuel with
  | O => diverge
  | S fuel' =>
      (dn <- readDoc ;;
       let data := data ++ [fst dn] in
       let bytesRead := bytesRead + snd dn in
       if bytesRead =? MessageLength h then ret (data, bytesRead)
       else readDocs fuel' h bytesRead data)%go
  end.

(** The loop over the elements of a [[]int64] field. *)
Fixpoint readIds (fuel : nat) (h : MsgHeader) (bytesRead : Z) (data : list Z)
  : M Reader (list Z * Z) :=
  match fuel with
  | O => diverge
  | S fuel' =>
      (n <- readInt64s 1 ;;
       let data := data ++ n in
       let bytesRead := bytesRead + 8 in
       if bytesRead =? MessageLength h then ret (data, bytesRead)
       else readIds fuel' h bytesRead data)%go
  end.

(** The loop of ReadRequest over the fields [i, i+1, ...] of the struct, whose
    types are [ts]; [v] holds the fields set so far.  [fuel] bounds the two
    element loops: each round of theirs takes bytes from the reader, unless a
    document declares no bytes and the bson package accepts it. *)
Fixpoint readFields (fuel : nat) (h : MsgHeader) (ts : list FieldType) (i : nat)
    (bytesRead : Z) (v : list FieldVal) : M Reader (list FieldVal) :=
  match ts with
  | [] => ret v
  | t :: ts' =>
      if bytesRead =? MessageLength h then ret v
      else if bytesRead >? MessageLength h then fail ErrorWrongLen
      else
        match t with
        | BsonD =>
            (dn <- readDoc ;;
             readFields fuel h ts' (S i) (bytesRead + snd dn) (<[i := VD (fst dn)]> v))%go
        | SliceBsonD =>
            (db <- readDocs fuel h bytesRead [] ;;
             readFields fuel h ts' (S i) (snd db) (<[i := VDs (fst db)]> v))%go
        | SliceInt64 =>
            (db <- readIds fuel h bytesRead [] ;;
             readFields fuel h ts' (S i) (snd db) (<[i := VInt64s (fst db)]> v))%go
        | GoString =>
            (str <- try (ReadString Byte.x00) ;;
             readFields fuel h ts' (S i) (bytesRead + Z.of_nat (length str))
               (<[i := VString (take (length str - 1) str)]> v))%go
        | Int32 =>
            (n <- readInt32s 1 ;;
             readFields fuel h ts' (S i) (bytesRead + 4) (<[i := VInt32 (hd 0 n)]> v))%go
        | Int64 =>
            (n <- readInt64s 1 ;;
             readFields fuel h ts' (S i) (bytesRead + 8) (<[i := VInt64 (hd 0 n)]> v))%go
        | PtrMsgHeader => readFields fuel h ts' (S i) bytesRead v
        end
  end.

(** func newReq(h *MsgHeader) RequestMsg; [None] is the nil interface. *)
Definition newReq (h : MsgHeader) : option RequestMsg :=
  if Opcode h =? OP_UPDATE then Some (structLit TUpdate h)
  else if Opcode h =? OP_QUERY then Some (structLit TQuery h)
  else if Opcode h =? OP_DELETE then Some (structLit TDelete h)
  else if Opcode h =? OP_GET_MORE then Some (structLit TGetMore h)
  else if Opcode h =? OP_INSERT then Some (structLit TInsert h)
  else if Opcode h =? OP_KILL_CURSORS then Some (structLit TKillCursors h)
  else if Opcode h =? OP_MSG then Some (structLit TMsg h)
  else if Opcode h =? OP_REPLY then Some (structLit TReply h)
  else None.

(** func ReadRequest(r io.Reader) (RequestMsg, error).  The second component
    is the caller's reader afterwards: [bufferReader] and the bytes it holds
    are dropped when the function returns. *)
Definition ReadRequest (r : Stream) : outcome RequestMsg * Stream :=
  match readMsgHeader r with
  | (Ok h, r) =>
      match newReq h with
      | None => (Err ErrorOpcodeUnknown, r)
      | Some req =>
          let bufferReader := NewReader r in
          match readFields (S (length r)) h (structFields (structType req)) 0
                  HEADER_SIZE (fields req) bufferReader with
          | (Ok v, b) => (Ok (mkReq (structType req) v), rd b)
          | (Err e, b) => (Err e, rd b)
          | (Panic msg, b) => (Panic msg, rd b)
          | (Diverge, b) => (Diverge, rd b)
          end
      end
  | (Err e, r) => (Err e, r)
  | (Panic msg, r) => (Panic msg, r)
  | (Diverge, r) => (Diverge, r)
  end.

(** ** Encoding *)

Definition headerBytes (h : MsgHeader) : list byte :=
  le_of_int32 (MessageLength h) ++ le_of_int32 (RequestID h)
  ++ le_of_int32 (ResponseTo h) ++ le_of_int32 (Opcode h).

(** func writeBson(data bson.D, w *bufio.Writer) error *)
Definition writeBson (data : D) (w : Writer) : option error * Writer :=
  if (0 <? length data)%nat then
    match Marshal data with
    | inl err => (Some err, w)
    | inr bytes => Writer_Write bytes w
    end
  else (None, w).

(** [for _, d := range data { e = writeBson(d, bufWriter); if e != nil { break } }] *)
Fixpoint writeDocs (data : list D) (e : option error) (w : Writer) : option error * Writer :=
  match data with
  | [] => (e, w)
  | d :: data' =>
      match writeBson d w with
      | (Some e', w') => (Some e', w')
      | (None, w') => writeDocs data' None w'
      end
  end.

(** [for _, d := range data { e = binary.Write(...); if e != nil { break } }] *)
Fixpoint writeIds (data : list Z) (e : option error) (w : Writer) : option error * Writer :=
  match data with
  | [] => (e, w)
  | d :: data' =>
      match binaryWrite (le_of_int64 d) w with
      | (Some e', w') => (Some e', w')
      | (None, w') => writeIds data' None w'
      end
  end.

(** One round of the loop of WriteRequest: the case of the switch the field's
    type selects; [e] is the error variable the rounds share. *)
Definition writeField (f : FieldVal) (e : option error) (w : Writer) : option error * Writer :=
  match f with
  | VHeader h => binaryWrite (headerBytes h) w
  | VInt32 n => binaryWrite (le_of_int32 n) w
  | VInt64 n => binaryWrite (le_of_int64 n) w
  | VString s =>
      let '(e', w') := WriteString s w in
      let '(_, w'') := WriteByte Byte.x00 w' in
      (e', w'')
  | VD d => writeBson d w
  | VDs data => writeDocs data e w
  | VInt64s data => writeIds data e w
  end.

Fixpoint writeFields (fs : list FieldVal) (e : option error) (w : Writer) : option error * Writer :=
  match fs with
  | [] => (e, w)
  | f :: fs' => let '(e', w') := writeField f e w in writeFields fs' e' w'
  end.

(** func WriteRequest(req RequestMsg, w io.Writer) error.  The deferred
    [bufWriter.Flush()] runs on return and its error is dropped. *)
Definition WriteRequest (req : RequestMsg) (w : Sink) : option error * Sink :=
  let bufWriter := NewWriter w in
  let '(e, bufWriter) := writeFields (fields req) None bufWriter in
  let '(_, bufWriter) := Flush bufWriter in
  (e, wr bufWriter).

(** The type of a field value; a struct value has the field types of its
    declaration. *)
Definition typeOf (f : FieldVal) : FieldType :=
  match f with
  | VHeader _ => PtrMsgHeader
  | VInt32 _ => Int32
  | VInt64 _ => Int64
  | VString _ => GoString
  | VD _ => BsonD
  | VDs _ => SliceBsonD
  | VInt64s _ => SliceInt64
  end.

Definition wellTyped (req : RequestMsg) : Prop :=
  map typeOf (fields req) = structFields (structType req).

End Codec.

(** ** A fragment of BSON

    Documents all of whose elements are 32-bit integers (element type 0x10):
    [int32 size, (0x10 name 0x00 int32)*, 0x00].  It stands for the bson
    package where a statement is evaluated on concrete bytes. *)
Module BsonInt32.

Definition elem (e : list byte * Z) : list byte :=
  (Byte.x10 :: fst e) ++ [Byte.x00] ++ le_of_int32 (snd e).

Definition marshal (d : list (list byte * Z)) : error + list byte :=
  let body := flat_map elem d in
  inr (le_of_int32 (Z.of_nat (length body) + 5) ++ body ++ [Byte.x00]).

Definition corrupted {A} : error + A := inl (ErrBson "Document is corrupted").

(** The elements up to the closing 0x00, which has to be the last byte. *)
Fixpoint elems (fuel : nat) (bs : list byte) : option (list (list byte * Z)) :=
  match fuel, bs with
  | S fuel', kind :: bs' =>
      if Byte.eqb kind Byte.x00 then
        match bs' with [] => Some [] | _ => None end
      else if Byte.eqb kind Byte.x10 then
        match IndexByte bs' Byte.x00 with
        | Some i =>
            let val := drop (S i) bs' in
            if (4 <=? length val)%nat then
              option_map (cons (take i bs', int32_of_le (take 4 val)))
                         (elems fuel' (drop 4 val))
            else None
        | None => None
        end
      else None
  | _, _ => None
  end.

Definition unmarshal (bs : list byte) : error + list (list byte * Z) :=
  if (length bs <? 5)%nat then corrupted
  else if negb (le_combine (take 4 bs) =? Z.of_nat (length bs)) then corrupted
  else match elems (length bs) (drop 4 bs) with
       | Some d => inr d
       | None => corrupted
       end.

#[export] Instance codec : Bson :=
  {| Value := Z; Marshal := marshal; Unmarshal := unmarshal |}.

End BsonInt32.

(** ** A bson package with a value it cannot encode

    bson.Marshal returns an error for a document that holds a Go value of a
    kind it has no encoding for (a func, a chan); [Unsupported] stands for
    such a value.  Everything else is as in [BsonInt32]. *)
Module BsonPartial.

Inductive value : Type :=
| Int (n : Z)
| Unsupported.

Definition supported (e : list byte * value) : bool :=
  match snd e with Int _ => true | Unsupported => false end.

Definition int_of (e : list byte * value) : list byte * Z :=
  (fst e, match snd e with Int n => n | Unsupported => 0 end).

Definition marshal (d : list (list byte * value)) : error + list byte :=
  if forallb supported d then BsonInt32.marshal (map int_of d)
  else inl (ErrBson "Can't marshal func() in a BSON document").

Definition unmarshal (bs : list byte) : error + list (list byte * value) :=
  match BsonInt32.unmarshal bs with
  | inl e => inl e
  | inr d => inr (map (fun e => (fst e, Int (snd e))) d)
  end.

Definition codec : Bson :=
  {| Value := value; Marshal := marshal; Unmarshal := unmarshal |}.

End BsonPartial.

(** ** The relay (proxy.go) *)

Section Relay.
Context `{B : Bson}.

(** A net.Conn: the bytes the peer has sent and are not read yet, the sending
    side, and whether Close was called. *)
Record Conn : Type := mkConn {
  rx : Stream;
  tx : Sink;
  isClosed : bool;
}.

Definition Close (c : Conn) : Conn := mkConn (rx c) (tx c) true.

(** LogMsg, without its Time and TimeUsed fields (the clock is not modelled). *)
Record LogMsg : Type := mkLogMsg {
  Type_ : string;
  Content : RequestMsg + error;
}.

Record Proxy : Type := mkProxy {
  Remote : string;
  Port : Z;
  LogResp : bool;
}.

(** The state of the loop: the two connections and the records printed. *)
Record Session : Type := mkSession {
  client : Conn;
  backend : Conn;
  log : list LogMsg;
}.

Definition printLog (l : LogMsg) (s : Session) : Session :=
  mkSession (client s) (backend s) (log s ++ [l]).

(** [if e != io.EOF { l := LogMsg{..., Type: "ERROR", Content: e}; fmt.Println(toJSON(l)) }] *)
Definition logError (e : error) (s : Session) : Session :=
  if error_eqb e EOF then s else printLog (mkLogMsg "ERROR" (inr e)) s.

Definition logMsg (r : RequestMsg) (s : Session) : Session :=
  printLog (mkLogMsg (Opcode_String (GetOp r)) (inl r)) s.

(** ReadRequest(conn) and WriteRequest(r, conn) on a connection. *)
Definition connRead (c : Conn) : outcome RequestMsg * Conn :=
  let '(res, rx') := ReadRequest (rx c) in (res, mkConn rx' (tx c) (isClosed c)).

Definition connWrite (r : RequestMsg) (c : Conn) : option error * Conn :=
  let '(e, tx') := WriteRequest r (tx c) in (e, mkConn (rx c) tx' (isClosed c)).

Definition setClient (c : Conn) (s : Session) : Session := mkSession c (backend s) (log s).
Definition setBackend (c : Conn) (s : Session) : Session := mkSession (client s) c (log s).

(** The [for] loop of handleConnection.  [Ok tt] is the [break]; a round reads
    a header from the client, so the loop ends on a finite stream and [fuel]
    is the number of rounds allowed. *)
Fixpoint relay (fuel : nat) (p : Proxy) (s : Session) : outcome unit * Session :=
  match fuel with
  | O => (Diverge, s)
  | S fuel' =>
      match connRead (client s) with
      | (Err e, conn) => (Ok tt, logError e (setClient conn s))
      | (Panic msg, conn) => (Panic msg, setClient conn s)
      | (Diverge, conn) => (Diverge, setClient conn s)
      | (Ok r, conn) =>
          let s := logMsg r (setClient conn s) in
          match connWrite r (backend s) with
          | (Some e, c) => (Ok tt, logError e (setBackend c s))
          | (None, c) =>
              match connRead c with
              | (Err e, c) => (Ok tt, logError e (setBackend c s))
              | (Panic msg, c) => (Panic msg, setBackend c s)
              | (Diverge, c) => (Diverge, setBackend c s)
              | (Ok r, c) =>
                  let s := setBackend c s in
                  let s := if LogResp p then logMsg r s else s in
                  let '(_, conn) := connWrite r (client s) in
                  relay fuel' p (setClient conn s)
              end
          end
      end
  end.

(** How a call of handleConnection ends: the outcome, the client connection,
    the backend connection if the dial gave one, and the records printed. *)
Record Handled : Type := mkHandled {
  result : outcome unit;
  clientConn : Conn;
  backendConn : option Conn;
  printed : list LogMsg;
}.

(** func (p *Proxy) handleConnection(conn net.Conn).  [dial] is what
    [net.Dial("tcp", p.Remote)] returns: the connection (nil on failure) and
    the error.  [defer c.Close()] evaluates the method value [c.Close]; on a
    nil interface value that is a run-time panic, raised before the next
    statement.  Deferred calls run when the function returns or panics. *)
Definition handleConnection (p : Proxy) (conn : Conn) (dial : option Conn * option error)
  : Handled :=
  match dial with
  | (None, _) =>
      mkHandled (Panic "runtime error: invalid memory address or nil pointer dereference")
                conn None []
  | (Some c, e) =>
      let '(res, s) :=
        match e with
        | Some e => (Ok tt, printLog (mkLogMsg "ERROR" (inr e)) (mkSession conn c []))
        | None => relay (S (length (rx conn))) p (mkSession conn c [])
        end in
      match res with
      | Diverge => mkHandled Diverge (client s) (Some (backend s)) (log s)
      | _ => mkHandled res (Close (client s)) (Some (Close (backend s))) (log s)
      end
  end.

(** The record the loop prints for a message. *)
Definition msgRecord (r : RequestMsg) : LogMsg :=
  mkLogMsg (Opcode_String (GetOp r)) (inl r).

End Relay.

(** ** The wire format, stated on its own

    What the frame of a message looks like, field by field, and which
    messages the statements below are about. *)

Section Wire.
Context `{B : Bson}.

Definition docBytes (d : D) : list byte :=
  match Marshal d with inr bs => bs | inl _ => [] end.

(** A document with at least one element that the bson package encodes, with
    the size of the encoding in its first four bytes, and decodes back. *)
Definition goodDoc (d : D) : Prop :=
  d <> [] /\
  exists bs, Marshal d = inr bs /\ Unmarshal bs = inr d /\
             (4 <= length bs)%nat /\ int32_of_le (take 4 bs) = Z.of_nat (length bs).

(** The bytes of a field: a cstring ends in 0x00, an absent document (no
    element) takes no byte. *)
Definition wire (f : FieldVal) : list byte :=
  match f with
  | VHeader h => headerBytes h
  | VInt32 n => le_of_int32 n
  | VInt64 n => le_of_int64 n
  | VString s => s ++ [Byte.x00]
  | VD [] => []
  | VD d => docBytes d
  | VDs ds => concat (map docBytes ds)
  | VInt64s ids => concat (map le_of_int64 ids)
  end.

Definition bodyBytes (fs : list FieldVal) : list byte := concat (map wire fs).

(** The values a field after the header may hold. *)
Definition validField (f : FieldVal) : Prop :=
  match f with
  | VHeader _ => False
  | VInt32 n => is_int32 n
  | VInt64 n => is_int64 n
  | VString s => ~ In Byte.x00 s
  | VD d => d = [] \/ goodDoc d
  | VDs ds => Forall goodDoc ds
  | VInt64s ids => Forall is_int64 ids
  end.

Definition isAbsent (f : FieldVal) : bool :=
  match f with
  | VD [] | VDs [] | VInt64s [] => true
  | _ => false
  end.

Definition isSlice (f : FieldVal) : bool :=
  match f with
  | VDs _ | VInt64s _ => true
  | _ => false
  end.

(** Absent documents come last, and nothing follows the elements of a
    slice: after an absent field or a slice every field is absent. *)
Fixpoint layoutOK (fs : list FieldVal) : bool :=
  match fs with
  | [] => true
  | f :: fs' => if isAbsent f || isSlice f then forallb isAbsent fs' else layoutOK fs'
  end.

(** [m] is a message with header [h] and the fields [body] after it, every
    field within its type, and the header telling the type and the size of
    the frame. *)
Record validMsg (m : RequestMsg) (h : MsgHeader) (body : list FieldVal) : Prop := {
  valid_fields : fields m = VHeader h :: body;
  valid_typed : wellTyped m;
  valid_opcode : Opcode h = GetOp m;
  valid_ids : is_int32 (RequestID h) /\ is_int32 (ResponseTo h);
  valid_body : Forall validField body;
  valid_layout : layoutOK body = true;
  valid_length : MessageLength h = HEADER_SIZE + Z.of_nat (length (bodyBytes body));
  valid_size : is_int32 (MessageLength h);
}.

(** The bson package does not decode the empty slice (no document is
    shorter than five bytes). *)
Definition rejectsEmpty : Prop := forall d : D, Unmarshal [] <> inr d.

(** What a field may hold by its Go type: an int32 or int64 is within its
    range, and a string that was cut at the first 0x00 holds none. *)
Definition inRange (f : FieldVal) : Prop :=
  match f with
  | VInt32 n => is_int32 n
  | VInt64 n => is_int64 n
  | VString s => ~ In Byte.x00 s
  | VInt64s ids => Forall is_int64 ids
  | VHeader _ | VD _ | VDs _ => True
  end.

(** The opcodes newReq knows. *)
Definition registered (op : Z) : Prop :=
  op = OP_REPLY \/ op = OP_MSG \/ op = OP_UPDATE \/ op = OP_INSERT \/
  op = OP_QUERY \/ op = OP_GET_MORE \/ op = OP_DELETE \/ op = OP_KILL_CURSORS.

(** A record of the relay: a message under the name of its opcode, which is
    neither "ERROR" nor "UNKNOWN", or an error other than io.EOF under
    "ERROR". *)
Definition recordOK (l : LogMsg) : Prop :=
  match Content l with
  | inl r => Type_ l = Opcode_String (GetOp r)
             /\ Type_ l <> "ERROR"%string /\ Type_ l <> "UNKNOWN"%string
  | inr e => Type_ l = "ERROR"%string /\ e <> EOF
  end.

End Wire.

(** Between two calls the buffer of a bufio.Reader is within its size and no
    error is kept. *)
Definition rinv (b : Reader) : Prop :=
  (length (buf b) <= defaultBufSize)%nat /\ rerr b = None.

(** What ReadSlice answers on the pending bytes [s ++ delim :: rest]. *)
Definition sliceResult (delim : byte) (s rest : list byte)
    (res : list byte * option error * Reader) : Prop :=
  if (length s <? defaultBufSize)%nat then
    exists b', res = (s ++ [delim], None, b') /\ pending b' = rest /\ rinv b'
  else
    exists b', res = (take defaultBufSize s, Some ErrBufferFull, b') /\
               pending b' = drop defaultBufSize s ++ delim :: rest /\ rinv b'.

(** A computation on a buffered reader that only takes pending bytes. *)
Definition shrinking {A} (m : M Reader A) : Prop :=
  forall b res b', m b = (res, b') -> (length (pending b') <= length (pending b))%nat.

(** A computation on a buffered reader that takes its bytes from the front
    of the pending ones, in order. *)
Definition consuming {A} (m : M Reader A) : Prop :=
  forall b res b', m b = (res, b') -> exists taken, pending b = taken ++ pending b'.

(** The run-time panic of [make([]byte, n)] with a negative [n]. *)
Definition makeslicePanic : string := "runtime error: makeslice: len out of range".

(** A computation whose only panic is that one. *)
Definition panicsInMake {S A} (m : M S A) : Prop :=
  forall s msg s', m s = (Panic msg, s') -> msg = makeslicePanic.

(** The errors of a read that meets the end of the stream. *)
Definition endOfStream (e : error) : Prop := e = EOF \/ e = ErrUnexpectedEOF.

(** A bufio.Writer over a connection that takes every write: no error is
    kept and the buffer is within its size. *)
Definition winv (w : Writer) : Prop :=
  (length (wbuf w) <= defaultBufSize)%nat /\ werr w = None /\ broken (wr w) = false.

(** The bytes written through a bufio.Writer so far, sent or still buffered. *)
Definition written (w : Writer) : list byte := sent (wr w) ++ wbuf w.

(** ** Sample frames and messages

    Concrete inputs on which the statements below are evaluated, with the
    documents of [BsonInt32]. *)
Module Samples.
Import BsonInt32.

Definition name_db_c : list byte := list_byte_of_string "db.c".
Definition doc_a : D := [(list_byte_of_string "a", 1)].
Definition doc_bc : D := [(list_byte_of_string "bc", -2); (list_byte_of_string "d", 7)].
Definition open_sink : Sink := mkSink [] false.
Definition reset_sink : Sink := mkSink [] true.

(** The query [db.c.find({})]: its query document is the empty document,
    the five bytes [05 00 00 00 00]; the frame is 38 bytes long. *)
Definition find_all_header : MsgHeader := mkMsgHeader 38 1 0 OP_QUERY.
Definition find_all_frame : list byte :=
  headerBytes find_all_header ++ le_of_int32 0 ++ name_db_c ++ [Byte.x00]
  ++ le_of_int32 0 ++ le_of_int32 0 ++ [Byte.x05; Byte.x00; Byte.x00; Byte.x00; Byte.x00].
Definition find_all : RequestMsg := Query find_all_header 0 name_db_c 0 0 [] [].

(** A Query frame of 33 bytes that stops after numberToReturn. *)
Definition short_header : MsgHeader := mkMsgHeader 33 2 0 OP_QUERY.
Definition short_frame : list byte :=
  headerBytes short_header ++ le_of_int32 0 ++ name_db_c ++ [Byte.x00]
  ++ le_of_int32 0 ++ le_of_int32 10 ++ [].

(** Query frames whose fields take 45 bytes (one document) and 65 bytes
    (two documents), declared 4 bytes longer, and one declared 4 bytes
    shorter. *)
Definition long_header : MsgHeader := mkMsgHeader 49 3 0 OP_QUERY.
Definition long_frame : list byte :=
  headerBytes long_header ++ le_of_int32 0 ++ name_db_c ++ [Byte.x00]
  ++ le_of_int32 0 ++ le_of_int32 10 ++ docBytes doc_a.
Definition long_header2 : MsgHeader := mkMsgHeader 69 3 0 OP_QUERY.
Definition long_frame2 : list byte :=
  headerBytes long_header2 ++ le_of_int32 0 ++ name_db_c ++ [Byte.x00]
  ++ le_of_int32 0 ++ le_of_int32 10 ++ docBytes doc_a ++ docBytes doc_bc.
Definition cut_header : MsgHeader := mkMsgHeader 41 3 0 OP_QUERY.
Definition cut_frame : list byte :=
  headerBytes cut_header ++ le_of_int32 0 ++ name_db_c ++ [Byte.x00]
  ++ le_of_int32 0 ++ le_of_int32 10 ++ docBytes doc_a ++ [].

(** An Insert frame with two documents and a KillCursors frame with three
    ids whose count field says 77. *)
Definition insert_header : MsgHeader := mkMsgHeader 57 4 0 OP_INSERT.
Definition insert_frame : list byte :=
  headerBytes insert_header ++ le_of_int32 0 ++ name_db_c ++ [Byte.x00]
  ++ docBytes doc_a ++ docBytes doc_bc ++ [].
Definition kill_header : MsgHeader := mkMsgHeader 48 5 0 OP_KILL_CURSORS.
Definition kill_frame : list byte :=
  headerBytes kill_header ++ le_of_int32 0 ++ le_of_int32 77
  ++ concat (map le_of_int64 [5; -6; 7]) ++ [].

(** Headers with the opcodes 9999 and 2003, followed by two more bytes. *)
Definition unknown_frame : list byte :=
  headerBytes (mkMsgHeader 18 6 0 9999) ++ [Byte.x61; Byte.x00].
Definition reserved_frame : list byte :=
  headerBytes (mkMsgHeader 18 6 0 RESERVED) ++ [Byte.x61; Byte.x00].

(** Two Message frames of 18 bytes each. *)
Definition ping_header : MsgHeader := mkMsgHeader 18 7 0 OP_MSG.
Definition ping : RequestMsg := Msg ping_header [Byte.x61].
Definition ping_frame : list byte := headerBytes ping_header ++ [Byte.x61; Byte.x00].
Definition pong_header : MsgHeader := mkMsgHeader 18 8 0 OP_MSG.
Definition pong : RequestMsg := Msg pong_header [Byte.x62].
Definition pong_frame : list byte := headerBytes pong_header ++ [Byte.x62; Byte.x00].

(** A message whose header says 100 bytes. *)
Definition mislabelled : RequestMsg := Msg (mkMsgHeader 100 9 0 OP_MSG) [Byte.x61].

(** A Query frame whose query document declares the size -1. *)
Definition negative_size_frame : list byte :=
  headerBytes (mkMsgHeader 40 10 0 OP_QUERY) ++ le_of_int32 0 ++ name_db_c ++ [Byte.x00]
  ++ le_of_int32 0 ++ le_of_int32 10 ++ le_of_int32 (-1) ++ [Byte.x00; Byte.x00; Byte.x00].

(** A reply of 5017 bytes, larger than the buffer of a bufio.Writer. *)
Definition big_header : MsgHeader := mkMsgHeader 5017 11 7 OP_MSG.
Definition big_reply : RequestMsg := Msg big_header (repeat Byte.x61 5000).
Definition proxy : Proxy := mkProxy "localhost:27017" 50001 false.

Definition idle_session : Session :=
  mkSession (mkConn [] open_sink false) (mkConn [] open_sink false) [].

(** A Query frame of 45 bytes, [db.c.find({a: 1})] with ten documents asked
    for: the header, flags (bytes 16 to 19), the collection name (20 to
    24), numberToSkip (25 to 28), numberToReturn (29 to 32) and the query
    document (33 to 44). *)
Definition query_header : MsgHeader := mkMsgHeader 45 12 0 OP_QUERY.
Definition query_a : RequestMsg := Query query_header 0 name_db_c 0 10 doc_a [].
Definition query_frame : list byte :=
  headerBytes query_header ++ le_of_int32 0 ++ name_db_c ++ [Byte.x00]
  ++ le_of_int32 0 ++ le_of_int32 10 ++ docBytes doc_a.

(** What a client has sent when it goes away after the first [n] bytes of
    that frame, with a backend that has sent nothing. *)
Definition cut_client (n : nat) : Conn := mkConn (take n query_frame) open_sink false.
Definition idle_backend : Conn := mkConn [] open_sink false.

(** A reply of 41 bytes whose one document is the empty document, the five
    bytes [05 00 00 00 00]. *)
Definition empty_reply_header : MsgHeader := mkMsgHeader 41 13 7 OP_REPLY.
Definition empty_reply : RequestMsg := Reply empty_reply_header 0 0 0 1 [[]].
Definition empty_reply_frame : list byte :=
  headerBytes empty_reply_header ++ le_of_int32 0 ++ le_of_int64 0 ++ le_of_int32 0
  ++ le_of_int32 1 ++ [Byte.x05; Byte.x00; Byte.x00; Byte.x00; Byte.x00].
Definition logging_proxy : Proxy := mkProxy "localhost:27017" 50001 true.

End Samples.

(** * Facts about the readers *)

Lemma defaultBufSize_ge : (4 <= defaultBufSize)%nat.
Proof. unfold defaultBufSize. lia. Qed.

#[local] Opaque defaultBufSize.

(** ** The caller's stream *)

Lemma Stream_Read_cons (s : Stream) (k : nat) :
  s <> [] -> Read s k = (take k s, None, drop k s).
Proof. destruct s; [congruence | reflexivity]. Qed.

Lemma readLoop_done {R} `{ioReader R} (fuel : nat) (r : R) (acc : list byte) :
  readLoop fuel r acc 0 = (acc, None, r).
Proof. destruct fuel; reflexivity. Qed.

Lemma ReadFull_Stream (s : Stream) (k : nat) :
  (k <= length s)%nat -> ReadFull s k = (take k s, None, drop k s).
Proof.
  intros Hk. unfold ReadFull.
  destruct k as [|k].
  - simpl. rewrite drop_0. reflexivity.
  - cbn [readLoop]. rewrite Stream_Read_cons by (destruct s; simpl in *; [lia | congruence]).
    rewrite length_take. replace (S k - S k `min` length s)%nat with O by lia.
    rewrite readLoop_done. cbn [app]. rewrite length_take.
    destruct (Nat.leb_spec (S k) (S k `min` length s)); [reflexivity | lia].
Qed.

(** ** The buffered reader *)

Lemma rinv_NewReader (r : Stream) : rinv (NewReader r).
Proof. split; simpl; [lia | reflexivity]. Qed.

Lemma pending_NewReader (r : Stream) : pending (NewReader r) = r.
Proof. reflexivity. Qed.

Lemma take_min_length {A} (l : list A) (n : nat) :
  take (n `min` length l) l = take n l.
Proof.
  destruct (Nat.le_gt_cases n (length l)).
  - replace (n `min` length l)%nat with n by lia. reflexivity.
  - replace (n `min` length l)%nat with (length l) by lia.
    rewrite !take_ge by lia. reflexivity.
Qed.

Lemma drop_min_length {A} (l : list A) (n : nat) :
  drop (n `min` length l) l = drop n l.
Proof.
  destruct (Nat.le_gt_cases n (length l)).
  - replace (n `min` length l)%nat with n by lia. reflexivity.
  - replace (n `min` length l)%nat with (length l) by lia.
    rewrite !drop_ge by lia. reflexivity.
Qed.

Lemma length_nonempty {A} (l : list A) : l <> [] -> (0 < length l)%nat.
Proof. destruct l; simpl; [congruence | lia]. Qed.

(** Read hands out a non-empty prefix of the pending bytes. *)
Lemma Reader_Read_some (b : Reader) (k : nat) :
  rinv b -> (0 < k)%nat -> pending b <> [] ->
  exists n b', Read b k = (take n (pending b), None, b') /\
               (0 < n <= k)%nat /\ (n <= length (pending b))%nat /\
               pending b' = drop n (pending b) /\ rinv b'.
Proof.
  intros [Hlen Herr] Hk Hp. destruct b as [bf r e]; simpl in *; subst e.
  unfold pending in *; simpl in *.
  destruct k as [|k]; [lia|].
  unfold Read, Reader_Read; cbn [buf rd rerr].
  destruct bf as [|x bf].
  - simpl in Hp. cbn [app]. pose proof (length_nonempty r Hp).
    rewrite !Stream_Read_cons by assumption.
    exists (S k `min` length r)%nat.
    rewrite take_min_length, drop_min_length.
    destruct (Nat.leb_spec defaultBufSize (S k)).
    + exists (mkReader [] (drop (S k) r) None).
      unfold rinv; cbn [buf rd rerr app length]. repeat split; lia.
    + destruct (take defaultBufSize r) as [|y t] eqn:Et.
      { apply (f_equal length) in Et. rewrite length_take in Et. simpl in Et.
        pose proof defaultBufSize_ge. lia. }
      rewrite <- Et. clear y t Et.
      exists (mkReader (drop (S k) (take defaultBufSize r)) (drop defaultBufSize r) None).
      unfold rinv; cbn [buf rd rerr]. repeat split; try lia.
      * rewrite take_take. replace (S k `min` defaultBufSize)%nat with (S k) by lia.
        reflexivity.
      * rewrite <- (take_drop defaultBufSize r) at 3.
        destruct (Nat.le_gt_cases (S k) (length (take defaultBufSize r))).
        -- rewrite drop_app_le by lia. reflexivity.
        -- rewrite length_take in *. rewrite (drop_ge (take _ _)) by (rewrite length_take; lia).
           rewrite drop_app_ge by (rewrite length_take; lia).
           rewrite (drop_ge r) by lia. rewrite drop_nil. reflexivity.
      * rewrite length_drop, length_take. lia.
  - assert (0 < length (x :: bf))%nat by (cbn [length]; lia).
    set (l := x :: bf) in *. clearbody l.
    exists (S k `min` length l)%nat, (mkReader (drop (S k) l) r None).
    unfold rinv; cbn [buf rd rerr]. repeat split; try lia.
    + f_equal. f_equal. rewrite <- (take_min_length l).
      rewrite take_app_le by lia. reflexivity.
    + rewrite length_app. lia.
    + rewrite drop_app_le by lia. rewrite drop_min_length. reflexivity.
    + rewrite length_drop. lia.
Qed.

(** ReadFull on the buffered reader hands out the next [k] pending bytes. *)
Lemma readLoop_Reader (fuel need : nat) (b : Reader) (acc : list byte) :
  rinv b -> (need <= fuel)%nat -> (need <= length (pending b))%nat ->
  exists b', readLoop fuel b acc need = (acc ++ take need (pending b), None, b') /\
             pending b' = drop need (pending b) /\ rinv b'.
Proof.
  revert need b acc. induction fuel as [|fuel IH]; intros need b acc Hinv Hf Hn.
  - replace need with O by lia. exists b. rewrite take_0, drop_0, app_nil_r. auto.
  - destruct need as [|need].
    + exists b. rewrite take_0, drop_0, app_nil_r. auto.
    + cbn [readLoop].
      destruct (Reader_Read_some b (S need) Hinv) as (n & b1 & -> & Hn1 & Hn2 & Hp1 & Hinv1);
        [lia | intros E; rewrite E in Hn; simpl in Hn; lia |].
      rewrite length_take. replace (n `min` length (pending b))%nat with n by lia.
      destruct (IH (S need - n)%nat b1 (acc ++ take n (pending b)) Hinv1) as (b' & -> & Hp' & Hinv');
        [lia | rewrite Hp1, length_drop; lia |].
      exists b'. rewrite Hp', Hp1, drop_drop. replace (n + (S need - n))%nat with (S need) by lia.
      split; [|split; [reflexivity | assumption]]. f_equal. f_equal.
      rewrite <- app_assoc. f_equal.
      rewrite take_take_drop. f_equal. lia.
Qed.

Lemma ReadFull_Reader (b : Reader) (k : nat) :
  rinv b -> (k <= length (pending b))%nat ->
  exists b', ReadFull b k = (take k (pending b), None, b') /\
             pending b' = drop k (pending b) /\ rinv b'.
Proof.
  intros Hinv Hk. unfold ReadFull.
  destruct (readLoop_Reader k k b [] Hinv (Nat.le_refl _) Hk) as (b' & -> & Hp & Hinv').
  exists b'. cbn [app]. rewrite length_take.
  destruct (Nat.leb_spec k (k `min` length (pending b))); [auto | lia].
Qed.

(** Peek shows the next [n] pending bytes and takes none. *)
Lemma fill_pending (b : Reader) :
  rinv b -> rd b <> [] ->
  pending (fill b) = pending b /\ rinv (fill b) /\
  buf (fill b) = take defaultBufSize (pending b).
Proof.
  intros [Hlen Herr] Hr. unfold fill, pending, rinv.
  rewrite Stream_Read_cons by assumption. cbn [buf rd rerr]. rewrite Herr.
  repeat split.
  - rewrite <- app_assoc, take_drop. reflexivity.
  - rewrite length_app, length_take. lia.
  - rewrite take_app_ge by lia. reflexivity.
Qed.

Lemma Peek_Reader (b : Reader) (n : nat) :
  rinv b -> (n <= length (pending b))%nat -> (n <= defaultBufSize)%nat ->
  exists b', Peek n b = (take n (pending b), None, b') /\
             pending b' = pending b /\ rinv b'.
Proof.
  intros Hinv Hn Hsz. unfold Peek.
  assert (exists b', peekFill (S n) n b = b' /\ pending b' = pending b /\ rinv b'
                     /\ (n <= length (buf b'))%nat) as (b' & -> & Hp & Hinv' & Hb).
  { cbn [peekFill]. destruct (Nat.ltb_spec (length (buf b)) n); cbn [andb].
    - destruct (Nat.ltb_spec (length (buf b)) defaultBufSize); [|lia]. cbn [andb].
      destruct Hinv as [Hl He]. rewrite He. cbn [isNil].
      assert (Hr : rd b <> []).
      { intros E. unfold pending in Hn. rewrite E, app_nil_r in Hn. lia. }
      destruct (fill_pending b (conj Hl He) Hr) as (Hp & Hi & Hb).
      assert (n <= length (buf (fill b)))%nat by (rewrite Hb, length_take; lia).
      exists (fill b). repeat split; auto; try apply Hi.
      destruct n; cbn [peekFill]; [reflexivity|].
      destruct (Nat.ltb_spec (length (buf (fill b))) (S n)); [lia | reflexivity].
    - exists b. auto. }
  destruct (Nat.ltb_spec defaultBufSize n); [lia|].
  destruct (Nat.ltb_spec (length (buf b')) n); [lia|].
  exists b'. repeat split; auto; try apply Hinv'.
  rewrite <- Hp. unfold pending. rewrite take_app_le by lia. reflexivity.
Qed.


(** ReadString hands out the pending bytes up to the delimiter. *)
Lemma IndexByte_none (s : list byte) (c : byte) :
  ~ In c s -> IndexByte s c = None.
Proof.
  induction s as [|x s IH]; intros Hn; [reflexivity|].
  cbn [IndexByte]. destruct (Byte.eqb x c) eqn:E.
  - apply Byte.byte_dec_bl in E. subst. exfalso. apply Hn. left. reflexivity.
  - rewrite IH; [reflexivity|]. intros Hin. apply Hn. right. exact Hin.
Qed.

Lemma IndexByte_found (s rest : list byte) (c : byte) :
  ~ In c s -> IndexByte (s ++ c :: rest) c = Some (length s).
Proof.
  induction s as [|x s IH]; intros Hn; cbn [IndexByte app length].
  - rewrite Byte.byte_dec_lb; reflexivity.
  - destruct (Byte.eqb x c) eqn:E.
    + apply Byte.byte_dec_bl in E. subst. exfalso. apply Hn. left. reflexivity.
    + rewrite IH; [reflexivity|]. intros Hin. apply Hn. right. exact Hin.
Qed.

Lemma not_In_take {A} (x : A) (l : list A) (n : nat) : ~ In x l -> ~ In x (take n l).
Proof.
  intros Hn Hin. apply Hn. rewrite <- (take_drop n l). apply in_or_app. left. exact Hin.
Qed.

Lemma not_In_drop {A} (x : A) (l : list A) (n : nat) : ~ In x l -> ~ In x (drop n l).
Proof.
  intros Hn Hin. apply Hn. rewrite <- (take_drop n l). apply in_or_app. right. exact Hin.
Qed.

Lemma readSliceLoop_nofill (fuel : nat) (delim : byte) (b : Reader) (s rest : list byte) :
  rinv b -> pending b = s ++ delim :: rest -> ~ In delim s ->
  (length s < length (buf b) \/ defaultBufSize <= length (buf b))%nat ->
  sliceResult delim s rest (readSliceLoop fuel delim b).
Proof.
  intros [Hlen Herr] Hp Hn Hcase. unfold sliceResult.
  destruct b as [bf r e]; unfold pending, rinv in *; cbn [buf rd rerr] in *; subst e.
  destruct (Nat.le_gt_cases (length bf) (length s)) as [Hle|Hgt].
  - (* the buffer is full and the delimiter is not in it *)
    assert (Hbf : bf = take (length bf) s).
    { apply (f_equal (take (length bf))) in Hp.
      rewrite take_app_length, take_app_le in Hp by lia. exact Hp. }
    destruct (Nat.ltb_spec (length s) defaultBufSize); [lia|].
    destruct fuel; cbn [readSliceLoop buf rd rerr];
      (rewrite IndexByte_none by (rewrite Hbf; apply not_In_take; exact Hn));
      (destruct (Nat.leb_spec defaultBufSize (length bf)); [|lia]);
      (exists (mkReader [] r None); unfold pending, rinv; cbn [buf rd rerr app length];
       replace defaultBufSize with (length bf) by lia;
       split; [rewrite <- Hbf; reflexivity|]; split; [|split; [lia|reflexivity]];
       apply (f_equal (drop (length bf))) in Hp;
       rewrite drop_app_length, drop_app_le in Hp by lia; exact Hp).
  - (* the delimiter is in the buffer *)
    assert (Hbf : bf = s ++ delim :: take (length bf - S (length s)) rest).
    { apply (f_equal (take (length bf))) in Hp.
      rewrite take_app_length, take_app_ge in Hp by lia.
      rewrite Hp at 1. f_equal.
      replace (length bf - length s)%nat with (S (length bf - S (length s))) by lia.
      reflexivity. }
    destruct (Nat.ltb_spec (length s) defaultBufSize); [|lia].
    assert (Hi : IndexByte bf delim = Some (length s)).
    { rewrite Hbf. apply IndexByte_found. exact Hn. }
    destruct fuel; cbn [readSliceLoop buf rd rerr]; rewrite Hi;
      (exists (mkReader (drop (S (length s)) bf) r None);
       unfold pending, rinv; cbn [buf rd rerr];
       split; [|split; [|split; [rewrite length_drop; lia | reflexivity]]];
       [ f_equal; f_equal; rewrite Hbf at 1;
         replace (s ++ delim :: take (length bf - S (length s)) rest)
           with ((s ++ [delim]) ++ take (length bf - S (length s)) rest)
           by (rewrite <- app_assoc; reflexivity);
         rewrite take_app_length' by (rewrite length_app; cbn [length]; lia); reflexivity
       | rewrite <- drop_app_le by lia; rewrite Hp;
         replace (s ++ delim :: rest) with ((s ++ [delim]) ++ rest)
           by (rewrite <- app_assoc; reflexivity);
         rewrite drop_app_length' by (rewrite length_app; cbn [length]; lia); reflexivity ]).
Qed.

Lemma ReadSlice_spec (delim : byte) (b : Reader) (s rest : list byte) :
  rinv b -> pending b = s ++ delim :: rest -> ~ In delim s ->
  sliceResult delim s rest (ReadSlice delim b).
Proof.
  intros Hinv Hp Hn. unfold ReadSlice.
  destruct (Nat.le_gt_cases (length (buf b)) (length s)) as [Hle|Hgt];
    [|apply readSliceLoop_nofill; auto].
  destruct (Nat.le_gt_cases defaultBufSize (length (buf b))) as [Hfull|Hroom];
    [apply readSliceLoop_nofill; auto|].
  (* neither: the buffer is filled once *)
  assert (Hbf : buf b = take (length (buf b)) s).
  { unfold pending in Hp. apply (f_equal (take (length (buf b)))) in Hp.
    rewrite take_app_length, take_app_le in Hp by lia. exact Hp. }
  assert (Hr : rd b <> []).
  { intros E. unfold pending in Hp. rewrite E, app_nil_r in Hp.
    apply (f_equal length) in Hp. rewrite length_app in Hp. cbn [length] in Hp. lia. }
  destruct (fill_pending b Hinv Hr) as (Hfp & Hfi & Hfb).
  cbn [readSliceLoop].
  rewrite IndexByte_none by (rewrite Hbf; apply not_In_take; exact Hn).
  destruct Hinv as [_ ->].
  destruct (Nat.leb_spec defaultBufSize (length (buf b))); [lia|].
  apply readSliceLoop_nofill; auto; [congruence|].
  rewrite Hfb, length_take, Hp, length_app. cbn [length]. lia.
Qed.

Lemma collectFragments_spec (delim : byte) (fuel : nat) :
  forall (s rest acc : list byte) (b : Reader),
    rinv b -> pending b = s ++ delim :: rest -> ~ In delim s -> (length s <= fuel)%nat ->
    exists b', collectFragments fuel delim acc b = (acc ++ s ++ [delim], None, b') /\
               pending b' = rest /\ rinv b'.
Proof.
  induction fuel as [|fuel IH]; intros s rest acc b Hinv Hp Hn Hf;
    pose proof (ReadSlice_spec delim b s rest Hinv Hp Hn) as Hs;
    unfold sliceResult in Hs; pose proof defaultBufSize_ge;
    destruct (Nat.ltb_spec (length s) defaultBufSize); try lia.
  - destruct Hs as (b' & Hs & Hp' & Hi'). cbn [collectFragments]. rewrite Hs. eauto.
  - destruct Hs as (b' & Hs & Hp' & Hi'). cbn [collectFragments]. rewrite Hs. eauto.
  - destruct Hs as (b' & Hs & Hp' & Hi'). cbn [collectFragments]. rewrite Hs.
    destruct (IH (drop defaultBufSize s) rest (acc ++ take defaultBufSize s) b' Hi' Hp')
      as (b'' & -> & Hp'' & Hi'').
    + apply not_In_drop. exact Hn.
    + rewrite length_drop. lia.
    + exists b''. split; [|auto]. f_equal. f_equal.
      rewrite <- !app_assoc. f_equal. rewrite (app_assoc (take _ _)), take_drop. reflexivity.
Qed.

Lemma ReadString_spec (delim : byte) (b : Reader) (s rest : list byte) :
  rinv b -> pending b = s ++ delim :: rest -> ~ In delim s ->
  exists b', ReadString delim b = (s ++ [delim], None, b') /\
             pending b' = rest /\ rinv b'.
Proof.
  intros Hinv Hp Hn. unfold ReadString.
  destruct (collectFragments_spec delim (length (pending b)) s rest [] b Hinv Hp Hn)
    as (b' & -> & H); [|eauto].
  rewrite Hp, length_app. lia.
Qed.

(** * Integers on the wire *)

Lemma length_le_of_int32 (v : Z) : length (le_of_int32 v) = 4%nat.
Proof. apply length_le_split. Qed.

Lemma length_le_of_int64 (v : Z) : length (le_of_int64 v) = 8%nat.
Proof. apply length_le_split. Qed.

Lemma int32_of_le_of_int32 (v : Z) : is_int32 v -> int32_of_le (le_of_int32 v) = v.
Proof.
  unfold is_int32, int32_of_le, le_of_int32, swrap. intros Hv.
  rewrite le_combine_split.
  change (2 ^ (Z.of_nat 4 * 8)) with 4294967296.
  change (2 ^ 32) with 4294967296. change (2 ^ (32 - 1)) with 2147483648.
  change (2 ^ 31) with 2147483648 in Hv.
  rewrite Zplus_mod_idemp_l.
  destruct (Z_lt_le_dec v 0).
  - replace (v + 2147483648) with ((v + 2147483648) + 0 * 4294967296) by lia.
    rewrite Z_mod_plus_full, Z.mod_small by lia. lia.
  - rewrite Z.mod_small by lia. lia.
Qed.

Lemma int64_of_le_of_int64 (v : Z) : is_int64 v -> int64_of_le (le_of_int64 v) = v.
Proof.
  unfold is_int64, int64_of_le, le_of_int64, swrap. intros Hv.
  rewrite le_combine_split.
  change (2 ^ (Z.of_nat 8 * 8)) with 18446744073709551616.
  change (2 ^ 64) with 18446744073709551616. change (2 ^ (64 - 1)) with 9223372036854775808.
  change (2 ^ 63) with 9223372036854775808 in Hv.
  rewrite Zplus_mod_idemp_l.
  rewrite Z.mod_small by lia. lia.
Qed.

(** * The monad *)

Lemma bind_try_ok {S A C} (f : S -> A * option error * S) (k : A -> M S C) s a s' :
  f s = (a, None, s') -> bind (try f) k s = k a s'.
Proof. intros H. unfold bind, try. rewrite H. reflexivity. Qed.

Lemma bind_ok {S A C} (m : M S A) (k : A -> M S C) s a s' :
  m s = (Ok a, s') -> bind m k s = k a s'.
Proof. intros H. unfold bind. rewrite H. reflexivity. Qed.

(** * Decoding one field *)

Section Fields.
Context `{B : Bson}.

Lemma readInt32s_one (b : Reader) (bs rest : list byte) :
  rinv b -> pending b = bs ++ rest -> length bs = 4%nat ->
  exists b', readInt32s 1 b = (Ok [int32_of_le bs], b') /\ pending b' = rest /\ rinv b'.
Proof.
  intros Hinv Hp Hl.
  destruct (ReadFull_Reader b 4 Hinv) as (b' & Hr & Hp' & Hinv').
  { rewrite Hp, length_app. lia. }
  exists b'. cbn [readInt32s]. unfold binaryRead.
  rewrite (bind_try_ok _ _ _ _ _ Hr). unfold bind, ret.
  rewrite Hp, take_app_length' by lia.
  rewrite Hp' , Hp, drop_app_length' by lia. auto.
Qed.

Lemma readInt64s_one (b : Reader) (bs rest : list byte) :
  rinv b -> pending b = bs ++ rest -> length bs = 8%nat ->
  exists b', readInt64s 1 b = (Ok [int64_of_le bs], b') /\ pending b' = rest /\ rinv b'.
Proof.
  intros Hinv Hp Hl.
  destruct (ReadFull_Reader b 8 Hinv) as (b' & Hr & Hp' & Hinv').
  { rewrite Hp, length_app. lia. }
  exists b'. cbn [readInt64s]. unfold binaryRead.
  rewrite (bind_try_ok _ _ _ _ _ Hr). unfold bind, ret.
  rewrite Hp, take_app_length' by lia.
  rewrite Hp' , Hp, drop_app_length' by lia. auto.
Qed.

Lemma readDoc_bytes (b : Reader) (bs rest : list byte) (d : D) :
  rinv b -> pending b = bs ++ rest -> (4 <= length bs)%nat ->
  int32_of_le (take 4 bs) = Z.of_nat (length bs) -> Unmarshal bs = inr d ->
  exists b', readDoc b = (Ok (d, Z.of_nat (length bs)), b') /\ pending b' = rest /\ rinv b'.
Proof.
  intros Hinv Hp Hl Hn Hu. unfold readDoc.
  destruct (Peek_Reader b 4 Hinv) as (b1 & Hk & Hp1 & Hinv1).
  { rewrite Hp, length_app. lia. }
  { apply defaultBufSize_ge. }
  rewrite (bind_try_ok _ _ _ _ _ Hk).
  rewrite Hp, take_app_le, Hn by lia.
  destruct (Z.ltb_spec (Z.of_nat (length bs)) 0); [lia|].
  rewrite Nat2Z.id.
  destruct (ReadFull_Reader b1 (length bs) Hinv1) as (b' & Hr & Hp' & Hinv').
  { rewrite Hp1, Hp, length_app. lia. }
  rewrite (bind_try_ok _ _ _ _ _ Hr).
  rewrite Hp1, Hp, take_app_length, Hu.
  exists b'. unfold ret. rewrite Hp', Hp1, Hp, drop_app_length. auto.
Qed.

Lemma readDoc_good (b : Reader) (rest : list byte) (d : D) :
  rinv b -> pending b = docBytes d ++ rest -> goodDoc d ->
  exists b', readDoc b = (Ok (d, Z.of_nat (length (docBytes d))), b') /\
             pending b' = rest /\ rinv b'.
Proof.
  intros Hinv Hp (_ & bs & Hm & Hu & Hl & Hn). unfold docBytes in *. rewrite Hm in *.
  apply readDoc_bytes; auto.
Qed.

Lemma goodDoc_length (d : D) : goodDoc d -> (4 <= length (docBytes d))%nat.
Proof. intros (_ & bs & Hm & _ & Hl & _). unfold docBytes. rewrite Hm. exact Hl. Qed.

(** * Decoding the elements of a slice *)

Lemma readDocs_spec (h : MsgHeader) (rest : list byte) (ds : list D) :
  forall (fuel : nat) (bytesRead : Z) (acc : list D) (b : Reader),
    ds <> [] -> Forall goodDoc ds -> rinv b ->
    pending b = concat (map docBytes ds) ++ rest ->
    MessageLength h = bytesRead + Z.of_nat (length (concat (map docBytes ds))) ->
    (length ds <= fuel)%nat ->
    exists b', readDocs fuel h bytesRead acc b = (Ok (acc ++ ds, MessageLength h), b') /\
               pending b' = rest /\ rinv b'.
Proof.
  induction ds as [|d ds IH]; intros fuel bytesRead acc b Hne Hg Hinv Hp HL Hf; [congruence|].
  destruct fuel as [|fuel]; [cbn [length] in Hf; lia|].
  apply Forall_cons in Hg as [Hd Hg].
  cbn [map concat] in Hp, HL. rewrite <- app_assoc in Hp. rewrite length_app in HL.
  destruct (readDoc_good b _ d Hinv Hp Hd) as (b1 & Hr & Hp1 & Hinv1).
  cbn [readDocs]. rewrite (bind_ok _ _ _ _ _ Hr). cbn [fst snd].
  destruct ds as [|d' ds].
  - cbn [map concat length] in *. rewrite app_nil_l in Hp1.
    destruct (Z.eqb_spec (bytesRead + Z.of_nat (length (docBytes d))) (MessageLength h)); [|lia].
    exists b1. unfold ret. rewrite e. auto.
  - pose proof (goodDoc_length d' (Forall_inv Hg)) as Hd'.
    destruct (Z.eqb_spec (bytesRead + Z.of_nat (length (docBytes d))) (MessageLength h)) as [E|_].
    { cbn [map concat] in HL. rewrite length_app in HL. lia. }
    destruct (IH fuel (bytesRead + Z.of_nat (length (docBytes d))) (acc ++ [d]) b1)
      as (b' & -> & Hp' & Hinv'); auto; try congruence; try lia.
    { cbn [length] in Hf |- *. lia. }
    exists b'. rewrite <- app_assoc. auto.
Qed.

Lemma readIds_spec (h : MsgHeader) (rest : list byte) (ids : list Z) :
  forall (fuel : nat) (bytesRead : Z) (acc : list Z) (b : Reader),
    ids <> [] -> Forall is_int64 ids -> rinv b ->
    pending b = concat (map le_of_int64 ids) ++ rest ->
    MessageLength h = bytesRead + Z.of_nat (length (concat (map le_of_int64 ids))) ->
    (length ids <= fuel)%nat ->
    exists b', readIds fuel h bytesRead acc b = (Ok (acc ++ ids, MessageLength h), b') /\
               pending b' = rest /\ rinv b'.
Proof.
  induction ids as [|x ids IH]; intros fuel bytesRead acc b Hne Hg Hinv Hp HL Hf; [congruence|].
  destruct fuel as [|fuel]; [cbn [length] in Hf; lia|].
  apply Forall_cons in Hg as [Hx Hg].
  cbn [map concat] in Hp, HL. rewrite <- app_assoc in Hp.
  rewrite length_app, length_le_of_int64 in HL.
  destruct (readInt64s_one b _ _ Hinv Hp (length_le_of_int64 x)) as (b1 & Hr & Hp1 & Hinv1).
  rewrite int64_of_le_of_int64 in Hr by assumption.
  cbn [readIds]. rewrite (bind_ok _ _ _ _ _ Hr).
  destruct ids as [|x' ids].
  - cbn [map concat length] in *. rewrite app_nil_l in Hp1.
    destruct (Z.eqb_spec (bytesRead + 8) (MessageLength h)); [|lia].
    exists b1. unfold ret. rewrite e. auto.
  - destruct (Z.eqb_spec (bytesRead + 8) (MessageLength h)) as [E|_].
    { cbn [map concat] in HL. rewrite length_app, length_le_of_int64 in HL. lia. }
    destruct (IH fuel (bytesRead + 8) (acc ++ [x]) b1)
      as (b' & -> & Hp' & Hinv'); auto; try congruence; try lia.
    { cbn [length] in Hf |- *. lia. }
    exists b'. rewrite <- app_assoc. auto.
Qed.

(** * Decoding the fields of a frame *)

Lemma isAbsent_spec (f : FieldVal) :
  isAbsent f = true -> wire f = [] /\ zeroValue (typeOf f) = f.
Proof.
  destruct f as [| | | |d|ds|ids]; cbn [isAbsent]; try discriminate;
    [destruct d | destruct ds | destruct ids]; try discriminate; auto.
Qed.

Lemma forallb_isAbsent (fs : list FieldVal) :
  forallb isAbsent fs = true ->
  bodyBytes fs = [] /\ map (fun f => zeroValue (typeOf f)) fs = fs /\ layoutOK fs = true.
Proof.
  induction fs as [|f fs IH]; cbn [forallb]; [auto|].
  intros [Hf Hfs]%andb_prop. destruct (IH Hfs) as (Hb & Hz & Hl).
  destruct (isAbsent_spec f Hf) as [Hw Hzf].
  unfold bodyBytes in *. cbn [map concat layoutOK]. rewrite Hw, Hb, Hz, Hzf, Hf.
  auto.
Qed.

Lemma docs_length (ds : list D) :
  Forall goodDoc ds -> (length ds <= length (concat (map docBytes ds)))%nat.
Proof.
  induction 1 as [|d ds Hd _ IH]; cbn [map concat length]; [lia|].
  rewrite length_app. pose proof (goodDoc_length d Hd). lia.
Qed.

Lemma ids_length (ids : list Z) :
  (length ids <= length (concat (map le_of_int64 ids)))%nat.
Proof.
  induction ids as [|x ids IH]; cbn [map concat length]; [lia|].
  rewrite length_app, length_le_of_int64. lia.
Qed.

Lemma valid_wire_nil (f : FieldVal) :
  validField f -> wire f = [] -> isAbsent f = true.
Proof.
  destruct f as [h|n|n|s|d|ds|ids]; cbn [validField wire isAbsent]; intros Hv Hw.
  - contradiction.
  - apply (f_equal length) in Hw. rewrite length_le_of_int32 in Hw. discriminate.
  - apply (f_equal length) in Hw. rewrite length_le_of_int64 in Hw. discriminate.
  - destruct s; discriminate.
  - destruct d as [|x d]; [reflexivity|]. destruct Hv as [Hv|Hv]; [discriminate|].
    pose proof (goodDoc_length _ Hv) as Hl. rewrite Hw in Hl. cbn in Hl. lia.
  - destruct ds as [|d ds]; [reflexivity|]. pose proof (docs_length _ Hv) as Hl.
    rewrite Hw in Hl. cbn in Hl. lia.
  - destruct ids as [|x ids]; [reflexivity|]. pose proof (ids_length (x :: ids)) as Hl.
    rewrite Hw in Hl. cbn in Hl. lia.
Qed.

Lemma bodyBytes_nil_absent (fs : list FieldVal) :
  Forall validField fs -> bodyBytes fs = [] -> forallb isAbsent fs = true.
Proof.
  induction 1 as [|f fs Hf _ IH]; [reflexivity|].
  unfold bodyBytes. cbn [map concat forallb]. intros [Hw Hb]%app_eq_nil.
  rewrite (valid_wire_nil f Hf Hw). apply IH. exact Hb.
Qed.

Lemma set_field_take (v : list FieldVal) (i : nat) (f : FieldVal) (fs : list FieldVal) :
  (i < length v)%nat -> take (S i) (<[i := f]> v) ++ fs = take i v ++ f :: fs.
Proof.
  intros Hi. rewrite (take_S_r _ _ f) by (apply list_lookup_insert_eq; exact Hi).
  rewrite take_insert_ge by lia. rewrite <- app_assoc. reflexivity.
Qed.

(** One round of the loop on a field that is there and is not a slice. *)
Lemma readFields_step (fuel : nat) (h : MsgHeader) (f : FieldVal) (ts : list FieldType)
    (i : nat) (bytesRead : Z) (v : list FieldVal) (b : Reader) (rest : list byte) :
  validField f -> isAbsent f = false -> isSlice f = false -> rinv b ->
  pending b = wire f ++ rest -> bytesRead < MessageLength h ->
  exists b', readFields fuel h (typeOf f :: ts) i bytesRead v b
             = readFields fuel h ts (S i) (bytesRead + Z.of_nat (length (wire f)))
                 (<[i := f]> v) b' /\
             pending b' = rest /\ rinv b'.
Proof.
  intros Hf Hpres Hns Hinv Hp Hlt. cbn [readFields].
  destruct (Z.eqb_spec bytesRead (MessageLength h)) as [?|_]; [lia|].
  destruct (Z.gtb_spec bytesRead (MessageLength h)) as [?|_]; [lia|].
  destruct f as [hh|n|n|s|d|ds|ids]; cbn [typeOf validField wire isAbsent isSlice] in *;
    try discriminate; try contradiction.
  - destruct (readInt32s_one b _ _ Hinv Hp (length_le_of_int32 n)) as (b1 & Hr & Hp1 & Hinv1).
    rewrite int32_of_le_of_int32 in Hr by assumption.
    rewrite (bind_ok _ _ _ _ _ Hr), length_le_of_int32. cbn [hd]. eauto.
  - destruct (readInt64s_one b _ _ Hinv Hp (length_le_of_int64 n)) as (b1 & Hr & Hp1 & Hinv1).
    rewrite int64_of_le_of_int64 in Hr by assumption.
    rewrite (bind_ok _ _ _ _ _ Hr), length_le_of_int64. cbn [hd]. eauto.
  - rewrite <- app_assoc in Hp. cbn [app] in Hp.
    destruct (ReadString_spec Byte.x00 b s _ Hinv Hp Hf) as (b1 & Hr & Hp1 & Hinv1).
    rewrite (bind_try_ok _ _ _ _ _ Hr).
    rewrite length_app. cbn [length].
    replace (length s + 1 - 1)%nat with (length s) by lia.
    rewrite take_app_length. eauto.
  - destruct d as [|x d]; [discriminate|].
    destruct Hf as [Hf|Hf]; [discriminate|].
    destruct (readDoc_good b _ _ Hinv Hp Hf) as (b1 & Hr & Hp1 & Hinv1).
    rewrite (bind_ok _ _ _ _ _ Hr). cbn [fst snd]. eauto.
Qed.

Lemma readFields_body (h : MsgHeader) (rest : list byte) (fuel : nat) (fs : list FieldVal) :
  forall (i : nat) (bytesRead : Z) (v : list FieldVal) (b : Reader),
    Forall validField fs -> layoutOK fs = true -> rinv b ->
    pending b = bodyBytes fs ++ rest ->
    MessageLength h = bytesRead + Z.of_nat (length (bodyBytes fs)) ->
    length v = (i + length fs)%nat ->
    drop i v = map (fun f => zeroValue (typeOf f)) fs ->
    (length (bodyBytes fs) < fuel)%nat ->
    exists b', readFields fuel h (map typeOf fs) i bytesRead v b = (Ok (take i v ++ fs), b') /\
               pending b' = rest /\ rinv b'.
Proof.
  induction fs as [|f fs IH]; intros i bytesRead v b Hv Hlay Hinv Hp HL Hlen Hz Hfuel.
  - exists b. cbn [map readFields]. unfold ret.
    rewrite app_nil_r, take_ge by (cbn [length] in Hlen; lia). auto.
  - destruct (Z.eq_dec bytesRead (MessageLength h)) as [E|NE].
    { (* nothing is left of the frame: the fields keep their zero value *)
      cbn [map readFields]. rewrite (proj2 (Z.eqb_eq _ _) E).
      assert (Hb : bodyBytes (f :: fs) = []) by (apply nil_length_inv; lia).
      apply bodyBytes_nil_absent in Hb as Ha; [|exact Hv].
      destruct (forallb_isAbsent _ Ha) as (_ & Hzero & _).
      exists b. unfold ret. rewrite <- Hzero, <- Hz, take_drop.
      rewrite Hp, Hb. auto. }
    apply Forall_cons in Hv as [Hf Hv].
    assert (Hpres : isAbsent f = false).
    { destruct (isAbsent f) eqn:Ea; [|reflexivity]. exfalso.
      cbn [layoutOK] in Hlay. rewrite Ea in Hlay. cbn [orb] in Hlay.
      destruct (forallb_isAbsent _ Hlay) as (Hb & _). destruct (isAbsent_spec f Ea) as [Hw _].
      unfold bodyBytes in *. cbn [map concat] in HL. rewrite Hw, Hb in HL. cbn in HL. lia. }
    assert (Hlay' : layoutOK fs = true).
    { cbn [layoutOK] in Hlay. rewrite Hpres in Hlay. cbn [orb] in Hlay.
      destruct (isSlice f); [apply forallb_isAbsent; exact Hlay | exact Hlay]. }
    unfold bodyBytes in Hp, HL, Hfuel. cbn [map concat] in Hp, HL, Hfuel.
    fold (bodyBytes fs) in Hp, HL, Hfuel.
    rewrite <- app_assoc in Hp. rewrite length_app in HL, Hfuel.
    cbn [length] in Hlen. cbn [map] in Hz.
    assert (Hnext : forall b1,
      pending b1 = bodyBytes fs ++ rest -> rinv b1 ->
      exists b', readFields fuel h (map typeOf fs) (S i)
                   (bytesRead + Z.of_nat (length (wire f))) (<[i := f]> v) b1
                 = (Ok (take i v ++ f :: fs), b') /\ pending b' = rest /\ rinv b').
    { intros b1 Hp1 Hinv1.
      rewrite <- set_field_take by lia.
      apply IH; auto; try lia.
      - rewrite length_insert. lia.
      - rewrite drop_insert_lt by lia.
        apply (f_equal (drop 1)) in Hz. rewrite drop_drop in Hz.
        replace (i + 1)%nat with (S i) in Hz by lia. exact Hz. }
    destruct (isSlice f) eqn:Es.
    + (* a slice: its elements are read up to the end of the frame *)
      assert (Hb : bodyBytes fs = []).
      { cbn [layoutOK] in Hlay. rewrite Hpres, Es in Hlay. cbn [orb] in Hlay.
        apply forallb_isAbsent. exact Hlay. }
      rewrite Hb in *. cbn [length app] in Hp, HL, Hfuel. rewrite Nat.add_0_r in HL, Hfuel.
      cbn [map readFields]. rewrite (proj2 (Z.eqb_neq _ _) NE).
      destruct (Z.gtb_spec bytesRead (MessageLength h)) as [?|_]; [lia|].
      destruct f as [hh|n|n|s|d|ds|ids]; cbn [typeOf validField wire isAbsent isSlice] in *;
        try discriminate.
      * destruct ds as [|d ds]; [discriminate|].
        pose proof (docs_length _ Hf) as Hdl.
        assert (Hne : d :: ds <> []) by congruence.
        assert (Hfl : (length (d :: ds) <= fuel)%nat) by lia.
        destruct (readDocs_spec h rest (d :: ds) fuel bytesRead [] b Hne Hf Hinv Hp HL Hfl)
          as (b1 & Hr & Hp1 & Hinv1).
        rewrite (bind_ok _ _ _ _ _ Hr). cbn [fst snd app]. rewrite HL.
        apply Hnext; auto.
      * destruct ids as [|x ids]; [discriminate|].
        pose proof (ids_length (x :: ids)) as Hdl.
        assert (Hne : x :: ids <> []) by congruence.
        assert (Hfl : (length (x :: ids) <= fuel)%nat) by lia.
        destruct (readIds_spec h rest (x :: ids) fuel bytesRead [] b Hne Hf Hinv Hp HL Hfl)
          as (b1 & Hr & Hp1 & Hinv1).
        rewrite (bind_ok _ _ _ _ _ Hr). cbn [fst snd app]. rewrite HL.
        apply Hnext; auto.
    + destruct (readFields_step fuel h f (map typeOf fs) i bytesRead v b _
                  Hf Hpres Es Hinv Hp) as (b1 & Hr & Hp1 & Hinv1); [lia|].
      cbn [map]. rewrite Hr. apply Hnext; auto.
Qed.

End Fields.

Section Decode.
Context `{B : Bson}.

Lemma length_headerBytes (h : MsgHeader) : length (headerBytes h) = 16%nat.
Proof. unfold headerBytes. rewrite !length_app, !length_le_of_int32. reflexivity. Qed.

Lemma readMsgHeader_Stream (h : MsgHeader) (r : Stream) :
  is_int32 (MessageLength h) -> is_int32 (RequestID h) ->
  is_int32 (ResponseTo h) -> is_int32 (Opcode h) ->
  readMsgHeader (headerBytes h ++ r) = (Ok h, r).
Proof.
  intros H1 H2 H3 H4. unfold readMsgHeader, binaryRead.
  erewrite bind_try_ok; cycle 1.
  { apply ReadFull_Stream. rewrite length_app, length_headerBytes. lia. }
  rewrite (take_app_length' (headerBytes h) r 16) by (symmetry; apply length_headerBytes).
  rewrite (drop_app_length' (headerBytes h) r 16) by (symmetry; apply length_headerBytes).
  unfold ret, headerBytes.
  set (a := le_of_int32 (MessageLength h)). set (b := le_of_int32 (RequestID h)).
  set (c := le_of_int32 (ResponseTo h)). set (d := le_of_int32 (Opcode h)).
  assert (La : 4%nat = length a) by (symmetry; apply length_le_of_int32).
  assert (Lb : 4%nat = length b) by (symmetry; apply length_le_of_int32).
  assert (Lc : 4%nat = length c) by (symmetry; apply length_le_of_int32).
  assert (Ld : 4%nat = length d) by (symmetry; apply length_le_of_int32).
  rewrite (take_app_length' a _ 4 La).
  rewrite (drop_app_length' a _ 4 La), (take_app_length' b _ 4 Lb).
  replace (drop 8 (a ++ b ++ c ++ d)) with (c ++ d).
  2:{ change 8%nat with (4 + 4)%nat. rewrite <- drop_drop.
      rewrite (drop_app_length' a _ 4 La), (drop_app_length' b _ 4 Lb). reflexivity. }
  replace (drop 12 (a ++ b ++ c ++ d)) with d.
  2:{ change 12%nat with (4 + (4 + 4))%nat. rewrite <- !drop_drop.
      rewrite (drop_app_length' a _ 4 La), (drop_app_length' b _ 4 Lb),
        (drop_app_length' c _ 4 Lc). reflexivity. }
  rewrite (take_app_length' c _ 4 Lc), (take_ge d) by lia.
  subst a b c d.
  rewrite !int32_of_le_of_int32 by assumption.
  destruct h; reflexivity.
Qed.

Lemma is_int32_GetOp (m : RequestMsg) : is_int32 (GetOp m).
Proof. unfold GetOp, is_int32. destruct (structType m); cbv; intuition discriminate. Qed.

Lemma newReq_GetOp (m : RequestMsg) (h : MsgHeader) :
  Opcode h = GetOp m -> newReq h = Some (structLit (structType m) h).
Proof.
  unfold newReq, GetOp. intros ->. destruct (structType m); reflexivity.
Qed.

(** Decoding the frame of a valid message gives the message back. *)
Theorem ReadRequest_frame (m : RequestMsg) (h : MsgHeader) (body : list FieldVal)
    (rest : list byte) :
  validMsg m h body ->
  exists r', ReadRequest (headerBytes h ++ bodyBytes body ++ rest) = (Ok m, r').
Proof.
  intros [Hf Ht Hop [Hid Hrt] Hv Hlay HL Hsz].
  unfold ReadRequest.
  rewrite readMsgHeader_Stream; auto; [|rewrite Hop; apply is_int32_GetOp].
  rewrite (newReq_GetOp m h Hop).
  unfold wellTyped in Ht. rewrite Hf in Ht. cbn [map typeOf] in Ht.
  unfold structLit. cbn [structType fields]. rewrite <- Ht. cbn [tail readFields].
  unfold HEADER_SIZE in *.
  assert (Hm : m = mkReq (structType m) (VHeader h :: body)).
  { destruct m as [t fs0]; cbn [fields structType] in *. congruence. }
  destruct (Z.eqb_spec 16 (MessageLength h)) as [E|NE].
  - assert (Hb : bodyBytes body = []) by (apply nil_length_inv; lia).
    apply bodyBytes_nil_absent in Hb as Ha; [|exact Hv].
    destruct (forallb_isAbsent _ Ha) as (_ & Hzero & _).
    unfold ret. rewrite map_map, Hzero. eexists. rewrite <- Hm. reflexivity.
  - destruct (Z.gtb_spec 16 (MessageLength h)); [lia|].
    destruct (readFields_body h rest (S (length (bodyBytes body ++ rest))) body 1 16
                (VHeader h :: map zeroValue (map typeOf body)) (NewReader (bodyBytes body ++ rest)))
      as (b' & Hr & _); auto.
    + apply rinv_NewReader.
    + cbn [length]. rewrite !length_map. reflexivity.
    + cbn [drop]. rewrite drop_0, map_map. reflexivity.
    + rewrite length_app. lia.
    + rewrite Hr. cbn [take app]. rewrite take_0. cbn [app].
      eexists. rewrite <- Hm. reflexivity.
Qed.

End Decode.

(** * Facts about the buffered writer *)

Lemma Flush_ok (w : Writer) :
  winv w ->
  exists w', Flush w = (None, w') /\ winv w' /\ written w' = written w /\ wbuf w' = [].
Proof.
  intros (Hl & He & Hb). destruct w as [bf [out br] e]; cbn [wbuf wr werr broken] in *; subst.
  unfold Flush; cbn [wbuf wr werr].
  destruct bf as [|x bf].
  - eexists; repeat split; cbn [wbuf wr werr broken]; auto.
  - unfold Write, Sink_Write; cbn [broken sent].
    rewrite Nat.ltb_irrefl. cbn [andb].
    exists (mkWriter [] (mkSink (out ++ x :: bf) false) None).
    unfold winv, written; cbn [wbuf wr werr broken sent length].
    rewrite app_nil_r. repeat split; auto; lia.
Qed.

(** What the loops of Write and WriteString leave: the part of [p] still to
    be copied fits the buffer. *)
Lemma writeLoop_empty (fuel : nat) (p : list byte) (w : Writer) :
  winv w -> wbuf w = [] -> (0 < fuel)%nat ->
  exists p' w', writeLoop fuel p w = (p', w') /\ winv w' /\
                written w' ++ p' = written w ++ p /\
                (length (wbuf w') + length p' <= defaultBufSize)%nat.
Proof.
  intros (Hl & He & Hb) Hbuf Hfuel.
  destruct w as [bf [out br] e]; cbn [wbuf wr werr broken] in *; subst.
  destruct fuel as [|fuel]; [lia|]. cbn [writeLoop].
  unfold Available; cbn [wbuf wr werr length isNil]. rewrite Nat.sub_0_r, andb_true_r.
  destruct (Nat.ltb_spec defaultBufSize (length p)).
  - unfold Write, Sink_Write; cbn [broken sent].
    rewrite drop_all.
    exists [], (mkWriter [] (mkSink (out ++ p) false) None).
    split.
    { destruct fuel; cbn [writeLoop]; unfold Available; cbn [wbuf wr werr length isNil];
        destruct (Nat.ltb_spec (defaultBufSize - 0) 0); try lia; reflexivity. }
    unfold winv, written; cbn [wbuf wr werr broken sent length].
    rewrite !app_nil_r. repeat split; auto; lia.
  - exists p, (mkWriter [] (mkSink out false) None).
    unfold winv, written; cbn [wbuf wr werr broken sent length].
    repeat split; auto; lia.
Qed.

Lemma Writer_Write_ok (p : list byte) (w : Writer) :
  winv w ->
  exists w', Writer_Write p w = (None, w') /\ winv w' /\ written w' = written w ++ p.
Proof.
  intros Hinv. unfold Writer_Write.
  assert (exists p' w', writeLoop (S (length p)) p w = (p', w') /\ winv w' /\
            written w' ++ p' = written w ++ p /\
            (length (wbuf w') + length p' <= defaultBufSize)%nat)
    as (p' & w' & -> & (Hl' & He' & Hb') & Hw & Hfit).
  { destruct (wbuf w) as [|x bf] eqn:Ebuf; [apply writeLoop_empty; auto; lia|].
    cbn [writeLoop]. destruct Hinv as (Hl & He & Hb). rewrite He. cbn [isNil]. rewrite andb_true_r.
    destruct (Nat.ltb_spec (Available w) (length p)) as [Hlt|Hge].
    - rewrite Ebuf.
      destruct (Flush_ok (mkWriter (wbuf w ++ take (Available w) p) (wr w) None))
        as (w1 & Hf & Hinv1 & Hw1 & Hb1).
      { unfold winv, Available in *; cbn [wbuf wr werr].
        rewrite length_app, length_take. repeat split; auto; lia. }
      rewrite <- Ebuf, Hf.
      destruct (writeLoop_empty (length p) (drop (Available w) p) w1 Hinv1 Hb1)
        as (p' & w' & -> & Hinv' & Hw' & Hfit); [lia|].
      exists p', w'. repeat split; auto; try apply Hinv'.
      rewrite Hw', Hw1. unfold written; cbn [wbuf wr].
      rewrite <- !app_assoc, take_drop. reflexivity.
    - exists p, w. unfold winv, Available in *. repeat split; auto. lia. }
  rewrite He'. eexists. split; [reflexivity|].
  unfold winv, written in *; cbn [wbuf wr werr].
  rewrite length_app. repeat split; auto; try lia. rewrite app_assoc. exact Hw.
Qed.

Lemma writeStringLoop_empty (fuel : nat) :
  forall (s : list byte) (w : Writer),
    winv w -> wbuf w = [] -> (length s <= fuel)%nat ->
    exists s' w', writeStringLoop fuel s w = (s', w') /\ winv w' /\
                  written w' ++ s' = written w ++ s /\
                  (length (wbuf w') + length s' <= defaultBufSize)%nat.
Proof.
  induction fuel as [|fuel IH]; intros s w Hinv Hbuf Hf;
    pose proof defaultBufSize_ge; pose proof Hinv as (Hl & He & Hb).
  - cbn [writeStringLoop]. unfold Available. rewrite Hbuf. cbn [length].
    destruct (Nat.ltb_spec (defaultBufSize - 0) (length s)); [lia|]. cbn [andb].
    exists s, w. rewrite Hbuf. cbn [length]. repeat split; auto; lia.
  - cbn [writeStringLoop]. rewrite He. cbn [isNil]. rewrite andb_true_r.
    unfold Available. rewrite Hbuf. cbn [length app]. rewrite Nat.sub_0_r.
    destruct (Nat.ltb_spec defaultBufSize (length s)).
    + destruct (Flush_ok (mkWriter (take defaultBufSize s) (wr w) None))
        as (w1 & Hfl & Hinv1 & Hw1 & Hb1).
      { unfold winv; cbn [wbuf wr werr]. rewrite length_take. repeat split; auto; lia. }
      rewrite Hfl.
      destruct (IH (drop defaultBufSize s) w1 Hinv1 Hb1) as (s' & w' & -> & Hinv' & Hw' & Hfit).
      { rewrite length_drop. lia. }
      exists s', w'. repeat split; auto; try apply Hinv'.
      rewrite Hw', Hw1. unfold written; cbn [wbuf wr]. rewrite Hbuf, app_nil_r.
      rewrite <- !app_assoc, take_drop. reflexivity.
    + exists s, w. rewrite Hbuf. cbn [length]. repeat split; auto; lia.
Qed.

Lemma WriteString_ok (s : list byte) (w : Writer) :
  winv w ->
  exists w', WriteString s w = (None, w') /\ winv w' /\ written w' = written w ++ s.
Proof.
  intros Hinv. unfold WriteString.
  assert (exists s' w', writeStringLoop (S (length s)) s w = (s', w') /\ winv w' /\
            written w' ++ s' = written w ++ s /\
            (length (wbuf w') + length s' <= defaultBufSize)%nat)
    as (s' & w' & -> & (Hl' & He' & Hb') & Hw & Hfit).
  { cbn [writeStringLoop]. destruct Hinv as (Hl & He & Hb). rewrite He. cbn [isNil].
    rewrite andb_true_r.
    destruct (Nat.ltb_spec (Available w) (length s)) as [Hlt|Hge].
    - destruct (Flush_ok (mkWriter (wbuf w ++ take (Available w) s) (wr w) None))
        as (w1 & Hf & Hinv1 & Hw1 & Hb1).
      { unfold winv, Available in *; cbn [wbuf wr werr].
        rewrite length_app, length_take. repeat split; auto; lia. }
      rewrite Hf.
      destruct (writeStringLoop_empty (length s) (drop (Available w) s) w1 Hinv1 Hb1)
        as (s' & w' & -> & Hinv' & Hw' & Hfit); [rewrite length_drop; lia|].
      exists s', w'. repeat split; auto; try apply Hinv'.
      rewrite Hw', Hw1. unfold written; cbn [wbuf wr].
      rewrite <- !app_assoc, take_drop. reflexivity.
    - exists s, w. unfold winv, Available in *. repeat split; auto. lia. }
  rewrite He'. eexists. split; [reflexivity|].
  unfold winv, written in *; cbn [wbuf wr werr].
  rewrite length_app. repeat split; auto; try lia. rewrite app_assoc. exact Hw.
Qed.

Lemma WriteByte_ok (c : byte) (w : Writer) :
  winv w ->
  exists w', WriteByte c w = (None, w') /\ winv w' /\ written w' = written w ++ [c].
Proof.
  intros Hinv. pose proof Hinv as (Hl & He & Hb). pose proof defaultBufSize_ge.
  unfold WriteByte. rewrite He.
  destruct (Nat.leb_spec (Available w) 0) as [Hfull|Hroom].
  - destruct (Flush_ok w Hinv) as (w1 & -> & (Hl1 & He1 & Hb1) & Hw1 & Hbuf1).
    eexists. split; [reflexivity|].
    unfold winv, written in *; cbn [wbuf wr werr]. rewrite Hbuf1. cbn [app length].
    repeat split; auto; try lia. rewrite Hbuf1, app_nil_r in Hw1. rewrite Hw1. reflexivity.
  - eexists. split; [reflexivity|].
    unfold winv, written, Available in *; cbn [wbuf wr werr]. rewrite length_app. cbn [length].
    repeat split; auto; try lia. rewrite app_assoc. reflexivity.
Qed.

(** * Encoding *)

Section Encode.
Context `{B : Bson}.

Lemma writeBson_good (d : D) (w : Writer) :
  winv w -> goodDoc d ->
  exists w', writeBson d w = (None, w') /\ winv w' /\ written w' = written w ++ docBytes d.
Proof.
  intros Hinv (Hne & bs & Hm & _). unfold writeBson, docBytes. rewrite Hm.
  destruct d; [congruence|]. cbn [length]. cbn [Nat.ltb Nat.leb].
  apply Writer_Write_ok. exact Hinv.
Qed.

Lemma writeDocs_good (ds : list D) :
  forall (w : Writer),
    winv w -> Forall goodDoc ds ->
    exists w', writeDocs ds None w = (None, w') /\ winv w' /\
               written w' = written w ++ concat (map docBytes ds).
Proof.
  induction ds as [|d ds IH]; intros w Hinv Hg; cbn [writeDocs map concat].
  - exists w. rewrite app_nil_r. auto.
  - apply Forall_cons in Hg as [Hd Hg].
    destruct (writeBson_good d w Hinv Hd) as (w1 & -> & Hinv1 & Hw1).
    destruct (IH w1 Hinv1 Hg) as (w' & -> & Hinv' & Hw').
    exists w'. rewrite Hw', Hw1, <- app_assoc. auto.
Qed.

Lemma writeIds_good (ids : list Z) :
  forall (w : Writer),
    winv w ->
    exists w', writeIds ids None w = (None, w') /\ winv w' /\
               written w' = written w ++ concat (map le_of_int64 ids).
Proof.
  induction ids as [|x ids IH]; intros w Hinv; cbn [writeIds map concat].
  - exists w. rewrite app_nil_r. auto.
  - unfold binaryWrite.
    destruct (Writer_Write_ok (le_of_int64 x) w Hinv) as (w1 & -> & Hinv1 & Hw1).
    destruct (IH w1 Hinv1) as (w' & -> & Hinv' & Hw').
    exists w'. rewrite Hw', Hw1, <- app_assoc. auto.
Qed.

Lemma writeField_ok (f : FieldVal) (w : Writer) :
  winv w -> (validField f \/ exists h, f = VHeader h) ->
  exists w', writeField f None w = (None, w') /\ winv w' /\ written w' = written w ++ wire f.
Proof.
  intros Hinv Hv.
  destruct f as [h|n|n|s|d|ds|ids]; cbn [writeField wire validField] in *; unfold binaryWrite.
  - apply Writer_Write_ok; auto.
  - apply Writer_Write_ok; auto.
  - apply Writer_Write_ok; auto.
  - destruct (WriteString_ok s w Hinv) as (w1 & -> & Hinv1 & Hw1).
    destruct (WriteByte_ok Byte.x00 w1 Hinv1) as (w' & -> & Hinv' & Hw').
    exists w'. rewrite Hw', Hw1, <- app_assoc. auto.
  - destruct Hv as [[Hv|Hv]|(h & Hh)]; [| |discriminate].
    + subst d. exists w. unfold writeBson. cbn. rewrite app_nil_r. auto.
    + destruct (writeBson_good d w Hinv Hv) as (w' & Hr & Hinv' & Hw').
      exists w'. destruct d; [destruct Hv; congruence|]. auto.
  - destruct Hv as [Hv|(h & Hh)]; [|discriminate]. apply writeDocs_good; auto.
  - apply writeIds_good; auto.
Qed.

Lemma writeFields_ok (fs : list FieldVal) :
  forall (w : Writer),
    winv w -> Forall (fun f => validField f \/ exists h, f = VHeader h) fs ->
    exists w', writeFields fs None w = (None, w') /\ winv w' /\
               written w' = written w ++ bodyBytes fs.
Proof.
  induction fs as [|f fs IH]; intros w Hinv Hv; unfold bodyBytes; cbn [writeFields map concat].
  - exists w. rewrite app_nil_r. auto.
  - apply Forall_cons in Hv as [Hf Hv].
    destruct (writeField_ok f w Hinv Hf) as (w1 & -> & Hinv1 & Hw1).
    destruct (IH w1 Hinv1 Hv) as (w' & -> & Hinv' & Hw').
    exists w'. rewrite Hw', Hw1, <- app_assoc. auto.
Qed.

(** Encoding a message writes its header and its fields, one after the
    other, whatever the header says. *)
Theorem WriteRequest_frame (m : RequestMsg) (h : MsgHeader) (body : list FieldVal)
    (out : list byte) :
  fields m = VHeader h :: body -> Forall validField body ->
  WriteRequest m (mkSink out false)
  = (None, mkSink (out ++ headerBytes h ++ bodyBytes body) false).
Proof.
  intros Hf Hv. unfold WriteRequest. rewrite Hf.
  destruct (writeFields_ok (VHeader h :: body) (NewWriter (mkSink out false)))
    as (w1 & -> & Hinv1 & Hw1).
  { unfold winv; cbn. repeat split; auto; lia. }
  { constructor; [right; eauto|]. eapply Forall_impl; [exact Hv|]. cbn. auto. }
  destruct (Flush_ok w1 Hinv1) as (w' & -> & (Hl' & He' & Hb') & Hw' & Hbuf').
  f_equal. unfold written in *. rewrite Hbuf', app_nil_r in Hw'.
  destruct (wr w') as [o br]; cbn [sent broken] in *. subst br. f_equal.
  rewrite Hw', Hw1. cbn [NewWriter wbuf wr sent]. rewrite app_nil_r.
  unfold bodyBytes. cbn [map concat wire]. reflexivity.
Qed.

End Encode.

(** * Every call ends *)

(** ** A read hands out pending bytes, in order *)

Lemma Stream_Read_law (s : Stream) (k : nat) data e s' :
  Read s k = (data, e, s') -> data ++ s' = s.
Proof.
  destruct s as [|x s]; cbn; intros [= <- <- <-]; [reflexivity|].
  apply (take_drop k (x :: s)).
Qed.

Lemma fill_same (b : Reader) : pending (fill b) = pending b.
Proof.
  unfold fill, pending. destruct (rd b) as [|x r]; cbn [Read Stream_Read buf rd].
  - rewrite !app_nil_r. reflexivity.
  - rewrite <- app_assoc, take_drop. reflexivity.
Qed.

Lemma Reader_Read_law (b : Reader) (k : nat) data e b' :
  Read b k = (data, e, b') -> data ++ pending b' = pending b.
Proof.
  destruct b as [bf r er]. unfold Read, Reader_Read, pending, readErr; cbn [buf rd rerr].
  destruct k as [|k].
  - destruct (0 <? length bf)%nat; intros [= <- <- <-]; reflexivity.
  - destruct bf as [|x bf].
    + destruct er.
      * intros [= <- <- <-]. reflexivity.
      * destruct (defaultBufSize <=? S k)%nat.
        -- destruct (Read r (S k)) as [[d e1] r1] eqn:E. intros [= <- <- <-].
           cbn [buf rd app]. apply (Stream_Read_law _ _ _ _ _ E).
        -- destruct (Read r defaultBufSize) as [[d e1] r1] eqn:E.
           apply Stream_Read_law in E. destruct d as [|y d].
           ++ intros [= <- <- <-]. exact E.
           ++ intros [= <- <- <-]. cbn [buf rd]. rewrite <- E. cbn [app].
              f_equal. rewrite app_assoc, take_drop. reflexivity.
    + intros [= <- <- <-]. cbn [buf rd app].
      f_equal. rewrite app_assoc, take_drop. reflexivity.
Qed.

Section ReadLaw.
Context {R : Type} `{ioReader R} (rest : R -> list byte).
Hypothesis Read_law :
  forall r k data e r', Read r k = (data, e, r') -> data ++ rest r' = rest r.

Lemma readLoop_law (fuel : nat) :
  forall r acc need data e r',
    readLoop fuel r acc need = (data, e, r') ->
    data ++ rest r' = acc ++ rest r /\ (e = None -> (length acc + need <= length data)%nat).
Proof using Read_law.
  induction fuel as [|fuel IH]; intros r acc need data e r'; destruct need as [|need];
    cbn [readLoop]; try (intros [= <- <- <-]; split; [reflexivity | intros; lia || discriminate]).
  destruct (Read r (S need)) as [[d [e1|]] r1] eqn:E; pose proof (Read_law _ _ _ _ _ E) as HL.
  - intros [= <- <- <-]. rewrite <- app_assoc, HL. split; [reflexivity | discriminate].
  - intros Hr. apply IH in Hr as [H1 H2]. rewrite <- app_assoc, HL in H1.
    split; [exact H1|]. intros He. specialize (H2 He). rewrite length_app in H2. lia.
Qed.

Lemma ReadFull_law r k data e r' :
  ReadFull r k = (data, e, r') ->
  data ++ rest r' = rest r /\ (e = None -> (k <= length data)%nat).
Proof using Read_law.
  unfold ReadFull. destruct (readLoop k r [] k) as [[d0 e0] r0] eqn:E.
  apply readLoop_law in E as [H1 H2]. cbn [app length] in *.
  destruct (Nat.leb_spec k (length d0)).
  - intros [= <- <- <-]. auto.
  - destruct e0 as [[]|]; intros [= <- <- <-]; split; auto; try discriminate.
Qed.

End ReadLaw.

Lemma Peek_law (n : nat) (b : Reader) data e b' :
  Peek n b = (data, e, b') -> pending b' = pending b.
Proof.
  unfold Peek.
  assert (Hp : forall fuel b0, pending (peekFill fuel n b0) = pending b0).
  { induction fuel as [|fuel IH]; intros b0; cbn [peekFill]; [reflexivity|].
    destruct (_ && _); [rewrite IH; apply fill_same | reflexivity]. }
  specialize (Hp (S n) b). set (b1 := peekFill (S n) n b) in *.
  destruct (defaultBufSize <? n)%nat; [intros [= <- <- <-]; exact Hp|].
  destruct (length (buf b1) <? n)%nat; [|intros [= <- <- <-]; exact Hp].
  unfold readErr. destruct (rerr b1); intros [= <- <- <-]; exact Hp.
Qed.

Lemma readSliceLoop_law (delim : byte) (fuel : nat) :
  forall b frag e b',
    readSliceLoop fuel delim b = (frag, e, b') -> frag ++ pending b' = pending b.
Proof.
  induction fuel as [|fuel IH]; intros b frag e b'; cbn [readSliceLoop];
    (destruct (IndexByte (buf b) delim);
     [intros [= <- <- <-]; unfold pending; cbn [buf rd];
      rewrite app_assoc, take_drop; reflexivity|]);
    (destruct (rerr b); [unfold readErr; intros [= <- <- <-]; reflexivity|]);
    (destruct (defaultBufSize <=? length (buf b))%nat; [intros [= <- <- <-]; reflexivity|]).
  - intros [= <- <- <-]. reflexivity.
  - intros Hr. apply IH in Hr. rewrite Hr. apply fill_same.
Qed.

Lemma collectFragments_law (delim : byte) (fuel : nat) :
  forall acc b res e b',
    collectFragments fuel delim acc b = (res, e, b') -> res ++ pending b' = acc ++ pending b.
Proof.
  induction fuel as [|fuel IH]; intros acc b res e b'; cbn [collectFragments];
    destruct (ReadSlice delim b) as [[frag e1] b1] eqn:E;
    apply readSliceLoop_law in E; rewrite <- E, app_assoc;
    destruct e1 as [[]|]; try (intros [= <- <- <-]; reflexivity).
  intros Hr. apply IH in Hr. exact Hr.
Qed.

Lemma ReadString_law (delim : byte) (b : Reader) str e b' :
  ReadString delim b = (str, e, b') -> str ++ pending b' = pending b.
Proof. intros Hr. apply collectFragments_law in Hr. exact Hr. Qed.

(** ** Computations that only take pending bytes *)

Lemma shrinking_ret {A} (a : A) : shrinking (ret a).
Proof. intros b res b' [= <- <-]. lia. Qed.

Lemma shrinking_fail {A} (e : error) : shrinking (@fail Reader A e).
Proof. intros b res b' [= <- <-]. lia. Qed.

Lemma shrinking_panic {A} (msg : string) : shrinking (@panic Reader A msg).
Proof. intros b res b' [= <- <-]. lia. Qed.

Lemma shrinking_diverge {A} : shrinking (@diverge Reader A).
Proof. intros b res b' [= <- <-]. lia. Qed.

Lemma shrinking_bind {A C} (m : M Reader A) (k : A -> M Reader C) :
  shrinking m -> (forall a, shrinking (k a)) -> shrinking (bind m k).
Proof.
  intros Hm Hk b res b'. unfold bind. destruct (m b) as [[a|e|msg|] b1] eqn:E;
    specialize (Hm _ _ _ E); try (intros [= <- <-]; exact Hm).
  intros Hr. apply Hk in Hr. lia.
Qed.

Lemma shrinking_try {A} (f : Reader -> A * option error * Reader) :
  (forall b a e b', f b = (a, e, b') -> (length (pending b') <= length (pending b))%nat) ->
  shrinking (try f).
Proof.
  intros Hf b res b'. unfold try. destruct (f b) as [[a [e|]] b1] eqn:E;
    intros [= <- <-]; eapply Hf; exact E.
Qed.

Lemma shrinking_binaryRead (k : nat) : shrinking (binaryRead k).
Proof.
  apply shrinking_try. intros b a e b' Hr.
  apply (ReadFull_law pending Reader_Read_law) in Hr as [Hr _].
  rewrite <- Hr, length_app. lia.
Qed.

Lemma bind_ends {S A C} (m : M S A) (k : A -> M S C) (s : S) :
  fst (m s) <> Diverge ->
  (forall a s', m s = (Ok a, s') -> fst (k a s') <> Diverge) ->
  fst (bind m k s) <> Diverge.
Proof.
  intros Hm Hk. unfold bind. destruct (m s) as [[a|e|msg|] s']; cbn [fst] in *;
    try discriminate; [|congruence]. apply Hk. reflexivity.
Qed.

Lemma try_ends {S A} (f : S -> A * option error * S) (s : S) : fst (try f s) <> Diverge.
Proof. unfold try. destruct (f s) as [[a [e|]] s']; discriminate. Qed.

Section Ends.
Context `{B : Bson}.

Lemma shrinking_readInt32s (n : nat) : shrinking (readInt32s n).
Proof.
  induction n as [|n IH]; cbn [readInt32s]; [apply shrinking_ret|].
  apply shrinking_bind; [apply shrinking_binaryRead|]. intros bs.
  apply shrinking_bind; [exact IH|]. intros v. apply shrinking_ret.
Qed.

Lemma shrinking_readInt64s (n : nat) : shrinking (readInt64s n).
Proof.
  induction n as [|n IH]; cbn [readInt64s]; [apply shrinking_ret|].
  apply shrinking_bind; [apply shrinking_binaryRead|]. intros bs.
  apply shrinking_bind; [exact IH|]. intros v. apply shrinking_ret.
Qed.

Lemma readInt32s_ends {R} `{ioReader R} (n : nat) (r : R) : fst (readInt32s n r) <> Diverge.
Proof.
  revert r. induction n as [|n IH]; intros r; cbn [readInt32s]; [discriminate|].
  apply bind_ends; [apply try_ends|]. intros bs r1 _.
  apply bind_ends; [apply IH|]. discriminate.
Qed.

Lemma readInt64s_ends {R} `{ioReader R} (n : nat) (r : R) : fst (readInt64s n r) <> Diverge.
Proof.
  revert r. induction n as [|n IH]; intros r; cbn [readInt64s]; [discriminate|].
  apply bind_ends; [apply try_ends|]. intros bs r1 _.
  apply bind_ends; [apply IH|]. discriminate.
Qed.

(** A successful readInt64s(r, 1) takes eight bytes. *)
Lemma readInt64s_one_takes (b : Reader) v b' :
  readInt64s 1 b = (Ok v, b') -> (length (pending b') + 8 <= length (pending b))%nat.
Proof.
  cbn [readInt64s]. unfold binaryRead, bind, try, ret.
  destruct (ReadFull b 8) as [[bs [e|]] b1] eqn:E; [discriminate|].
  intros [= <- <-].
  apply (ReadFull_law pending Reader_Read_law) in E as [Hr Hl].
  specialize (Hl eq_refl). rewrite <- Hr, length_app. lia.
Qed.

(** What readDoc does when it succeeds. *)
Lemma readDoc_inv (b : Reader) (d : D) (n : Z) (b' : Reader) :
  readDoc b = (Ok (d, n), b') ->
  exists bDoc, bDoc ++ pending b' = pending b /\ Unmarshal bDoc = inr d /\
               0 <= n /\ (Z.to_nat n <= length bDoc)%nat.
Proof.
  unfold readDoc, bind, try.
  destruct (Peek 4 b) as [[p [e|]] b1] eqn:Ep; [discriminate|].
  apply Peek_law in Ep.
  destruct (Z.ltb_spec (int32_of_le p) 0); [discriminate|].
  destruct (ReadFull b1 (Z.to_nat (int32_of_le p))) as [[bDoc [e|]] b2] eqn:Er; [discriminate|].
  apply (ReadFull_law pending Reader_Read_law) in Er as [Hr Hl].
  destruct (Unmarshal bDoc) as [e|out] eqn:Eu; [discriminate|].
  intros [= <- <- <-]. exists bDoc. rewrite Hr, Ep. auto.
Qed.

Lemma shrinking_readDoc : shrinking readDoc.
Proof.
  unfold readDoc.
  apply shrinking_bind.
  { apply shrinking_try. intros b a e b' Hr. apply Peek_law in Hr. rewrite Hr. lia. }
  intros p. destruct (int32_of_le p <? 0); [apply shrinking_panic|].
  apply shrinking_bind.
  { apply shrinking_try. intros b a e b' Hr.
    apply (ReadFull_law pending Reader_Read_law) in Hr as [Hr _].
    rewrite <- Hr, length_app. lia. }
  intros bDoc. destruct (Unmarshal bDoc); [apply shrinking_fail | apply shrinking_ret].
Qed.

Lemma readDoc_ends (b : Reader) : fst (readDoc b) <> Diverge.
Proof.
  unfold readDoc. apply bind_ends; [apply try_ends|]. intros p b1 _.
  destruct (int32_of_le p <? 0); [discriminate|].
  apply bind_ends; [apply try_ends|]. intros bDoc b2 _.
  destruct (Unmarshal bDoc); discriminate.
Qed.

Lemma readDoc_takes (b : Reader) (d : D) (n : Z) (b' : Reader) :
  rejectsEmpty -> readDoc b = (Ok (d, n), b') ->
  (length (pending b') < length (pending b))%nat.
Proof.
  intros Hne Hr. apply readDoc_inv in Hr as (bDoc & Hp & Hu & _).
  destruct bDoc as [|x bDoc]; [exfalso; exact (Hne d Hu)|].
  rewrite <- Hp. cbn [app length]. rewrite length_app. lia.
Qed.

Lemma shrinking_readDocs (fuel : nat) :
  forall h bytesRead data, shrinking (readDocs fuel h bytesRead data).
Proof.
  induction fuel as [|fuel IH]; intros h bytesRead data; cbn [readDocs];
    [apply shrinking_diverge|].
  apply shrinking_bind; [apply shrinking_readDoc|]. intros dn.
  destruct (_ =? _); [apply shrinking_ret | apply IH].
Qed.

Lemma shrinking_readIds (fuel : nat) :
  forall h bytesRead data, shrinking (readIds fuel h bytesRead data).
Proof.
  induction fuel as [|fuel IH]; intros h bytesRead data; cbn [readIds];
    [apply shrinking_diverge|].
  apply shrinking_bind; [apply shrinking_readInt64s|]. intros n.
  destruct (_ =? _); [apply shrinking_ret | apply IH].
Qed.

(** The element loops end when every round takes a byte: [fuel] rounds are
    enough for a reader with fewer than [fuel] pending bytes. *)
Lemma readDocs_ends (fuel : nat) :
  rejectsEmpty ->
  forall h bytesRead data b,
    (length (pending b) < fuel)%nat -> fst (readDocs fuel h bytesRead data b) <> Diverge.
Proof.
  intros Hne. induction fuel as [|fuel IH]; intros h bytesRead data b Hf; [lia|].
  cbn [readDocs]. apply bind_ends; [apply readDoc_ends|]. intros [d n] b1 Hr.
  apply (readDoc_takes _ _ _ _ Hne) in Hr. cbn [fst snd].
  destruct (_ =? _); [discriminate|]. apply IH. lia.
Qed.

Lemma readIds_ends (fuel : nat) :
  forall h bytesRead data b,
    (length (pending b) < fuel)%nat -> fst (readIds fuel h bytesRead data b) <> Diverge.
Proof.
  induction fuel as [|fuel IH]; intros h bytesRead data b Hf; [lia|].
  cbn [readIds]. apply bind_ends; [apply readInt64s_ends|]. intros v b1 Hr.
  apply readInt64s_one_takes in Hr.
  destruct (_ =? _); [discriminate|]. apply IH. lia.
Qed.


Lemma readFields_ends (fuel : nat) (h : MsgHeader) (ts : list FieldType) :
  rejectsEmpty ->
  forall i bytesRead v b,
    (length (pending b) < fuel)%nat -> fst (readFields fuel h ts i bytesRead v b) <> Diverge.
Proof.
  intros Hne. induction ts as [|t ts IH]; intros i bytesRead v b Hf; cbn [readFields];
    [discriminate|].
  destruct (_ =? _); [discriminate|].
  destruct (_ >? _); [discriminate|].
  destruct t; try (apply IH; exact Hf); apply bind_ends;
    try (intros a b1 Hr; apply IH).
  - apply readInt32s_ends.
  - apply shrinking_readInt32s in Hr. lia.
  - apply readInt64s_ends.
  - apply shrinking_readInt64s in Hr. lia.
  - apply try_ends.
  - assert (Hs : shrinking (try (ReadString Byte.x00))).
    { apply shrinking_try. intros b0 a0 e b' Hr0. apply ReadString_law in Hr0.
      rewrite <- Hr0, length_app. lia. }
    apply Hs in Hr. lia.
  - apply readDoc_ends.
  - apply shrinking_readDoc in Hr. lia.
  - apply readDocs_ends; assumption.
  - apply shrinking_readDocs in Hr. lia.
  - apply readIds_ends; assumption.
  - apply shrinking_readIds in Hr. lia.
Qed.

Lemma readMsgHeader_ends {R} `{ioReader R} (r : R) : fst (readMsgHeader r) <> Diverge.
Proof.
  unfold readMsgHeader. apply bind_ends; [apply try_ends|]. discriminate.
Qed.

(** ReadRequest ends on every stream: it returns a message or an error, or it
    panics. *)
Theorem ReadRequest_ends (r : Stream) :
  rejectsEmpty -> fst (ReadRequest r) <> Diverge.
Proof.
  intros Hne. unfold ReadRequest.
  pose proof (readMsgHeader_ends r) as Hh.
  destruct (readMsgHeader r) as [[h|e|msg|] r1] eqn:Eh; cbn [fst]; try discriminate.
  - destruct (newReq h) as [req|]; [|discriminate].
    pose proof (readFields_ends (S (length r1)) h (structFields (structType req)) Hne
                  0%nat HEADER_SIZE (fields req) (NewReader r1)) as Hf.
    rewrite pending_NewReader in Hf. specialize (Hf (Nat.lt_succ_diag_r _)).
    destruct (readFields _ _ _ _ _ _ _) as [[v|e|msg|] b]; cbn [fst] in *;
      try discriminate. congruence.
  - exfalso. apply Hh. reflexivity.
Qed.



End Ends.

Section Claims.
Context `{B : Bson}.

(** Decoding what the encoder wrote for a valid message gives it back. *)
Theorem decode_encode (m : RequestMsg) (h : MsgHeader) (body : list FieldVal) (rest : list byte) :
  validMsg m h body ->
  fst (ReadRequest (sent (snd (WriteRequest m (mkSink [] false))) ++ rest)) = Ok m.
Proof.
  intros Hm. rewrite (WriteRequest_frame m h body []) by apply Hm.
  cbn [snd sent app]. rewrite <- !app_assoc.
  destruct (ReadRequest_frame m h body rest Hm) as (r' & ->). reflexivity.
Qed.

Ltac valid_body :=
  repeat (apply Forall_cons; split); [.. | apply Forall_nil]; cbn [validField]; auto.

Lemma readFields_too_far (fuel : nat) (h : MsgHeader) (t : FieldType) (ts : list FieldType)
    (i : nat) (bytesRead : Z) (v : list FieldVal) (b : Reader) :
  MessageLength h < bytesRead ->
  readFields fuel h (t :: ts) i bytesRead v b = (Err ErrorWrongLen, b).
Proof.
  intros Hlt. cbn [readFields].
  destruct (Z.eqb_spec bytesRead (MessageLength h)) as [?|_]; [lia|].
  destruct (Z.gtb_spec bytesRead (MessageLength h)) as [_|?]; [reflexivity | lia].
Qed.

Lemma readFields_header (fuel : nat) (h : MsgHeader) (ts : list FieldType)
    (i : nat) (bytesRead : Z) (v : list FieldVal) (b : Reader) :
  bytesRead < MessageLength h ->
  readFields fuel h (PtrMsgHeader :: ts) i bytesRead v b = readFields fuel h ts (S i) bytesRead v b.
Proof.
  intros Hlt. cbn [readFields].
  destruct (Z.eqb_spec bytesRead (MessageLength h)) as [?|_]; [lia|].
  destruct (Z.gtb_spec bytesRead (MessageLength h)) as [?|_]; [lia | reflexivity].
Qed.

Ltac frame_of H :=
  unfold bodyBytes in H; cbn [map concat wire] in H;
  rewrite <- ?app_assoc in H; rewrite ?app_nil_r in H; cbn [app] in H;
  rewrite <- ?app_assoc; cbn [app]; rewrite H; reflexivity.

(** C3.  The elements of a slice are read until the byte counter meets the
    declared length of the frame; no count field is looked at.  An Insert
    frame with room for two documents decodes to a list of two; a KillCursors
    frame yields the ids its length has room for, whatever NumberOfCursorIDs
    says; a Reply frame yields the documents its length has room for,
    whatever NumberReturned says. *)
Theorem C3_slices_follow_the_declared_length :
  (forall (h : MsgHeader) (Flags : Z) (name : list byte) (d1 d2 : D) (rest : list byte),
      Opcode h = OP_INSERT -> is_int32 (MessageLength h) ->
      is_int32 (RequestID h) -> is_int32 (ResponseTo h) ->
      is_int32 Flags -> ~ In Byte.x00 name -> goodDoc d1 -> goodDoc d2 ->
      MessageLength h = 16 + 4 + (Z.of_nat (length name) + 1)
                        + Z.of_nat (length (docBytes d1)) + Z.of_nat (length (docBytes d2)) ->
      fst (ReadRequest (headerBytes h ++ le_of_int32 Flags ++ name ++ [Byte.x00]
                          ++ docBytes d1 ++ docBytes d2 ++ rest))
      = Ok (Insert h Flags name [d1; d2]))
  /\ (forall (h : MsgHeader) (ZERO NumberOfCursorIDs : Z) (ids : list Z) (rest : list byte),
        Opcode h = OP_KILL_CURSORS -> is_int32 (MessageLength h) ->
        is_int32 (RequestID h) -> is_int32 (ResponseTo h) ->
        is_int32 ZERO -> is_int32 NumberOfCursorIDs -> Forall is_int64 ids ->
        MessageLength h = 16 + 4 + 4 + 8 * Z.of_nat (length ids) ->
        fst (ReadRequest (headerBytes h ++ le_of_int32 ZERO ++ le_of_int32 NumberOfCursorIDs
                            ++ concat (map le_of_int64 ids) ++ rest))
        = Ok (KillCursors h ZERO NumberOfCursorIDs ids))
  /\ (forall (h : MsgHeader) (ResponseFlags CursorID StartingFrom NumberReturned : Z)
             (docs : list D) (rest : list byte),
        Opcode h = OP_REPLY -> is_int32 (MessageLength h) ->
        is_int32 (RequestID h) -> is_int32 (ResponseTo h) ->
        is_int32 ResponseFlags -> is_int64 CursorID -> is_int32 StartingFrom ->
        is_int32 NumberReturned -> Forall goodDoc docs ->
        MessageLength h = 16 + 4 + 8 + 4 + 4
                          + Z.of_nat (length (concat (map docBytes docs))) ->
        fst (ReadRequest (headerBytes h ++ le_of_int32 ResponseFlags ++ le_of_int64 CursorID
                            ++ le_of_int32 StartingFrom ++ le_of_int32 NumberReturned
                            ++ concat (map docBytes docs) ++ rest))
        = Ok (Reply h ResponseFlags CursorID StartingFrom NumberReturned docs)).
Proof.
  split; [|split].
  - intros h Flags name d1 d2 rest Hop Hsz Hid Hrt HF Hn Hd1 Hd2 HL.
    pose (body := [VInt32 Flags; VString name; VDs [d1; d2]]).
    assert (Hm : validMsg (Insert h Flags name [d1; d2]) h body).
    { split; auto; try reflexivity.
      - subst body. valid_body.
      - unfold bodyBytes, body. cbn [map concat wire].
        rewrite !length_app, !length_le_of_int32. cbn [length]. unfold HEADER_SIZE. lia. }
    destruct (ReadRequest_frame _ h body rest Hm) as (r' & Hr'). subst body. frame_of Hr'.
  - intros h ZERO count ids rest Hop Hsz Hid Hrt HZ HC Hids HL.
    pose (body := [VInt32 ZERO; VInt32 count; VInt64s ids]).
    assert (Hm : validMsg (KillCursors h ZERO count ids) h body).
    { split; auto; try reflexivity.
      - subst body. valid_body.
      - subst body. cbn [layoutOK isAbsent isSlice orb forallb]. rewrite orb_true_r. reflexivity.
      - unfold bodyBytes, body. cbn [map concat wire].
        rewrite app_nil_r, !length_app, !length_le_of_int32.
        assert (length (concat (map le_of_int64 ids)) = (8 * length ids)%nat) as ->.
        { clear. induction ids as [|x ids IH]; cbn [map concat length]; [reflexivity|].
          rewrite length_app, length_le_of_int64, IH. lia. }
        unfold HEADER_SIZE. lia. }
    destruct (ReadRequest_frame _ h body rest Hm) as (r' & Hr'). subst body. frame_of Hr'.
  - intros h flags cursor start count docs rest Hop Hsz Hid Hrt HF HC HS HN Hdocs HL.
    pose (body := [VInt32 flags; VInt64 cursor; VInt32 start; VInt32 count; VDs docs]).
    assert (Hm : validMsg (Reply h flags cursor start count docs) h body).
    { split; auto; try reflexivity.
      - subst body. valid_body.
      - subst body. cbn [layoutOK isAbsent isSlice orb forallb]. rewrite orb_true_r. reflexivity.
      - unfold bodyBytes, body. cbn [map concat wire].
        rewrite app_nil_r, !length_app, !length_le_of_int32, length_le_of_int64.
        unfold HEADER_SIZE. lia. }
    destruct (ReadRequest_frame _ h body rest Hm) as (r' & Hr'). subst body. frame_of Hr'.
Qed.

(** C4.  A header whose opcode newReq does not know makes ReadRequest fail
    with the unknown-opcode error, and the caller's stream is left right after
    the sixteen bytes of the header. *)
Theorem C4_unknown_opcode (s : Stream) :
  (16 <= length s)%nat -> ~ registered (int32_of_le (take 4 (drop 12 s))) ->
  ReadRequest s = (Err ErrorOpcodeUnknown, drop 16 s).
Proof.
  intros Hl Hop. unfold ReadRequest, readMsgHeader, binaryRead.
  erewrite bind_try_ok by (apply ReadFull_Stream; exact Hl).
  unfold ret, newReq. cbn [Opcode].
  replace (take 4 (drop 12 (take 16 s))) with (take 4 (drop 12 s)).
  2:{ rewrite !take_drop_commute, take_take. reflexivity. }
  set (op := int32_of_le (take 4 (drop 12 s))) in *.
  unfold registered in Hop.
  repeat match goal with
         | |- context [?a =? ?b] => destruct (Z.eqb_spec a b); [exfalso; tauto|]
         end.
  reflexivity.
Qed.

(** C6, as the code has it.  WriteRequest writes the sixteen bytes of the
    header and then the bytes of the fields; it neither checks nor computes
    MessageLength.  The count written is MessageLength when the header holds
    sixteen plus the size of the fields. *)
Theorem C6_bytes_written (m : RequestMsg) (h : MsgHeader) (body : list FieldVal)
    (out : list byte) :
  fields m = VHeader h :: body -> Forall validField body -> layoutOK body = true ->
  let n := (length (sent (snd (WriteRequest m (mkSink out false)))) - length out)%nat in
  n = (16 + length (bodyBytes body))%nat
  /\ (MessageLength h = HEADER_SIZE + Z.of_nat (length (bodyBytes body)) ->
      Z.of_nat n = MessageLength h).
Proof.
  intros Hf Hv _ n. subst n. rewrite (WriteRequest_frame m h body out Hf Hv).
  cbn [snd sent]. rewrite !length_app, length_headerBytes. unfold HEADER_SIZE. lia.
Qed.

(** ** The relay *)

(** C7.  When the dial fails the handler panics at [defer c.Close()]: no
    record is printed and the client connection is not closed. *)
Theorem C7_dial_failure_panics (p : Proxy) (conn : Conn) (e : error) :
  handleConnection p conn (None, Some e)
  = mkHandled (Panic "runtime error: invalid memory address or nil pointer dereference")
              conn None [].
Proof. reflexivity. Qed.

End Claims.

(** * Further properties of the codec *)

(** ** Integers and headers on a stream *)

Lemma is_int32_int32_of_le (bs : list byte) : is_int32 (int32_of_le bs).
Proof.
  unfold is_int32, int32_of_le, swrap.
  pose proof (Z.mod_pos_bound (le_combine bs + 2 ^ (32 - 1)) (2 ^ 32) eq_refl). lia.
Qed.

Lemma is_int64_int64_of_le (bs : list byte) : is_int64 (int64_of_le bs).
Proof.
  unfold is_int64, int64_of_le, swrap.
  pose proof (Z.mod_pos_bound (le_combine bs + 2 ^ (64 - 1)) (2 ^ 64) eq_refl). lia.
Qed.

Lemma le_of_int32_of_le (bs : list byte) :
  length bs = 4%nat -> le_of_int32 (int32_of_le bs) = bs.
Proof.
  intros Hl. unfold le_of_int32, int32_of_le, swrap.
  rewrite le_split_mod.
  replace (((le_combine bs + 2 ^ (32 - 1)) mod 2 ^ 32 - 2 ^ (32 - 1)) mod 2 ^ (Z.of_nat 4 * 8))
    with (le_combine bs mod 2 ^ (Z.of_nat 4 * 8)).
  - rewrite <- le_split_mod. apply split_le_combine'. exact Hl.
  - change (2 ^ (Z.of_nat 4 * 8)) with (2 ^ 32).
    rewrite Zminus_mod_idemp_l.
    f_equal. lia.
Qed.

Lemma le_of_int64_of_le (bs : list byte) :
  length bs = 8%nat -> le_of_int64 (int64_of_le bs) = bs.
Proof.
  intros Hl. unfold le_of_int64, int64_of_le, swrap.
  rewrite le_split_mod.
  replace (((le_combine bs + 2 ^ (64 - 1)) mod 2 ^ 64 - 2 ^ (64 - 1)) mod 2 ^ (Z.of_nat 8 * 8))
    with (le_combine bs mod 2 ^ (Z.of_nat 8 * 8)).
  - rewrite <- le_split_mod. apply split_le_combine'. exact Hl.
  - change (2 ^ (Z.of_nat 8 * 8)) with (2 ^ 64).
    rewrite Zminus_mod_idemp_l.
    f_equal. lia.
Qed.

(** io.ReadFull on a stream that ends too early. *)
Lemma ReadFull_Stream_short (s : Stream) (k : nat) :
  (length s < k)%nat ->
  ReadFull s k = (s, Some (match s with [] => EOF | _ => ErrUnexpectedEOF end), []).
Proof.
  intros Hk. unfold ReadFull. destruct k as [|k]; [lia|]. cbn [readLoop].
  destruct s as [|x s].
  - cbn. reflexivity.
  - rewrite Stream_Read_cons by discriminate.
    rewrite take_ge, drop_ge by lia. cbn [app].
    destruct k as [|k]; [cbn [length] in Hk; lia|].
    replace (S (S k) - length (x :: s))%nat with (S (k - length s))%nat
      by (cbn [length] in *; lia).
    cbn [readLoop Read Stream_Read]. rewrite app_nil_r.
    destruct (Nat.leb_spec (S (S k)) (length (x :: s))); [lia|].
    reflexivity.
Qed.

Lemma binaryRead_Stream (s : Stream) (k : nat) :
  (k <= length s)%nat -> binaryRead k s = (Ok (take k s), drop k s).
Proof. intros Hk. unfold binaryRead, try. rewrite ReadFull_Stream by exact Hk. reflexivity. Qed.

Lemma binaryRead_Stream_short (s : Stream) (k : nat) :
  (length s < k)%nat ->
  binaryRead k s = (Err (match s with [] => EOF | _ => ErrUnexpectedEOF end), []).
Proof. intros Hk. unfold binaryRead, try. rewrite ReadFull_Stream_short by exact Hk. reflexivity. Qed.

Lemma take4_chunks (bs : list byte) :
  length bs = 16%nat ->
  take 4 bs ++ take 4 (drop 4 bs) ++ take 4 (drop 8 bs) ++ take 4 (drop 12 bs) = bs.
Proof.
  intros Hl.
  rewrite <- (take_drop 4 bs) at 5.
  f_equal. rewrite <- (take_drop 4 (drop 4 bs)) at 2. f_equal.
  rewrite drop_drop. cbn [Nat.add].
  rewrite <- (take_drop 4 (drop 8 bs)) at 2. f_equal.
  rewrite drop_drop. cbn [Nat.add].
  apply take_ge. rewrite length_drop. lia.
Qed.

(** Sixteen bytes are the encoding of the header they decode to. *)
Lemma headerBytes_of_bytes (bs : list byte) :
  length bs = 16%nat ->
  headerBytes (mkMsgHeader (int32_of_le (take 4 bs)) (int32_of_le (take 4 (drop 4 bs)))
                 (int32_of_le (take 4 (drop 8 bs))) (int32_of_le (take 4 (drop 12 bs))))
  = bs.
Proof.
  intros H16. unfold headerBytes. cbn [MessageLength RequestID ResponseTo Opcode].
  rewrite !le_of_int32_of_le by (rewrite length_take, ?length_drop; lia).
  apply take4_chunks. exact H16.
Qed.

(** X1.  readMsgHeader takes the first sixteen bytes of a stream that has
    them, whatever they are: the four fields are 32-bit values, and encoding
    the header gives the sixteen bytes back. *)
Theorem readMsgHeader_sixteen_bytes (s : Stream) :
  (16 <= length s)%nat ->
  exists h, readMsgHeader s = (Ok h, drop 16 s)
            /\ headerBytes h = take 16 s
            /\ is_int32 (MessageLength h) /\ is_int32 (RequestID h)
            /\ is_int32 (ResponseTo h) /\ is_int32 (Opcode h).
Proof.
  intros Hl. unfold readMsgHeader, bind. rewrite binaryRead_Stream by exact Hl.
  unfold ret. eexists. split; [reflexivity|].
  cbn [MessageLength RequestID ResponseTo Opcode].
  split; [|repeat split; apply is_int32_int32_of_le].
  apply headerBytes_of_bytes. rewrite length_take. lia.
Qed.

Section Header.
Context `{B : Bson}.

Lemma ReadRequest_nil : ReadRequest [] = (Err EOF, []).
Proof. reflexivity. Qed.

(** X2.  On a stream that ends before the sixteenth byte ReadRequest returns
    io.EOF when the stream is empty and io.ErrUnexpectedEOF otherwise, and
    the stream is used up. *)
Theorem ReadRequest_short_header (s : Stream) :
  (length s < 16)%nat ->
  ReadRequest s = (Err (match s with [] => EOF | _ => ErrUnexpectedEOF end), []).
Proof.
  intros Hl. unfold ReadRequest, readMsgHeader, bind.
  rewrite binaryRead_Stream_short by exact Hl. reflexivity.
Qed.

End Header.

(** ** readInt32s and readInt64s *)

Lemma readInt32s_cons (n : nat) (s : Stream) :
  (4 <= length s)%nat ->
  readInt32s (S n) s
  = match readInt32s (R:=Stream) n (drop 4 s) with
    | (Ok v, s') => (Ok (int32_of_le (take 4 s) :: v), s')
    | (Err e, s') => (Err e, s')
    | (Panic msg, s') => (Panic msg, s')
    | (Diverge, s') => (Diverge, s')
    end.
Proof.
  intros Hl. cbn [readInt32s]. unfold bind at 1. rewrite binaryRead_Stream by exact Hl.
  unfold bind, ret. reflexivity.
Qed.

Lemma readInt64s_cons (n : nat) (s : Stream) :
  (8 <= length s)%nat ->
  readInt64s (S n) s
  = match readInt64s (R:=Stream) n (drop 8 s) with
    | (Ok v, s') => (Ok (int64_of_le (take 8 s) :: v), s')
    | (Err e, s') => (Err e, s')
    | (Panic msg, s') => (Panic msg, s')
    | (Diverge, s') => (Diverge, s')
    end.
Proof.
  intros Hl. cbn [readInt64s]. unfold bind at 1. rewrite binaryRead_Stream by exact Hl.
  unfold bind, ret. reflexivity.
Qed.

(** X3.  readInt32s(r, n) and readInt64s(r, n) read back the values that were
    encoded, in order, and leave the reader right after them. *)
Theorem readInts_round_trip (vs ws : list Z) (rest : Stream) :
  Forall is_int32 vs -> Forall is_int64 ws ->
  readInt32s (R:=Stream) (length vs) (concat (map le_of_int32 vs) ++ rest) = (Ok vs, rest)
  /\ readInt64s (R:=Stream) (length ws) (concat (map le_of_int64 ws) ++ rest) = (Ok ws, rest).
Proof.
  intros Hv Hw. split.
  - induction Hv as [|v vs Hv _ IH]; [reflexivity|].
    cbn [length map concat]. rewrite <- app_assoc.
    pose proof (length_le_of_int32 v) as L.
    rewrite readInt32s_cons by (rewrite length_app; lia).
    rewrite drop_app_length' by (symmetry; exact L).
    rewrite take_app_length' by (symmetry; exact L).
    rewrite IH, int32_of_le_of_int32 by exact Hv. reflexivity.
  - induction Hw as [|w ws Hw _ IH]; [reflexivity|].
    cbn [length map concat]. rewrite <- app_assoc.
    pose proof (length_le_of_int64 w) as L.
    rewrite readInt64s_cons by (rewrite length_app; lia).
    rewrite drop_app_length' by (symmetry; exact L).
    rewrite take_app_length' by (symmetry; exact L).
    rewrite IH, int64_of_le_of_int64 by exact Hw. reflexivity.
Qed.

(** X4.  readInt32s(r, n) on any stream of at least 4n bytes returns n values
    of 32 bits whose encodings are the bytes taken, and leaves the rest. *)
Theorem readInt32s_takes_4n (n : nat) (s : Stream) :
  (4 * n <= length s)%nat ->
  exists vs, readInt32s n s = (Ok vs, drop (4 * n) s)
             /\ length vs = n /\ Forall is_int32 vs
             /\ concat (map le_of_int32 vs) = take (4 * n) s.
Proof.
  revert s. induction n as [|n IH]; intros s Hl.
  - exists []. cbn [readInt32s]. unfold ret. rewrite drop_0, take_0.
    repeat split. apply Forall_nil. exact I.
  - rewrite readInt32s_cons by lia.
    destruct (IH (drop 4 s)) as (vs & -> & Hn & Hr & Hc); [rewrite length_drop; lia|].
    exists (int32_of_le (take 4 s) :: vs). rewrite drop_drop.
    replace (4 + 4 * n)%nat with (4 * S n)%nat by lia.
    split; [reflexivity|]. split; [cbn [length]; lia|].
    split; [apply Forall_cons; split; [apply is_int32_int32_of_le | exact Hr]|].
    cbn [map concat]. rewrite Hc, le_of_int32_of_le by (rewrite length_take; lia).
    replace (4 * S n)%nat with (4 + 4 * n)%nat by lia.
    rewrite <- (take_take_drop s 4 (4 * n)). reflexivity.
Qed.

(** X5.  readInt32s(r, n) on a stream of fewer than 4n bytes returns no value:
    the error is io.EOF when the stream ends between two values and
    io.ErrUnexpectedEOF when it ends inside one. *)
Theorem readInt32s_short (n : nat) (s : Stream) :
  (length s < 4 * n)%nat ->
  readInt32s n s
  = (Err (if (length s mod 4 =? 0)%nat then EOF else ErrUnexpectedEOF), []).
Proof.
  revert s. induction n as [|n IH]; intros s Hl; [lia|].
  destruct (Nat.le_gt_cases 4 (length s)) as [H4|H4].
  - rewrite readInt32s_cons by exact H4. rewrite IH by (rewrite length_drop; lia).
    rewrite length_drop.
    replace (length s) with ((length s - 4) + 1 * 4)%nat at 2 by lia.
    rewrite Nat.Div0.mod_add. reflexivity.
  - cbn [readInt32s]. unfold bind. rewrite binaryRead_Stream_short by exact H4.
    rewrite Nat.mod_small by exact H4.
    destruct s; reflexivity.
Qed.

(** ** Opcodes and the struct of a header *)

Ltac by_opcode :=
  repeat match goal with
         | |- context [?a =? ?b] => destruct (Z.eqb_spec a b)
         end.

(** X6.  Opcode.String gives a name of its own to each of the eight opcodes
    newReq knows, and "UNKNOWN" to every other value, RESERVED included. *)
Theorem Opcode_String_names (o o' : Z) :
  (Opcode_String o = "UNKNOWN"%string <-> ~ registered o)
  /\ (registered o -> Opcode_String o = Opcode_String o' -> o = o').
Proof.
  unfold registered, OP_REPLY, OP_MSG, OP_UPDATE, OP_INSERT, OP_QUERY, OP_GET_MORE,
    OP_DELETE, OP_KILL_CURSORS.
  split; [split|].
  - unfold Opcode_String, OP_REPLY, OP_MSG, OP_UPDATE, OP_INSERT, OP_QUERY, OP_GET_MORE,
      OP_DELETE, OP_KILL_CURSORS.
    by_opcode; try discriminate; intros _; lia.
  - unfold Opcode_String, OP_REPLY, OP_MSG, OP_UPDATE, OP_INSERT, OP_QUERY, OP_GET_MORE,
      OP_DELETE, OP_KILL_CURSORS.
    by_opcode; try reflexivity; intros Hn; exfalso; apply Hn; lia.
  - intros Hr. unfold Opcode_String, OP_REPLY, OP_MSG, OP_UPDATE, OP_INSERT, OP_QUERY,
      OP_GET_MORE, OP_DELETE, OP_KILL_CURSORS.
    by_opcode; try discriminate; try lia; intros _; exfalso; lia.
Qed.

Section Structs.
Context `{B : Bson}.

Lemma newReq_Some (h : MsgHeader) (m : RequestMsg) :
  newReq h = Some m ->
  GetOp m = Opcode h /\ wellTyped m
  /\ fields m = VHeader h :: map zeroValue (tail (structFields (structType m))).
Proof.
  unfold newReq, OP_REPLY, OP_MSG, OP_UPDATE, OP_INSERT, OP_QUERY, OP_GET_MORE,
    OP_DELETE, OP_KILL_CURSORS.
  by_opcode; intros [= <-];
    (split; [unfold GetOp, OP_REPLY, OP_MSG, OP_UPDATE, OP_INSERT, OP_QUERY, OP_GET_MORE,
               OP_DELETE, OP_KILL_CURSORS; cbn; congruence|]);
    split; reflexivity.
Qed.

(** X7.  newReq returns nil exactly for the opcodes that are not registered;
    otherwise it returns a value of the struct whose GetOp is the header's
    opcode, holding the header and the zero value in every other field. *)
Theorem newReq_struct (h : MsgHeader) :
  (newReq h = None <-> ~ registered (Opcode h))
  /\ (forall m, newReq h = Some m ->
        GetOp m = Opcode h /\ wellTyped m
        /\ fields m = VHeader h :: map zeroValue (tail (structFields (structType m)))).
Proof.
  split; [|intros m; apply newReq_Some].
  unfold registered, newReq, OP_REPLY, OP_MSG, OP_UPDATE, OP_INSERT, OP_QUERY, OP_GET_MORE,
    OP_DELETE, OP_KILL_CURSORS.
  split.
  - by_opcode; try discriminate; intros _; lia.
  - by_opcode; try reflexivity; intros Hn; exfalso; apply Hn; lia.
Qed.

(** ** Frames that end before the last field *)

Lemma valid_wire_length (f : FieldVal) :
  validField f -> isAbsent f = false -> (0 < length (wire f))%nat.
Proof.
  intros Hv Ha. destruct (wire f) eqn:Ew; [|cbn [length]; lia].
  rewrite (valid_wire_nil f Hv Ew) in Ha. discriminate.
Qed.

(** The loop over the fields [pre] that the frame holds, followed by fields
    [post] the frame has no byte for. *)
Lemma readFields_prefix (h : MsgHeader) (rest : list byte) (fuel : nat)
    (post : list FieldType) (pre : list FieldVal) :
  forall (i : nat) (bytesRead : Z) (v : list FieldVal) (b : Reader),
    Forall validField pre ->
    Forall (fun f => isAbsent f = false /\ isSlice f = false) pre ->
    rinv b -> pending b = bodyBytes pre ++ rest ->
    MessageLength h = bytesRead + Z.of_nat (length (bodyBytes pre)) ->
    (i + length pre <= length v)%nat ->
    exists b', readFields fuel h (map typeOf pre ++ post) i bytesRead v b
               = (Ok (take i v ++ pre ++ drop (i + length pre) v), b') /\
               pending b' = rest /\ rinv b'.
Proof.
  induction pre as [|f pre IH]; intros i bytesRead v b Hv Hpres Hinv Hp HL Hlen.
  - exists b. cbn [length bodyBytes map concat app] in *.
    rewrite Nat.add_0_r, take_drop.
    replace bytesRead with (MessageLength h) by lia.
    destruct post as [|t post]; cbn [readFields]; [|rewrite Z.eqb_refl]; auto.
  - apply Forall_cons in Hv as [Hf Hv]. apply Forall_cons in Hpres as [[Ha Hs] Hpres].
    unfold bodyBytes in Hp, HL. cbn [map concat] in Hp, HL. fold (bodyBytes pre) in Hp, HL.
    rewrite <- app_assoc in Hp. rewrite length_app in HL.
    pose proof (valid_wire_length f Hf Ha) as Hw.
    cbn [map app length] in *.
    destruct (readFields_step fuel h f (map typeOf pre ++ post) i bytesRead v b
                (bodyBytes pre ++ rest) Hf Ha Hs Hinv Hp) as (b1 & -> & Hp1 & Hinv1); [lia|].
    destruct (IH (S i) (bytesRead + Z.of_nat (length (wire f))) (<[i := f]> v) b1)
      as (b' & -> & Hp' & Hinv'); auto; try lia.
    { rewrite length_insert. lia. }
    exists b'. split; [|auto]. f_equal. f_equal.
    rewrite (take_S_r _ _ f) by (apply list_lookup_insert_eq; lia).
    rewrite take_insert_ge by lia. rewrite <- app_assoc. cbn [app].
    rewrite drop_insert_lt by lia.
    replace (S i + length pre)%nat with (i + S (length pre))%nat by lia. reflexivity.
Qed.

(** X8.  ReadRequest stops at the declared length wherever it falls between
    two fields: the fields the frame holds are decoded, the fields after them
    keep their zero value, and no byte is read for them.  When the header
    declares sixteen bytes nothing is read after the header. *)
Theorem ReadRequest_stops_at_the_declared_length (t : StructType) (h : MsgHeader)
    (pre : list FieldVal) (post : list FieldType) (rest : Stream) :
  newReq h = Some (structLit t h) ->
  is_int32 (MessageLength h) -> is_int32 (RequestID h) -> is_int32 (ResponseTo h) ->
  tail (structFields t) = map typeOf pre ++ post ->
  Forall validField pre ->
  Forall (fun f => isAbsent f = false /\ isSlice f = false) pre ->
  MessageLength h = HEADER_SIZE + Z.of_nat (length (bodyBytes pre)) ->
  exists r',
    ReadRequest (headerBytes h ++ bodyBytes pre ++ rest)
    = (Ok (mkReq t (VHeader h :: pre ++ map zeroValue post)), r')
    /\ (pre = [] -> r' = rest).
Proof.
  intros Hnew H1 H2 H3 Hts Hv Hpres HL. unfold HEADER_SIZE in HL.
  assert (Hop : is_int32 (Opcode h)).
  { destruct (newReq_Some _ _ Hnew) as (<- & _). apply is_int32_GetOp. }
  unfold ReadRequest. rewrite readMsgHeader_Stream by assumption. rewrite Hnew.
  unfold structLit. cbn [structType fields].
  assert (Hsf : structFields t = PtrMsgHeader :: map typeOf pre ++ post).
  { rewrite <- Hts. destruct t; reflexivity. }
  rewrite Hts, Hsf. unfold HEADER_SIZE.
  destruct pre as [|f pre].
  - cbn [bodyBytes map concat length app] in *. cbn [readFields].
    replace (MessageLength h) with 16 by lia. cbn [Z.eqb Pos.eqb]. unfold ret.
    eexists. split; [reflexivity|]. reflexivity.
  - assert (Hlt : 16 < MessageLength h).
    { apply Forall_cons in Hv as [Hf _]. apply Forall_cons in Hpres as [[Ha _] _].
      pose proof (valid_wire_length f Hf Ha).
      unfold bodyBytes in HL. cbn [map concat] in HL. rewrite length_app in HL. lia. }
    rewrite readFields_header by exact Hlt.
    destruct (readFields_prefix h rest (S (length (bodyBytes (f :: pre) ++ rest))) post
                (f :: pre) 1 16
                (VHeader h :: map zeroValue (map typeOf (f :: pre) ++ post))
                (NewReader (bodyBytes (f :: pre) ++ rest)))
      as (b' & -> & _ & _); auto.
    + apply rinv_NewReader.
    + cbn [length]. rewrite length_map, length_app, length_map. cbn [length]. lia.
    + eexists. split; [|discriminate]. f_equal. f_equal. f_equal.
      cbn [take app]. rewrite take_0. cbn [app]. f_equal.
      change (1 + length (f :: pre))%nat with (S (length (f :: pre))).
      cbn [drop]. rewrite map_app, drop_app_length'
        by (rewrite !length_map; reflexivity).
      reflexivity.
Qed.

End Structs.

(** * One document *)

(** ** A read returns no more than it was asked for *)

Lemma length_take_le {A} (l : list A) (k : nat) : (length (take k l) <= k)%nat.
Proof. rewrite length_take. lia. Qed.

Lemma Stream_Read_bound (s : Stream) (k : nat) data e s' :
  Read s k = (data, e, s') -> (length data <= k)%nat.
Proof.
  destruct s as [|x s]; cbn; intros [= <- <- <-]; [cbn; lia|].
  apply (length_take_le (x :: s) k).
Qed.

Lemma Reader_Read_bound (b : Reader) (k : nat) data e b' :
  Read b k = (data, e, b') -> (length data <= k)%nat.
Proof.
  destruct b as [bf r er]. unfold Read, Reader_Read, readErr; cbn [buf rd rerr].
  destruct k as [|k].
  - destruct (0 <? length bf)%nat; intros [= <- <- <-]; cbn; lia.
  - destruct bf as [|x bf].
    + destruct er.
      * intros [= <- <- <-]. cbn; lia.
      * destruct (defaultBufSize <=? S k)%nat.
        -- destruct (Read r (S k)) as [[d e1] r1] eqn:E. intros [= <- <- <-].
           apply (Stream_Read_bound _ _ _ _ _ E).
        -- destruct (Read r defaultBufSize) as [[d e1] r1] eqn:E.
           destruct d as [|y d]; intros [= <- <- <-]; [cbn; lia|].
           apply (length_take_le (y :: d) (S k)).
    + intros [= <- <- <-]. apply (length_take_le (x :: bf) (S k)).
Qed.

Section ReadExact.
Context {R : Type} `{ioReader R}.
Hypothesis Read_bound :
  forall r k data e r', Read r k = (data, e, r') -> (length data <= k)%nat.

Lemma readLoop_exact (fuel : nat) :
  forall r acc need data r',
    readLoop fuel r acc need = (data, None, r') -> length data = (length acc + need)%nat.
Proof using Read_bound.
  induction fuel as [|fuel IH]; intros r acc need data r'; destruct need as [|need];
    cbn [readLoop]; try (intros [= <- <-]; lia); try discriminate.
  destruct (Read r (S need)) as [[d [e1|]] r1] eqn:E; [discriminate|].
  pose proof (Read_bound _ _ _ _ _ E) as Hb.
  intros Hr. apply IH in Hr. rewrite length_app in Hr. lia.
Qed.

Lemma readLoop_bound (fuel : nat) :
  forall r acc need data e r',
    readLoop fuel r acc need = (data, e, r') -> (length data <= length acc + need)%nat.
Proof using Read_bound.
  induction fuel as [|fuel IH]; intros r acc need data e r'; destruct need as [|need];
    cbn [readLoop]; try (intros [= <- _ _]; lia).
  destruct (Read r (S need)) as [[d [e1|]] r1] eqn:E; pose proof (Read_bound _ _ _ _ _ E).
  - intros [= <- _ _]. rewrite length_app. lia.
  - intros Hr. apply IH in Hr. rewrite length_app in Hr. lia.
Qed.

Lemma ReadFull_exact r k data r' :
  ReadFull r k = (data, None, r') -> length data = k.
Proof using Read_bound.
  unfold ReadFull. destruct (readLoop k r [] k) as [[d0 e0] r0] eqn:E.
  pose proof (readLoop_bound _ _ _ _ _ _ _ E) as Hb. cbn [length] in Hb.
  destruct (Nat.leb_spec k (length d0)).
  - intros [= <- <-]. lia.
  - destruct e0 as [[]|]; try discriminate.
    apply readLoop_exact in E. cbn [length] in E. lia.
Qed.

End ReadExact.

(** What Peek shows when it succeeds. *)
Lemma Peek_shows (n : nat) (b : Reader) p b' :
  Peek n b = (p, None, b') ->
  p = take n (pending b) /\ (n <= length (pending b))%nat /\ pending b' = pending b.
Proof.
  intros Hr. pose proof (Peek_law _ _ _ _ _ Hr) as Hp. revert Hr. unfold Peek.
  set (b1 := peekFill (S n) n b).
  destruct (defaultBufSize <? n)%nat; [discriminate|].
  destruct (Nat.ltb_spec (length (buf b1)) n).
  { unfold readErr. destruct (rerr b1); discriminate. }
  intros [= <- <-]. rewrite <- Hp. unfold pending.
  rewrite take_app_le by lia. rewrite length_app. repeat split; lia.
Qed.

Lemma peekFill_S (fuel n : nat) (b : Reader) :
  peekFill (S fuel) n b
  = if (length (buf b) <? n)%nat && (length (buf b) <? defaultBufSize)%nat && isNil (rerr b)
    then peekFill fuel n (fill b) else b.
Proof. reflexivity. Qed.

Lemma fill_at_end (bf : list byte) (e : option error) :
  fill (mkReader bf [] e) = mkReader bf [] (Some EOF).
Proof. unfold fill. cbn [buf rd rerr Read Stream_Read]. rewrite app_nil_r. reflexivity. Qed.

Lemma fill_whole (bf : list byte) (r : Stream) :
  r <> [] -> (length bf + length r <= defaultBufSize)%nat ->
  fill (mkReader bf r None) = mkReader (bf ++ r) [] None.
Proof.
  intros Hr Hl. unfold fill. cbn [buf rd rerr]. rewrite Stream_Read_cons by exact Hr.
  rewrite take_ge, drop_ge by lia. reflexivity.
Qed.

(** Peek on fewer pending bytes than asked for: the reader underneath is at
    its end, and that is the error. *)
Lemma Peek_short (n : nat) (b : Reader) :
  rinv b -> (length (pending b) < n)%nat -> (n <= defaultBufSize)%nat ->
  exists p b', Peek n b = (p, Some EOF, b').
Proof.
  intros [Hl He] Hn Hsz. unfold Peek.
  assert (Hfill : exists b1, peekFill (S n) n b = b1 /\ rerr b1 = Some EOF
                             /\ (length (buf b1) < n)%nat).
  { destruct b as [bf r er]. cbn [buf rd rerr] in *. subst er.
    unfold pending in Hn. cbn [buf rd] in Hn. rewrite length_app in Hn.
    assert (Hlast : forall fuel bf',
               (length bf' < n)%nat ->
               peekFill (S fuel) n (mkReader bf' [] None) = mkReader bf' [] (Some EOF)).
    { intros fuel bf' Hb. rewrite peekFill_S. cbn [buf rd rerr isNil].
      destruct (Nat.ltb_spec (length bf') n); [|lia].
      destruct (Nat.ltb_spec (length bf') defaultBufSize); [|lia]. cbn [andb].
      rewrite fill_at_end.
      destruct fuel; [reflexivity|]. rewrite peekFill_S. cbn [buf rerr isNil].
      rewrite !andb_false_r. reflexivity. }
    destruct r as [|x r].
    - rewrite Hlast by (cbn [length] in Hn; lia). eexists. split; [reflexivity|].
      cbn [buf rerr]. split; [reflexivity | cbn [length] in Hn; lia].
    - rewrite peekFill_S. cbn [buf rd rerr isNil].
      destruct (Nat.ltb_spec (length bf) n); [|lia].
      destruct (Nat.ltb_spec (length bf) defaultBufSize); [|lia]. cbn [andb].
      rewrite fill_whole by (try discriminate; lia).
      destruct n as [|n]; [lia|].
      rewrite Hlast by (rewrite length_app; lia).
      eexists. split; [reflexivity|]. cbn [buf rerr]. split; [reflexivity|].
      rewrite length_app. lia. }
  destruct Hfill as (b1 & -> & He1 & Hb1).
  destruct (Nat.ltb_spec defaultBufSize n); [lia|].
  destruct (Nat.ltb_spec (length (buf b1)) n); [|lia].
  unfold readErr. rewrite He1. eauto.
Qed.

(** io.ReadFull on a buffered reader with fewer pending bytes than asked
    for. *)
Lemma Reader_Read_at_end (b : Reader) (k : nat) :
  rinv b -> pending b = [] -> (0 < k)%nat ->
  Read b k = ([], Some EOF, mkReader [] [] None).
Proof.
  intros [_ He] Hp Hk. destruct b as [bf r er]. cbn [rerr] in He. subst er.
  unfold pending in Hp. cbn [buf rd] in Hp. apply app_eq_nil in Hp as [-> ->].
  destruct k as [|k]; [lia|]. unfold Read, Reader_Read. cbn [buf rd rerr].
  destruct (defaultBufSize <=? S k)%nat; reflexivity.
Qed.

Lemma readLoop_Reader_short (fuel : nat) :
  forall (need : nat) (b : Reader) (acc : list byte),
    rinv b -> (length (pending b) < need)%nat -> (need <= fuel)%nat ->
    exists b', readLoop fuel b acc need = (acc ++ pending b, Some EOF, b').
Proof.
  induction fuel as [|fuel IH]; intros need b acc Hinv Hn Hf; [lia|].
  destruct need as [|need]; [lia|]. cbn [readLoop].
  destruct (pending b) as [|x p] eqn:Ep.
  - rewrite Reader_Read_at_end by (auto; lia). eauto.
  - destruct (Reader_Read_some b (S need) Hinv) as (n & b1 & -> & Hn1 & Hn2 & Hp1 & Hinv1);
      [lia | rewrite Ep; discriminate |].
    rewrite Ep in *. rewrite length_take.
    replace (n `min` length (x :: p))%nat with n by lia.
    destruct (IH (S need - n)%nat b1 (acc ++ take n (x :: p)) Hinv1) as (b' & ->);
      [rewrite Hp1, length_drop; lia | lia |].
    exists b'. rewrite Hp1, <- app_assoc, take_drop. reflexivity.
Qed.

Lemma ReadFull_Reader_short (b : Reader) (k : nat) :
  rinv b -> (length (pending b) < k)%nat ->
  exists b', ReadFull b k
             = (pending b,
                Some (match pending b with [] => EOF | _ => ErrUnexpectedEOF end), b').
Proof.
  intros Hinv Hk. unfold ReadFull.
  destruct (readLoop_Reader_short k k b [] Hinv Hk (Nat.le_refl _)) as (b' & ->).
  cbn [app]. destruct (Nat.leb_spec k (length (pending b))); [lia|].
  exists b'. destruct (pending b); reflexivity.
Qed.

Section OneDocument.
Context `{B : Bson}.

(** X9.  When readDoc returns a document it has taken exactly the bytes its
    first four bytes declare, from the front of the pending ones, and the
    document is what bson.Unmarshal makes of them; the size it returns is the
    declared one. *)
Theorem readDoc_takes_the_declared_size (b : Reader) (d : D) (n : Z) (b' : Reader) :
  readDoc b = (Ok (d, n), b') ->
  exists bDoc,
    pending b = bDoc ++ pending b'
    /\ Unmarshal bDoc = inr d
    /\ n = int32_of_le (take 4 (pending b))
    /\ 0 <= n /\ Z.of_nat (length bDoc) = n.
Proof.
  unfold readDoc, bind, try.
  destruct (Peek 4 b) as [[p [e|]] b1] eqn:Ep; [discriminate|].
  apply Peek_shows in Ep as (-> & _ & Hp1).
  destruct (Z.ltb_spec (int32_of_le (take 4 (pending b))) 0); [discriminate|].
  destruct (ReadFull b1 (Z.to_nat (int32_of_le (take 4 (pending b)))))
    as [[bDoc [e|]] b2] eqn:Er; [discriminate|].
  pose proof (ReadFull_exact Reader_Read_bound _ _ _ _ Er) as Hl.
  apply (ReadFull_law pending Reader_Read_law) in Er as [Hr _].
  destruct (Unmarshal bDoc) as [e|out] eqn:Eu; [discriminate|].
  intros [= <- <- <-]. exists bDoc. rewrite Hr, Hp1. repeat split; auto. lia.
Qed.

(** X10.  readDoc panics exactly when four bytes are pending and they declare
    a negative size. *)
Theorem readDoc_panics_on_negative_size_only (b : Reader) :
  rinv b ->
  ((exists msg, fst (readDoc b) = Panic msg)
   <-> (4 <= length (pending b))%nat /\ int32_of_le (take 4 (pending b)) < 0).
Proof.
  intros Hinv. split.
  - intros [msg Hm]. revert Hm. unfold readDoc, bind, try.
    destruct (Peek 4 b) as [[p [e|]] b1] eqn:Ep; [discriminate|].
    apply Peek_shows in Ep as (-> & Hl & _).
    destruct (Z.ltb_spec (int32_of_le (take 4 (pending b))) 0); [auto|].
    destruct (ReadFull b1 _) as [[bDoc [e|]] b2]; [discriminate|].
    destruct (Unmarshal bDoc); discriminate.
  - intros [Hl Hneg]. pose proof defaultBufSize_ge.
    destruct (Peek_Reader b 4 Hinv Hl) as (b1 & Hp & _); [lia|].
    unfold readDoc. rewrite (bind_try_ok _ _ _ _ _ Hp).
    destruct (Z.ltb_spec (int32_of_le (take 4 (pending b))) 0); [|lia].
    eexists. reflexivity.
Qed.

Lemma readDoc_no_size (b : Reader) :
  rinv b -> (length (pending b) < 4)%nat -> fst (readDoc b) = Err EOF.
Proof.
  intros Hinv Hl. pose proof defaultBufSize_ge.
  destruct (Peek_short 4 b Hinv Hl) as (p & b1 & Hp); [lia|].
  unfold readDoc, bind, try. rewrite Hp. reflexivity.
Qed.

Lemma readDoc_no_body (b : Reader) :
  rinv b -> (4 <= length (pending b))%nat ->
  Z.of_nat (length (pending b)) < int32_of_le (take 4 (pending b)) ->
  fst (readDoc b) = Err ErrUnexpectedEOF.
Proof.
  intros Hinv Hl Hn. pose proof defaultBufSize_ge.
  destruct (Peek_Reader b 4 Hinv Hl) as (b1 & Hp & Hp1 & Hinv1); [lia|].
  unfold readDoc. rewrite (bind_try_ok _ _ _ _ _ Hp).
  destruct (Z.ltb_spec (int32_of_le (take 4 (pending b))) 0); [lia|].
  destruct (ReadFull_Reader_short b1 (Z.to_nat (int32_of_le (take 4 (pending b)))) Hinv1)
    as (b2 & Hr); [rewrite Hp1; lia|].
  unfold bind, try. rewrite Hr, Hp1.
  destruct (pending b); [cbn [length] in Hl; lia | reflexivity].
Qed.

(** X11.  readDoc on a document that is cut short: io.EOF when fewer than
    four bytes are pending, and io.ErrUnexpectedEOF when the size is there
    and declares more bytes than are pending. *)
Theorem readDoc_cut_short (b : Reader) :
  rinv b ->
  ((length (pending b) < 4)%nat -> fst (readDoc b) = Err EOF)
  /\ ((4 <= length (pending b))%nat ->
      Z.of_nat (length (pending b)) < int32_of_le (take 4 (pending b)) ->
      fst (readDoc b) = Err ErrUnexpectedEOF).
Proof.
  intros Hinv. split; [apply readDoc_no_size | apply readDoc_no_body]; exact Hinv.
Qed.

End OneDocument.

(** * What ReadRequest does on every stream *)

(** ** It takes its bytes from the front of the stream *)

Lemma consuming_ret {A} (a : A) : consuming (ret a).
Proof. intros b res b' [= <- <-]. exists []. reflexivity. Qed.

Lemma consuming_fail {A} (e : error) : consuming (@fail Reader A e).
Proof. intros b res b' [= <- <-]. exists []. reflexivity. Qed.

Lemma consuming_panic {A} (msg : string) : consuming (@panic Reader A msg).
Proof. intros b res b' [= <- <-]. exists []. reflexivity. Qed.

Lemma consuming_diverge {A} : consuming (@diverge Reader A).
Proof. intros b res b' [= <- <-]. exists []. reflexivity. Qed.

Lemma consuming_bind {A C} (m : M Reader A) (k : A -> M Reader C) :
  consuming m -> (forall a, consuming (k a)) -> consuming (bind m k).
Proof.
  intros Hm Hk b res b'. unfold bind. destruct (m b) as [[a|e|msg|] b1] eqn:E;
    destruct (Hm _ _ _ E) as [t1 H1]; try (intros [= <- <-]; eauto).
  intros Hr. destruct (Hk _ _ _ _ Hr) as [t2 H2].
  exists (t1 ++ t2). rewrite <- app_assoc, <- H2. exact H1.
Qed.

Lemma consuming_try {A} (f : Reader -> A * option error * Reader) :
  (forall b a e b', f b = (a, e, b') -> exists taken, pending b = taken ++ pending b') ->
  consuming (try f).
Proof.
  intros Hf b res b'. unfold try. destruct (f b) as [[a [e|]] b1] eqn:E;
    intros [= <- <-]; eapply Hf; exact E.
Qed.

Lemma consuming_ReadFull (k : nat) : consuming (try (fun r : Reader => ReadFull r k)).
Proof.
  apply consuming_try. intros b a e b' Hr.
  apply (ReadFull_law pending Reader_Read_law) in Hr as [Hr _]. eauto.
Qed.

Section Consuming.
Context `{B : Bson}.

Lemma consuming_readInt32s (n : nat) : consuming (readInt32s n).
Proof.
  induction n as [|n IH]; cbn [readInt32s]; [apply consuming_ret|].
  apply consuming_bind; [apply consuming_ReadFull|]. intros bs.
  apply consuming_bind; [exact IH|]. intros v. apply consuming_ret.
Qed.

Lemma consuming_readInt64s (n : nat) : consuming (readInt64s n).
Proof.
  induction n as [|n IH]; cbn [readInt64s]; [apply consuming_ret|].
  apply consuming_bind; [apply consuming_ReadFull|]. intros bs.
  apply consuming_bind; [exact IH|]. intros v. apply consuming_ret.
Qed.

Lemma consuming_readDoc : consuming readDoc.
Proof.
  unfold readDoc. apply consuming_bind.
  { apply consuming_try. intros b a e b' Hr. apply Peek_law in Hr.
    exists []. rewrite Hr. reflexivity. }
  intros p. destruct (int32_of_le p <? 0); [apply consuming_panic|].
  apply consuming_bind; [apply consuming_ReadFull|].
  intros bDoc. destruct (Unmarshal bDoc); [apply consuming_fail | apply consuming_ret].
Qed.

Lemma consuming_readDocs (fuel : nat) :
  forall h bytesRead data, consuming (readDocs fuel h bytesRead data).
Proof.
  induction fuel as [|fuel IH]; intros h bytesRead data; cbn [readDocs];
    [apply consuming_diverge|].
  apply consuming_bind; [apply consuming_readDoc|]. intros dn.
  destruct (_ =? _); [apply consuming_ret | apply IH].
Qed.

Lemma consuming_readIds (fuel : nat) :
  forall h bytesRead data, consuming (readIds fuel h bytesRead data).
Proof.
  induction fuel as [|fuel IH]; intros h bytesRead data; cbn [readIds];
    [apply consuming_diverge|].
  apply consuming_bind; [apply consuming_readInt64s|]. intros n.
  destruct (_ =? _); [apply consuming_ret | apply IH].
Qed.

Lemma consuming_readFields (fuel : nat) (h : MsgHeader) (ts : list FieldType) :
  forall i bytesRead v, consuming (readFields fuel h ts i bytesRead v).
Proof.
  induction ts as [|t ts IH]; intros i bytesRead v; cbn [readFields]; [apply consuming_ret|].
  destruct (_ =? _); [apply consuming_ret|].
  destruct (_ >? _); [apply consuming_fail|].
  destruct t; try apply IH; apply consuming_bind; try (intros; apply IH).
  - apply consuming_readInt32s.
  - apply consuming_readInt64s.
  - apply consuming_try. intros b a e b' Hr. apply ReadString_law in Hr. eauto.
  - apply consuming_readDoc.
  - apply consuming_readDocs.
  - apply consuming_readIds.
Qed.

(** What readMsgHeader leaves when it returns a header. *)
Lemma readMsgHeader_inv (s : Stream) (h : MsgHeader) (r : Stream) :
  readMsgHeader s = (Ok h, r) ->
  (16 <= length s)%nat /\ r = drop 16 s /\ headerBytes h = take 16 s.
Proof.
  intros Hr. unfold readMsgHeader, bind in Hr.
  destruct (Nat.le_gt_cases 16 (length s)) as [Hl|Hl].
  - rewrite binaryRead_Stream in Hr by exact Hl. injection Hr as <- <-.
    repeat split; auto. apply headerBytes_of_bytes. rewrite length_take. lia.
  - rewrite binaryRead_Stream_short in Hr by exact Hl. discriminate.
Qed.

(** X12.  ReadRequest takes its bytes from the front of the stream, in order:
    what it leaves to the caller is a suffix of what it was given, whatever
    the outcome, and at least sixteen bytes shorter when a message is
    returned. *)
Theorem ReadRequest_leaves_a_suffix (s : Stream) :
  exists taken,
    s = taken ++ snd (ReadRequest s)
    /\ (forall m, fst (ReadRequest s) = Ok m -> (16 <= length taken)%nat).
Proof.
  unfold ReadRequest.
  destruct (readMsgHeader s) as [[h|e|msg|] r1] eqn:Eh.
  - apply readMsgHeader_inv in Eh as (Hl & -> & _).
    destruct (newReq h) as [req|].
    + destruct (readFields _ _ _ _ _ _ _) as [res b] eqn:Ef.
      destruct (consuming_readFields _ _ _ _ _ _ _ _ _ Ef) as [t Ht].
      rewrite pending_NewReader in Ht. unfold pending in Ht.
      exists (take 16 s ++ t ++ buf b).
      replace (snd (let (o, b0) := (res, b) in _)) with (rd b) by (destruct res; reflexivity).
      split.
      * rewrite <- !app_assoc, <- Ht, take_drop. reflexivity.
      * intros _ _. rewrite length_app, length_take. lia.
    + exists (take 16 s). cbn [snd fst]. split; [rewrite take_drop; reflexivity|].
      discriminate.
  - unfold readMsgHeader, binaryRead, bind, try in Eh.
    destruct (ReadFull s 16) as [[bs [e1|]] r2] eqn:E; [|discriminate].
    injection Eh as <- <-.
    apply (ReadFull_law (fun s : Stream => s) Stream_Read_law) in E as [Hr _].
    exists bs. cbn [snd fst]. split; [auto | discriminate].
  - exfalso. pose proof (readMsgHeader_ends s) as Hh. rewrite Eh in Hh.
    unfold readMsgHeader, binaryRead, bind, try in Eh.
    destruct (ReadFull s 16) as [[bs [e1|]] r2]; discriminate.
  - exfalso. pose proof (readMsgHeader_ends s) as Hh. rewrite Eh in Hh.
    apply Hh. reflexivity.
Qed.

End Consuming.

(** ** It ends, and panics in one place only *)

Lemma panicsInMake_ret {S A} (a : A) : panicsInMake (@ret S A a).
Proof. intros s msg s'. discriminate. Qed.

Lemma panicsInMake_fail {S A} (e : error) : panicsInMake (@fail S A e).
Proof. intros s msg s'. discriminate. Qed.

Lemma panicsInMake_diverge {S A} : panicsInMake (@diverge S A).
Proof. intros s msg s'. discriminate. Qed.

Lemma panicsInMake_try {S A} (f : S -> A * option error * S) : panicsInMake (try f).
Proof. intros s msg s'. unfold try. destruct (f s) as [[a [e|]] s1]; discriminate. Qed.

Lemma panicsInMake_bind {S A C} (m : M S A) (k : A -> M S C) :
  panicsInMake m -> (forall a, panicsInMake (k a)) -> panicsInMake (bind m k).
Proof.
  intros Hm Hk s msg s'. unfold bind. destruct (m s) as [[a|e|msg1|] s1] eqn:E;
    try discriminate.
  - apply Hk.
  - intros [= <- <-]. eapply Hm. exact E.
Qed.

Section Outcomes.
Context `{B : Bson}.

Lemma panicsInMake_readInt32s {R} `{ioReader R} (n : nat) : panicsInMake (readInt32s n).
Proof.
  induction n as [|n IH]; cbn [readInt32s]; [apply panicsInMake_ret|].
  apply panicsInMake_bind; [apply panicsInMake_try|]. intros bs.
  apply panicsInMake_bind; [exact IH|]. intros v. apply panicsInMake_ret.
Qed.

Lemma panicsInMake_readInt64s {R} `{ioReader R} (n : nat) : panicsInMake (readInt64s n).
Proof.
  induction n as [|n IH]; cbn [readInt64s]; [apply panicsInMake_ret|].
  apply panicsInMake_bind; [apply panicsInMake_try|]. intros bs.
  apply panicsInMake_bind; [exact IH|]. intros v. apply panicsInMake_ret.
Qed.

Lemma panicsInMake_readDoc : panicsInMake readDoc.
Proof.
  unfold readDoc. apply panicsInMake_bind; [apply panicsInMake_try|]. intros p.
  destruct (int32_of_le p <? 0).
  - intros s msg s' [= <- _]. reflexivity.
  - apply panicsInMake_bind; [apply panicsInMake_try|]. intros bDoc.
    destruct (Unmarshal bDoc); [apply panicsInMake_fail | apply panicsInMake_ret].
Qed.

Lemma panicsInMake_readDocs (fuel : nat) :
  forall h bytesRead data, panicsInMake (readDocs fuel h bytesRead data).
Proof.
  induction fuel as [|fuel IH]; intros h bytesRead data; cbn [readDocs];
    [apply panicsInMake_diverge|].
  apply panicsInMake_bind; [apply panicsInMake_readDoc|]. intros dn.
  destruct (_ =? _); [apply panicsInMake_ret | apply IH].
Qed.

Lemma panicsInMake_readIds (fuel : nat) :
  forall h bytesRead data, panicsInMake (readIds fuel h bytesRead data).
Proof.
  induction fuel as [|fuel IH]; intros h bytesRead data; cbn [readIds];
    [apply panicsInMake_diverge|].
  apply panicsInMake_bind; [apply panicsInMake_readInt64s|]. intros n.
  destruct (_ =? _); [apply panicsInMake_ret | apply IH].
Qed.

Lemma panicsInMake_readFields (fuel : nat) (h : MsgHeader) (ts : list FieldType) :
  forall i bytesRead v, panicsInMake (readFields fuel h ts i bytesRead v).
Proof.
  induction ts as [|t ts IH]; intros i bytesRead v; cbn [readFields];
    [apply panicsInMake_ret|].
  destruct (_ =? _); [apply panicsInMake_ret|].
  destruct (_ >? _); [apply panicsInMake_fail|].
  destruct t; try apply IH; apply panicsInMake_bind; try (intros; apply IH).
  - apply panicsInMake_readInt32s.
  - apply panicsInMake_readInt64s.
  - apply panicsInMake_try.
  - apply panicsInMake_readDoc.
  - apply panicsInMake_readDocs.
  - apply panicsInMake_readIds.
Qed.

(** X13.  With a bson package that rejects the empty slice, ReadRequest ends
    on every stream: it returns a message or an error, or it panics in the
    [make] of readDoc; the two element loops cannot go round for ever. *)
Theorem ReadRequest_always_ends (s : Stream) :
  rejectsEmpty ->
  (exists m, fst (ReadRequest s) = Ok m)
  \/ (exists e, fst (ReadRequest s) = Err e)
  \/ fst (ReadRequest s) = Panic makeslicePanic.
Proof.
  intros Hne. pose proof (ReadRequest_ends s Hne) as Hend. revert Hend.
  unfold ReadRequest.
  destruct (readMsgHeader s) as [[h|e|msg|] r1] eqn:Eh; cbn [fst].
  - destruct (newReq h) as [req|]; [|cbn [fst]; eauto].
    destruct (readFields _ _ _ _ _ _ _) as [[v|e|msg|] b] eqn:Ef; cbn [fst]; eauto.
    + apply panicsInMake_readFields in Ef. subst msg. auto.
    + congruence.
  - eauto.
  - exfalso. unfold readMsgHeader in Eh.
    assert (Hp : panicsInMake (@readMsgHeader Stream _)).
    { unfold readMsgHeader. apply panicsInMake_bind; [apply panicsInMake_try|].
      intros bs. apply panicsInMake_ret. }
    pose proof (Hp _ _ _ Eh) as Hm.
    unfold readMsgHeader, binaryRead, bind, try in Eh.
    destruct (ReadFull s 16) as [[bs [e1|]] r2]; discriminate.
  - congruence.
Qed.

End Outcomes.

(** * The messages ReadRequest returns *)

Lemma IndexByte_Some (s : list byte) (c : byte) (i : nat) :
  IndexByte s c = Some i ->
  take (S i) s = take i s ++ [c] /\ ~ In c (take i s).
Proof.
  revert i. induction s as [|x s IH]; intros i; cbn [IndexByte]; [discriminate|].
  destruct (Byte.eqb x c) eqn:E.
  - intros [= <-]. apply Byte.byte_dec_bl in E. subst x.
    cbn [take app]. rewrite take_0. split; [reflexivity | intros []].
  - destruct (IndexByte s c) as [j|]; [|discriminate]. intros [= <-].
    destruct (IH j eq_refl) as [Ht Hn]. cbn [take]. rewrite Ht.
    split; [reflexivity|]. intros [->|Hin]; [|exact (Hn Hin)].
    rewrite Byte.byte_dec_lb in E by reflexivity. discriminate.
Qed.

Lemma IndexByte_None (s : list byte) (c : byte) : IndexByte s c = None -> ~ In c s.
Proof.
  induction s as [|x s IH]; cbn [IndexByte]; [intros _ []|].
  destruct (Byte.eqb x c) eqn:E; [discriminate|].
  destruct (IndexByte s c); [discriminate|]. intros _ [->|Hin]; [|exact (IH eq_refl Hin)].
  rewrite Byte.byte_dec_lb in E by reflexivity. discriminate.
Qed.

(** A fragment ReadSlice returns ends in the delimiter when there is no
    error, and holds no delimiter when there is one. *)
Lemma readSliceLoop_fragment (delim : byte) (fuel : nat) :
  forall b frag e b',
    readSliceLoop fuel delim b = (frag, e, b') ->
    match e with
    | None => exists s, frag = s ++ [delim] /\ ~ In delim s
    | Some _ => ~ In delim frag
    end.
Proof.
  induction fuel as [|fuel IH]; intros b frag e b'; cbn [readSliceLoop];
    (destruct (IndexByte (buf b) delim) as [i|] eqn:Ei;
     [intros [= <- <- <-]; destruct (IndexByte_Some _ _ _ Ei) as [Ht Hn]; eauto|]);
    apply IndexByte_None in Ei;
    (destruct (rerr b) eqn:Er; [unfold readErr; rewrite Er; intros [= <- <- <-]; exact Ei|]);
    (destruct (defaultBufSize <=? length (buf b))%nat; [intros [= <- <- <-]; exact Ei|]).
  - intros [= <- <- <-]. intros [].
  - apply IH.
Qed.

Lemma collectFragments_string (delim : byte) (fuel : nat) :
  forall acc b str b',
    ~ In delim acc ->
    collectFragments fuel delim acc b = (str, None, b') ->
    exists s, str = s ++ [delim] /\ ~ In delim s.
Proof.
  induction fuel as [|fuel IH]; intros acc b str b' Hacc; cbn [collectFragments];
    destruct (ReadSlice delim b) as [[frag e1] b1] eqn:E;
    apply readSliceLoop_fragment in E;
    destruct e1 as [[]|]; try discriminate.
  - intros [= <- <-]. destruct E as (s & -> & Hs). exists (acc ++ s).
    rewrite <- app_assoc. split; [reflexivity|]. rewrite in_app_iff. tauto.
  - apply IH. rewrite in_app_iff. tauto.
  - intros [= <- <-]. destruct E as (s & -> & Hs). exists (acc ++ s).
    rewrite <- app_assoc. split; [reflexivity|]. rewrite in_app_iff. tauto.
Qed.

Lemma ReadString_string (delim : byte) (b : Reader) str b' :
  ReadString delim b = (str, None, b') ->
  exists s, str = s ++ [delim] /\ ~ In delim s.
Proof. apply collectFragments_string. intros []. Qed.

Section Sound.
Context `{B : Bson}.

Lemma readInt32s_in_range {R} `{ioReader R} (n : nat) :
  forall (r : R) vs r', readInt32s n r = (Ok vs, r') -> Forall is_int32 vs.
Proof.
  induction n as [|n IH]; intros r vs r'; cbn [readInt32s].
  - intros [= <- _]. apply Forall_nil. exact I.
  - unfold bind at 1. destruct (binaryRead 4 r) as [[bs|e|msg|] r1]; try discriminate.
    unfold bind. destruct (readInt32s n r1) as [[v|e|msg|] r2] eqn:E; try discriminate.
    intros [= <- _]. apply Forall_cons. split; [apply is_int32_int32_of_le|].
    eapply IH. exact E.
Qed.

Lemma readInt64s_in_range {R} `{ioReader R} (n : nat) :
  forall (r : R) vs r', readInt64s n r = (Ok vs, r') -> Forall is_int64 vs.
Proof.
  induction n as [|n IH]; intros r vs r'; cbn [readInt64s].
  - intros [= <- _]. apply Forall_nil. exact I.
  - unfold bind at 1. destruct (binaryRead 8 r) as [[bs|e|msg|] r1]; try discriminate.
    unfold bind. destruct (readInt64s n r1) as [[v|e|msg|] r2] eqn:E; try discriminate.
    intros [= <- _]. apply Forall_cons. split; [apply is_int64_int64_of_le|].
    eapply IH. exact E.
Qed.

Lemma is_int32_hd (vs : list Z) : Forall is_int32 vs -> is_int32 (hd 0 vs).
Proof. destruct 1; [unfold is_int32; cbn [hd]; lia | assumption]. Qed.

Lemma is_int64_hd (vs : list Z) : Forall is_int64 vs -> is_int64 (hd 0 vs).
Proof. destruct 1; [unfold is_int64; cbn [hd]; lia | assumption]. Qed.

Lemma readIds_in_range (fuel : nat) :
  forall h bytesRead data b res b',
    Forall is_int64 data ->
    readIds fuel h bytesRead data b = (Ok res, b') -> Forall is_int64 (fst res).
Proof.
  induction fuel as [|fuel IH]; intros h bytesRead data b res b' Hd; cbn [readIds];
    [discriminate|].
  unfold bind. destruct (readInt64s 1 b) as [[n|e|msg|] b1] eqn:E; try discriminate.
  apply readInt64s_in_range in E.
  assert (Forall is_int64 (data ++ n)) by (apply Forall_app; auto).
  destruct (_ =? _); [intros [= <- _]; assumption|]. apply IH. assumption.
Qed.

(** The loop over the fields keeps the type of every field, the fields
    before [i], and the values within their types. *)
Lemma readFields_sound (fuel : nat) (h : MsgHeader) (ts : list FieldType) :
  forall (done : list FieldType) (i : nat) (bytesRead : Z) (v : list FieldVal)
         (b : Reader) (v' : list FieldVal) (b' : Reader),
    map typeOf v = done ++ ts -> length done = i -> Forall inRange v ->
    readFields fuel h ts i bytesRead v b = (Ok v', b') ->
    map typeOf v' = map typeOf v /\ take i v' = take i v /\ Forall inRange v'.
Proof.
  induction ts as [|t ts IH]; intros done i bytesRead v b v' b' Hty Hi Hv;
    cbn [readFields]; [intros [= <- _]; auto|].
  destruct (_ =? _); [intros [= <- _]; auto|].
  destruct (_ >? _); [discriminate|].
  assert (Hnext : forall (f : FieldVal) br b1,
             typeOf f = t -> inRange f ->
             readFields fuel h ts (S i) br (<[i := f]> v) b1 = (Ok v', b') ->
             map typeOf v' = map typeOf v /\ take i v' = take i v /\ Forall inRange v').
  { intros f br b1 Hf Hr Hrun.
    assert (Hlt : (i < length v)%nat).
    { rewrite <- (length_map typeOf), Hty, length_app. cbn [length]. lia. }
    assert (Hty' : map typeOf (<[i := f]> v) = map typeOf v).
    { rewrite list_fmap_insert. apply list_insert_id.
      rewrite Hty, Hf, lookup_app_r by lia.
      rewrite Hi, Nat.sub_diag. reflexivity. }
    destruct (IH (done ++ [t]) (S i) br (<[i := f]> v) b1 v' b') as (H1 & H2 & H3); auto.
    - rewrite Hty', Hty, <- app_assoc. reflexivity.
    - rewrite length_app. cbn [length]. lia.
    - apply Forall_insert; assumption.
    - split; [congruence|]. split; [|exact H3].
      apply (f_equal (take i)) in H2. rewrite !take_take in H2.
      replace (i `min` S i)%nat with i in H2 by lia.
      rewrite H2, take_insert_ge by lia. reflexivity. }
  destruct t; unfold bind.
  - intros Hrun.
    destruct (IH (done ++ [PtrMsgHeader]) (S i) bytesRead v b v' b') as (H1 & H2 & H3); auto.
    + rewrite Hty, <- app_assoc. reflexivity.
    + rewrite length_app. cbn [length]. lia.
    + split; [exact H1|]. split; [|exact H3].
      apply (f_equal (take i)) in H2. rewrite !take_take in H2.
      replace (i `min` S i)%nat with i in H2 by lia. exact H2.
  - destruct (readInt32s 1 b) as [[n|e|msg|] b1] eqn:E; try discriminate.
    apply Hnext; [reflexivity|]. apply is_int32_hd. eapply readInt32s_in_range. exact E.
  - destruct (readInt64s 1 b) as [[n|e|msg|] b1] eqn:E; try discriminate.
    apply Hnext; [reflexivity|]. apply is_int64_hd. eapply readInt64s_in_range. exact E.
  - unfold try. destruct (ReadString Byte.x00 b) as [[str [e|]] b1] eqn:E; [discriminate|].
    apply Hnext; [reflexivity|]. cbn [inRange].
    destruct (ReadString_string _ _ _ _ E) as (s & -> & Hs).
    rewrite length_app. cbn [length].
    replace (length s + 1 - 1)%nat with (length s) by lia.
    rewrite take_app_length. exact Hs.
  - destruct (readDoc b) as [[dn|e|msg|] b1]; try discriminate.
    apply Hnext; [reflexivity | exact I].
  - destruct (readDocs fuel h bytesRead [] b) as [[db|e|msg|] b1]; try discriminate.
    apply Hnext; [reflexivity | exact I].
  - destruct (readIds fuel h bytesRead [] b) as [[db|e|msg|] b1] eqn:E; try discriminate.
    apply Hnext; [reflexivity|]. cbn [inRange].
    eapply readIds_in_range; [|exact E]. apply Forall_nil. exact I.
Qed.

Lemma inRange_zeroValue (ts : list FieldType) : Forall inRange (map zeroValue ts).
Proof.
  induction ts as [|t ts IH]; [apply Forall_nil; exact I|].
  cbn [map]. apply Forall_cons. split; [|exact IH].
  destruct t; cbn [zeroValue inRange]; try exact I.
  - unfold is_int32. lia.
  - unfold is_int64. lia.
  - intros [].
  - apply Forall_nil. exact I.
Qed.

(** X14.  A message ReadRequest returns is a value of the struct the opcode
    selects: its first field is the header read from the first sixteen bytes,
    which declares at least sixteen bytes; every field has the type of its
    declaration; integers are within their width and no string holds a 0x00
    byte. *)
Theorem ReadRequest_returns_a_struct_value (s : Stream) (m : RequestMsg) (s' : Stream) :
  ReadRequest s = (Ok m, s') ->
  exists h body,
    readMsgHeader s = (Ok h, drop 16 s)
    /\ fields m = VHeader h :: body
    /\ wellTyped m
    /\ GetOp m = Opcode h
    /\ HEADER_SIZE <= MessageLength h
    /\ Forall inRange body.
Proof.
  unfold ReadRequest.
  destruct (readMsgHeader s) as [[h|e|msg|] r1] eqn:Eh; try discriminate.
  apply readMsgHeader_inv in Eh as (_ & -> & _).
  destruct (newReq h) as [req|] eqn:En; [|discriminate].
  destruct (newReq_Some _ _ En) as (Hop & Hty & Hf).
  destruct (readFields _ _ _ _ _ _ _) as [[v|e|msg|] b] eqn:Ef; try discriminate.
  intros [= <- _]. cbn [fields structType]. unfold wellTyped in *. cbn [fields structType].
  assert (Hsf : structFields (structType req) = PtrMsgHeader :: tail (structFields (structType req))).
  { destruct (structType req); reflexivity. }
  assert (Hv0 : Forall inRange (fields req)).
  { rewrite Hf. apply Forall_cons. split; [exact I | apply inRange_zeroValue]. }
  rewrite Hsf in Ef. cbn [readFields] in Ef. unfold HEADER_SIZE in *.
  destruct (Z.eqb_spec 16 (MessageLength h)) as [E16|N16].
  { injection Ef as <- _. exists h, (map zeroValue (tail (structFields (structType req)))).
    rewrite Hf in Hv0. apply Forall_cons in Hv0 as [_ Hv0].
    repeat split; auto. lia. }
  destruct (Z.gtb_spec 16 (MessageLength h)); [discriminate|].
  destruct (readFields_sound _ _ _ [PtrMsgHeader] 1 _ _ _ _ _ (eq_trans Hty Hsf) eq_refl Hv0 Ef)
    as (H1 & H2 & H3).
  rewrite Hf in H2. cbn [take] in H2. rewrite take_0 in H2.
  destruct v as [|f0 body]; [discriminate|]. cbn [take] in H2. rewrite take_0 in H2.
  injection H2 as ->. exists h, body. apply Forall_cons in H3 as [_ H3].
  repeat split; auto; try congruence; lia.
Qed.

End Sound.

(** * Frames of valid messages *)

Section Frames.
Context `{B : Bson}.

Lemma ReadRequest_frame_suffix (m : RequestMsg) (h : MsgHeader)
    (body : list FieldVal) (rest : Stream) :
  validMsg m h body ->
  exists r' lost,
    ReadRequest (headerBytes h ++ bodyBytes body ++ rest) = (Ok m, r')
    /\ rest = lost ++ r'.
Proof.
  intros [Hf Ht Hop [Hid Hrt] Hv Hlay HL Hsz].
  unfold ReadRequest.
  rewrite readMsgHeader_Stream; auto; [|rewrite Hop; apply is_int32_GetOp].
  rewrite (newReq_GetOp m h Hop).
  unfold wellTyped in Ht. rewrite Hf in Ht. cbn [map typeOf] in Ht.
  unfold structLit. cbn [structType fields]. rewrite <- Ht. cbn [tail readFields].
  unfold HEADER_SIZE in *.
  assert (Hm : m = mkReq (structType m) (VHeader h :: body)).
  { destruct m as [t fs0]; cbn [fields structType] in *. congruence. }
  destruct (Z.eqb_spec 16 (MessageLength h)) as [E|NE].
  - assert (Hb : bodyBytes body = []) by (apply nil_length_inv; lia).
    apply bodyBytes_nil_absent in Hb as Ha; [|exact Hv].
    destruct (forallb_isAbsent _ Ha) as (_ & Hzero & _).
    unfold ret. rewrite map_map, Hzero, Hb. exists rest, []. rewrite <- Hm. auto.
  - destruct (Z.gtb_spec 16 (MessageLength h)); [lia|].
    destruct (readFields_body h rest (S (length (bodyBytes body ++ rest))) body 1 16
                (VHeader h :: map zeroValue (map typeOf body)) (NewReader (bodyBytes body ++ rest)))
      as (b' & Hr & Hp & _); auto.
    + apply rinv_NewReader.
    + cbn [length]. rewrite !length_map. reflexivity.
    + cbn [drop]. rewrite drop_0, map_map. reflexivity.
    + rewrite length_app. lia.
    + rewrite Hr. cbn [take app]. rewrite take_0. cbn [app].
      exists (rd b'), (buf b'). rewrite <- Hm. split; [reflexivity|].
      symmetry. exact Hp.
Qed.

Lemma ReadRequest_whole_frame (m : RequestMsg) (h : MsgHeader) (body : list FieldVal) :
  validMsg m h body ->
  ReadRequest (headerBytes h ++ bodyBytes body) = (Ok m, []).
Proof.
  intros Hm.
  destruct (ReadRequest_frame_suffix m h body [] Hm) as (r' & lost & Hr & Hrest).
  rewrite app_nil_r in Hr. symmetry in Hrest. apply app_eq_nil in Hrest as [_ ->].
  exact Hr.
Qed.

(** X15.  ReadRequest decodes the frame of a valid message to that message,
    whatever follows the frame on the stream; what it leaves to the caller is
    a suffix of what followed the frame, and nothing when the frame was all
    there was. *)
Theorem ReadRequest_decodes_a_valid_frame (m : RequestMsg) (h : MsgHeader)
    (body : list FieldVal) (rest : Stream) :
  validMsg m h body ->
  (exists r' lost,
      ReadRequest (headerBytes h ++ bodyBytes body ++ rest) = (Ok m, r')
      /\ rest = lost ++ r')
  /\ ReadRequest (headerBytes h ++ bodyBytes body) = (Ok m, []).
Proof.
  intros Hm. split.
  - apply ReadRequest_frame_suffix. exact Hm.
  - apply ReadRequest_whole_frame. exact Hm.
Qed.

(** X16.  WriteRequest on a connection that takes every write sends the
    header as it is, then the bytes of each field in order, after what was
    sent before, and returns nil. *)
Theorem WriteRequest_sends_the_frame (m : RequestMsg) (h : MsgHeader)
    (body : list FieldVal) (out : list byte) :
  fields m = VHeader h :: body -> Forall validField body ->
  WriteRequest m (mkSink out false)
  = (None, mkSink (out ++ headerBytes h ++ bodyBytes body) false)
  /\ length (headerBytes h ++ bodyBytes body) = (16 + length (bodyBytes body))%nat.
Proof.
  intros Hf Hv. split; [apply WriteRequest_frame; assumption|].
  rewrite length_app, length_headerBytes. reflexivity.
Qed.

(** X17.  Both round trips hold for a valid message: what WriteRequest sends
    for it is decoded by ReadRequest to the same message, and what
    ReadRequest returns for its frame is sent by WriteRequest as the same
    bytes. *)
Theorem valid_frames_round_trip (m : RequestMsg) (h : MsgHeader)
    (body : list FieldVal) (rest out : list byte) :
  validMsg m h body ->
  let frame := headerBytes h ++ bodyBytes body in
  (exists r', ReadRequest (sent (snd (WriteRequest m (mkSink [] false))) ++ rest) = (Ok m, r'))
  /\ (exists m' r', ReadRequest (frame ++ rest) = (Ok m', r')
                    /\ WriteRequest m' (mkSink out false) = (None, mkSink (out ++ frame) false)).
Proof.
  intros Hm frame. subst frame.
  destruct (ReadRequest_frame_suffix m h body rest Hm) as (r' & lost & Hr & _).
  pose proof (WriteRequest_frame m h body) as Hw.
  split.
  - rewrite (Hw []) by apply Hm. cbn [snd sent app]. rewrite <- app_assoc. eauto.
  - exists m, r'. rewrite <- app_assoc. split; [exact Hr|]. apply Hw; apply Hm.
Qed.

End Frames.

(** * Writes that stay in the buffer *)

Lemma Writer_Write_buffered (p : list byte) (w : Writer) :
  werr w = None -> (length (wbuf w) + length p <= defaultBufSize)%nat ->
  Writer_Write p w = (None, mkWriter (wbuf w ++ p) (wr w) None).
Proof.
  intros He Hl. unfold Writer_Write. cbn [writeLoop]. unfold Available.
  destruct (Nat.ltb_spec (defaultBufSize - length (wbuf w)) (length p)); [lia|].
  cbn [andb]. rewrite He. reflexivity.
Qed.

Lemma WriteString_buffered (s : list byte) (w : Writer) :
  werr w = None -> (length (wbuf w) + length s <= defaultBufSize)%nat ->
  WriteString s w = (None, mkWriter (wbuf w ++ s) (wr w) None).
Proof.
  intros He Hl. unfold WriteString. cbn [writeStringLoop]. unfold Available.
  destruct (Nat.ltb_spec (defaultBufSize - length (wbuf w)) (length s)); [lia|].
  cbn [andb]. rewrite He. reflexivity.
Qed.

Lemma WriteByte_buffered (c : byte) (w : Writer) :
  werr w = None -> (length (wbuf w) + 1 <= defaultBufSize)%nat ->
  WriteByte c w = (None, mkWriter (wbuf w ++ [c]) (wr w) None).
Proof.
  intros He Hl. unfold WriteByte, Available. rewrite He.
  destruct (Nat.leb_spec (defaultBufSize - length (wbuf w)) 0); [lia|]. reflexivity.
Qed.

Section Buffered.
Context `{B : Bson}.

Lemma writeField_buffered (f : FieldVal) (w : Writer) :
  (validField f \/ exists h, f = VHeader h) ->
  werr w = None -> (length (wbuf w) + length (wire f) <= defaultBufSize)%nat ->
  writeField f None w = (None, mkWriter (wbuf w ++ wire f) (wr w) None).
Proof.
  intros Hv He Hl.
  assert (Hw : w = mkWriter (wbuf w ++ []) (wr w) None).
  { destruct w as [wb ws we]; cbn [wbuf wr werr] in *. subst. rewrite app_nil_r. reflexivity. }
  destruct f as [h|n|n|s|d|ds|ids]; cbn [writeField wire validField] in *; unfold binaryWrite.
  - apply Writer_Write_buffered; assumption.
  - apply Writer_Write_buffered; assumption.
  - apply Writer_Write_buffered; assumption.
  - rewrite length_app in Hl. cbn [length] in Hl.
    rewrite WriteString_buffered by (auto; lia).
    rewrite WriteByte_buffered by (cbn [wbuf werr]; rewrite ?length_app; auto; lia).
    cbn [wbuf wr]. rewrite <- app_assoc. reflexivity.
  - destruct Hv as [[Hv|Hv]|(h & Hh)]; [| |discriminate].
    + subst d. unfold writeBson. cbn [length Nat.ltb Nat.leb]. rewrite Hw at 1. reflexivity.
    + destruct d as [|x d]; [destruct Hv; congruence|].
      destruct Hv as (_ & bs & Hm & _). unfold writeBson, docBytes in *.
      cbn [length Nat.ltb Nat.leb]. rewrite Hm in *.
      apply Writer_Write_buffered; assumption.
  - destruct Hv as [Hv|(h & Hh)]; [|discriminate].
    revert w He Hl Hw. induction Hv as [|d ds Hd Hds IH]; intros w He Hl Hw.
    + cbn [writeDocs map concat]. rewrite Hw at 1. reflexivity.
    + cbn [writeDocs map concat] in *. rewrite length_app in Hl.
      destruct Hd as (Hne & bs & Hm & _). unfold writeBson, docBytes in *.
      destruct d as [|x d]; [congruence|]. cbn [length Nat.ltb Nat.leb]. rewrite Hm in *.
      rewrite Writer_Write_buffered by (auto; lia).
      rewrite IH; cbn [wbuf wr werr]; rewrite ?length_app, <- ?app_assoc, ?app_nil_r;
        auto; lia.
  - clear Hv. revert w He Hl Hw. induction ids as [|x ids IH]; intros w He Hl Hw.
    + cbn [writeIds map concat]. rewrite Hw at 1. reflexivity.
    + cbn [writeIds map concat] in *. rewrite length_app, length_le_of_int64 in Hl.
      unfold binaryWrite.
      rewrite Writer_Write_buffered by (rewrite ?length_le_of_int64; auto; lia).
      unfold binaryWrite in IH.
      rewrite IH; cbn [wbuf wr werr];
        rewrite ?length_app, ?length_le_of_int64, <- ?app_assoc, ?app_nil_r; auto; lia.
Qed.

Lemma writeFields_buffered (fs : list FieldVal) :
  forall (w : Writer),
    Forall (fun f => validField f \/ exists h, f = VHeader h) fs ->
    werr w = None -> (length (wbuf w) + length (bodyBytes fs) <= defaultBufSize)%nat ->
    writeFields fs None w = (None, mkWriter (wbuf w ++ bodyBytes fs) (wr w) None).
Proof.
  induction fs as [|f fs IH]; intros w Hv He Hl; unfold bodyBytes in *;
    cbn [writeFields map concat] in *.
  - destruct w as [wb ws we]; cbn [wbuf wr werr] in *. subst. rewrite app_nil_r. reflexivity.
  - apply Forall_cons in Hv as [Hf Hv]. rewrite length_app in Hl.
    rewrite (writeField_buffered f w Hf He) by lia.
    rewrite IH; cbn [wbuf wr werr]; rewrite ?length_app, <- ?app_assoc; auto; lia.
Qed.

(** WriteRequest for a frame that fits the buffer: the bytes go out in the
    deferred Flush, and nil is returned whatever that Flush meets. *)
Lemma WriteRequest_fits (m : RequestMsg) (h : MsgHeader) (body : list FieldVal) (w : Sink) :
  fields m = VHeader h :: body -> Forall validField body ->
  (16 + length (bodyBytes body) <= defaultBufSize)%nat ->
  WriteRequest m w
  = (None, wr (snd (Flush (mkWriter (headerBytes h ++ bodyBytes body) w None)))).
Proof.
  intros Hf Hv Hl. unfold WriteRequest. rewrite Hf.
  rewrite writeFields_buffered.
  - cbn [NewWriter wbuf wr app]. unfold bodyBytes. cbn [map concat wire].
    destruct (Flush _) as [e' w']. reflexivity.
  - apply Forall_cons. split; [right; eauto|].
    eapply Forall_impl; [exact Hv|]. cbn. auto.
  - reflexivity.
  - unfold bodyBytes. cbn [NewWriter wbuf length map concat wire].
    rewrite length_app, length_headerBytes. exact Hl.
Qed.

Lemma Flush_broken (bs out : list byte) :
  wr (snd (Flush (mkWriter bs (mkSink out true) None))) = mkSink out true.
Proof.
  unfold Flush. cbn [werr wbuf wr]. destruct bs as [|x bs]; [reflexivity|].
  unfold Write, Sink_Write. cbn [broken isNil andb]. rewrite andb_false_r. reflexivity.
Qed.

(** X18.  A message whose frame fits the buffer of the bufio.Writer (4096
    bytes) is only written out by the deferred Flush, whose error is dropped:
    on a connection the peer has reset WriteRequest returns nil, and nothing
    is sent. *)
Theorem WriteRequest_hides_a_failed_flush (m : RequestMsg) (h : MsgHeader)
    (body : list FieldVal) (out : list byte) :
  fields m = VHeader h :: body -> Forall validField body ->
  (16 + length (bodyBytes body) <= defaultBufSize)%nat ->
  WriteRequest m (mkSink out true) = (None, mkSink out true).
Proof.
  intros Hf Hv Hl. rewrite (WriteRequest_fits m h body _ Hf Hv Hl), Flush_broken.
  reflexivity.
Qed.

End Buffered.

(** * The error WriteRequest returns *)

Section LastError.
Context `{B : Bson}.

Lemma writeFields_app (fs1 fs2 : list FieldVal) :
  forall e w,
    writeFields (fs1 ++ fs2) e w
    = let '(e', w') := writeFields fs1 e w in writeFields fs2 e' w'.
Proof.
  induction fs1 as [|f fs1 IH]; intros e w; cbn [app writeFields]; [reflexivity|].
  destruct (writeField f e w) as [e1 w1]. apply IH.
Qed.

Lemma writeBson_Marshal_error (q : D) (err : error) (w : Writer) :
  q <> [] -> Marshal q = inl err -> writeBson q w = (Some err, w).
Proof.
  intros Hq Hm. unfold writeBson. destruct q as [|x q]; [congruence|].
  cbn [length Nat.ltb Nat.leb]. rewrite Hm. reflexivity.
Qed.

(** X19.  WriteRequest returns what the write of the last field returned.  An
    error of bson.Marshal on a document is returned when the document is the
    last field (Delete); when another document follows (Query, Update) the
    error is overwritten, WriteRequest returns nil, and the frame goes out
    without the document. *)
Theorem WriteRequest_returns_the_last_error (t : StructType) (h : MsgHeader)
    (pre : list FieldVal) (q d' : D) (err : error) (out : list byte) :
  Forall validField pre -> validField (VD d') ->
  q <> [] -> Marshal q = inl err ->
  fst (WriteRequest (mkReq t (VHeader h :: pre ++ [VD q])) (mkSink out false)) = Some err
  /\ WriteRequest (mkReq t (VHeader h :: pre ++ [VD q; VD d'])) (mkSink out false)
     = (None, mkSink (out ++ headerBytes h ++ bodyBytes pre ++ wire (VD d')) false).
Proof.
  intros Hv Hd Hq Hm.
  destruct (writeFields_ok (VHeader h :: pre) (NewWriter (mkSink out false)))
    as (w1 & Hw & Hinv1 & Hw1).
  { unfold winv; cbn. repeat split; auto; lia. }
  { constructor; [right; eauto|]. eapply Forall_impl; [exact Hv|]. cbn. auto. }
  split.
  - unfold WriteRequest. cbn [fields].
    change (VHeader h :: pre ++ [VD q]) with ((VHeader h :: pre) ++ [VD q]).
    rewrite writeFields_app, Hw. cbn [writeFields writeField].
    rewrite (writeBson_Marshal_error q err w1 Hq Hm).
    destruct (Flush w1) as [e' w']. reflexivity.
  - unfold WriteRequest. cbn [fields].
    change (VHeader h :: pre ++ [VD q; VD d']) with ((VHeader h :: pre) ++ [VD q; VD d']).
    rewrite writeFields_app, Hw. cbn [writeFields writeField].
    rewrite (writeBson_Marshal_error q err w1 Hq Hm).
    destruct (writeField_ok (VD d') w1 Hinv1 (or_introl Hd)) as (w2 & Hw2 & Hinv2 & Hwr2).
    cbn [writeField] in Hw2. rewrite Hw2.
    destruct (Flush_ok w2 Hinv2) as (w' & -> & (Hl' & He' & Hb') & Hw' & Hbuf').
    f_equal. unfold written in *. rewrite Hbuf', app_nil_r in Hw'.
    destruct (wr w') as [o br]; cbn [sent broken] in *. subst br. f_equal.
    rewrite Hw', Hwr2, Hw1. cbn [NewWriter wbuf wr sent]. rewrite app_nil_r.
    unfold bodyBytes. cbn [map concat wire]. rewrite <- !app_assoc. reflexivity.
Qed.

End LastError.

(** * The relay *)

Lemma error_eqb_EOF (e : error) : error_eqb e EOF = false -> e <> EOF.
Proof. intros He ->. discriminate. Qed.

Section RelayFacts.
Context `{B : Bson}.

Lemma recordOK_msgRecord (r : RequestMsg) :
  recordOK (mkLogMsg (Opcode_String (GetOp r)) (inl r)).
Proof.
  unfold recordOK, GetOp. cbn [Content Type_].
  split; [reflexivity|]. destruct (structType r); split; discriminate.
Qed.

Lemma logError_appends (e : error) (s : Session) :
  exists l, log (logError e s) = log s ++ l /\ Forall recordOK l
            /\ client (logError e s) = client s /\ backend (logError e s) = backend s.
Proof.
  unfold logError. destruct (error_eqb e EOF) eqn:He.
  - exists []. rewrite app_nil_r. repeat split; try (apply Forall_nil; exact I).
  - exists [mkLogMsg "ERROR" (inr e)]. cbn [printLog log client backend].
    repeat split. apply Forall_cons. split; [|apply Forall_nil; exact I].
    split; [reflexivity | apply error_eqb_EOF; exact He].
Qed.

Lemma connRead_isClosed (c : Conn) :
  isClosed (snd (connRead c)) = isClosed c /\ tx (snd (connRead c)) = tx c.
Proof. unfold connRead. destruct (ReadRequest (rx c)). split; reflexivity. Qed.

Lemma connWrite_isClosed (r : RequestMsg) (c : Conn) :
  isClosed (snd (connWrite r c)) = isClosed c /\ rx (snd (connWrite r c)) = rx c.
Proof. unfold connWrite. destruct (WriteRequest r (tx c)). split; reflexivity. Qed.

(** X20.  The loop of handleConnection only adds records to what was printed:
    a message under the name of its opcode, or an error other than io.EOF
    under "ERROR".  It closes neither connection itself. *)
Theorem relay_prints_records (fuel : nat) (p : Proxy) :
  forall s : Session,
  exists l,
    log (snd (relay fuel p s)) = log s ++ l
    /\ Forall recordOK l
    /\ isClosed (client (snd (relay fuel p s))) = isClosed (client s)
    /\ isClosed (backend (snd (relay fuel p s))) = isClosed (backend s).
Proof.
  induction fuel as [|fuel IH]; intros s; cbn [relay].
  { exists []. rewrite app_nil_r. repeat split; try (apply Forall_nil; exact I). }
  pose proof (connRead_isClosed (client s)) as [Hc1 _].
  destruct (connRead (client s)) as [[r|e|msg|] conn]; cbn [snd] in *.
  - set (s1 := logMsg r (setClient conn s)).
    assert (Hs1 : log s1 = log s ++ [mkLogMsg (Opcode_String (GetOp r)) (inl r)]
                  /\ client s1 = conn /\ backend s1 = backend s) by (repeat split).
    destruct Hs1 as (Hl1 & Hcl1 & Hb1).
    pose proof (connWrite_isClosed r (backend s1)) as [Hw1 _].
    destruct (connWrite r (backend s1)) as [[e|] c]; cbn [snd] in *.
    + destruct (logError_appends e (setBackend c s1)) as (l & Hl & Hok & Hcl & Hbk).
      exists (mkLogMsg (Opcode_String (GetOp r)) (inl r) :: l). cbn [snd].
      rewrite Hl, Hcl, Hbk. cbn [setBackend log client backend].
      rewrite Hl1, Hcl1, <- app_assoc. repeat split; try congruence.
      apply Forall_cons. split; [apply recordOK_msgRecord | exact Hok].
    + pose proof (connRead_isClosed c) as [Hc2 _].
      destruct (connRead c) as [[r'|e|msg|] c']; cbn [snd] in *.
      * set (s2 := if LogResp p then logMsg r' (setBackend c' s1) else setBackend c' s1).
        assert (Hs2 : exists l2, log s2 = log s1 ++ l2 /\ Forall recordOK l2
                                 /\ client s2 = conn /\ backend s2 = c').
        { subst s2. destruct (LogResp p).
          - exists [mkLogMsg (Opcode_String (GetOp r')) (inl r')]. repeat split; auto.
            apply Forall_cons. split; [apply recordOK_msgRecord | apply Forall_nil; exact I].
          - exists []. cbn [setBackend log client backend]. rewrite app_nil_r.
            repeat split; auto; try (apply Forall_nil; exact I). }
        destruct Hs2 as (l2 & Hl2 & Hok2 & Hcl2 & Hb2).
        pose proof (connWrite_isClosed r' (client s2)) as [Hw2 _].
        destruct (connWrite r' (client s2)) as [e2 conn2]; cbn [snd] in *.
        destruct (IH (setClient conn2 s2)) as (l & Hl & Hok & Hcl & Hbk).
        exists (mkLogMsg (Opcode_String (GetOp r)) (inl r) :: l2 ++ l).
        rewrite Hl, Hcl, Hbk. cbn [setClient log client backend].
        rewrite Hl2, Hl1, <- !app_assoc. cbn [app].
        repeat split; try congruence.
        apply Forall_cons. split; [apply recordOK_msgRecord|].
        apply Forall_app. auto.
      * destruct (logError_appends e (setBackend c' s1)) as (l & Hl & Hok & Hcl & Hbk).
        exists (mkLogMsg (Opcode_String (GetOp r)) (inl r) :: l). cbn [snd].
        rewrite Hl, Hcl, Hbk. cbn [setBackend log client backend].
        rewrite Hl1, Hcl1, <- app_assoc. repeat split; try congruence.
        apply Forall_cons. split; [apply recordOK_msgRecord | exact Hok].
      * exists [mkLogMsg (Opcode_String (GetOp r)) (inl r)]. cbn [snd setBackend log client backend].
        rewrite Hl1, Hcl1. repeat split; try congruence.
        apply Forall_cons. split; [apply recordOK_msgRecord | apply Forall_nil; exact I].
      * exists [mkLogMsg (Opcode_String (GetOp r)) (inl r)]. cbn [snd setBackend log client backend].
        rewrite Hl1, Hcl1. repeat split; try congruence.
        apply Forall_cons. split; [apply recordOK_msgRecord | apply Forall_nil; exact I].
  - destruct (logError_appends e (setClient conn s)) as (l & Hl & Hok & Hcl & Hbk).
    exists l. cbn [snd]. rewrite Hl, Hcl, Hbk. cbn [setClient log client backend]. auto.
  - exists []. cbn [snd setClient log client backend]. rewrite app_nil_r.
    repeat split; auto; try (apply Forall_nil; exact I).
  - exists []. cbn [snd setClient log client backend]. rewrite app_nil_r.
    repeat split; auto; try (apply Forall_nil; exact I).
Qed.

End RelayFacts.

Section Exchange.
Context `{B : Bson}.

Lemma relay_at_end (fuel : nat) (p : Proxy) (s : Session) :
  rx (client s) = [] ->
  relay (S fuel) p s = (Ok tt, s).
Proof.
  intros Hrx. cbn [relay]. unfold connRead. rewrite Hrx, ReadRequest_nil.
  unfold logError, setClient. cbn [error_eqb].
  destruct s as [[crx ctx ccl] bk lg]. cbn [client rx tx isClosed backend log] in *.
  subst crx. reflexivity.
Qed.

(** X21.  One exchange through handleConnection.  The client has sent the
    frame of a valid request and the backend answers with the frame of a
    valid reply: the backend is sent the bytes of the request and the client
    the bytes of the reply, unchanged; the request is printed, the reply is
    printed when LogResp is set; the next read finds the end of the client's
    stream, which is passed over in silence, and both connections are
    closed. *)
Theorem handleConnection_forwards_an_exchange (p : Proxy) (m m' : RequestMsg)
    (h h' : MsgHeader) (body body' : list FieldVal) (co bo : list byte) :
  validMsg m h body -> validMsg m' h' body' ->
  handleConnection p
    (mkConn (headerBytes h ++ bodyBytes body) (mkSink co false) false)
    (Some (mkConn (headerBytes h' ++ bodyBytes body') (mkSink bo false) false), None)
  = mkHandled (Ok tt)
      (mkConn [] (mkSink (co ++ headerBytes h' ++ bodyBytes body') false) true)
      (Some (mkConn [] (mkSink (bo ++ headerBytes h ++ bodyBytes body) false) true))
      (msgRecord m :: if LogResp p then [msgRecord m'] else []).
Proof.
  intros Hm Hm'. unfold handleConnection. cbn [rx].
  assert (Hlen : exists k, length (headerBytes h ++ bodyBytes body) = S k).
  { rewrite length_app, length_headerBytes. eexists. reflexivity. }
  destruct Hlen as [k ->]. remember (S k) as fuel eqn:Hfuel.
  cbn [relay]. unfold connRead at 1. cbn [client rx tx isClosed].
  rewrite (ReadRequest_whole_frame m h body Hm).
  unfold logMsg, setClient, printLog. cbn [client backend log app].
  unfold connWrite at 1. cbn [rx tx isClosed].
  rewrite (WriteRequest_frame m h body bo) by apply Hm.
  unfold connRead at 1. cbn [rx tx isClosed].
  rewrite (ReadRequest_whole_frame m' h' body' Hm').
  unfold setBackend. cbn [client backend log].
  destruct (LogResp p); cbn [client backend log app];
    unfold connWrite; cbn [rx tx isClosed];
    rewrite (WriteRequest_frame m' h' body' co) by apply Hm';
    subst fuel; rewrite relay_at_end by reflexivity; reflexivity.
Qed.

(** X22.  A backend that has reset the connection goes unnoticed for a
    request whose frame fits the buffer of the bufio.Writer: WriteRequest
    returns nil, the read of the reply finds the end of the stream, and the
    handler returns having printed the request and no error. *)
Theorem handleConnection_reset_backend_is_silent (p : Proxy) (m : RequestMsg)
    (h : MsgHeader) (body : list FieldVal) (co bo : list byte) :
  validMsg m h body -> (16 + length (bodyBytes body) <= defaultBufSize)%nat ->
  handleConnection p
    (mkConn (headerBytes h ++ bodyBytes body) (mkSink co false) false)
    (Some (mkConn [] (mkSink bo true) false), None)
  = mkHandled (Ok tt)
      (mkConn [] (mkSink co false) true)
      (Some (mkConn [] (mkSink bo true) true))
      [msgRecord m].
Proof.
  intros Hm Hfit. unfold handleConnection. cbn [rx].
  cbn [relay]. unfold connRead at 1. cbn [client rx tx isClosed].
  rewrite (ReadRequest_whole_frame m h body Hm).
  unfold logMsg, setClient, printLog. cbn [client backend log app].
  unfold connWrite at 1. cbn [rx tx isClosed].
  rewrite (WriteRequest_fits m h body _ (valid_fields _ _ _ Hm) (valid_body _ _ _ Hm) Hfit).
  rewrite Flush_broken.
  unfold connRead. cbn [rx tx isClosed]. rewrite ReadRequest_nil.
  reflexivity.
Qed.

End Exchange.

(** * The schemas of the struct types *)

Section Schemas.
Context `{B : Bson}.

(** The first field after the header is an int32 or a string, in every
    struct. *)
Lemma first_field (m : RequestMsg) (h : MsgHeader) (body : list FieldVal) :
  fields m = VHeader h :: body -> wellTyped m ->
  exists f fs, body = f :: fs /\ ((exists n, f = VInt32 n) \/ (exists s, f = VString s)).
Proof.
  intros Hf Ht. unfold wellTyped in Ht. rewrite Hf in Ht. cbn [map typeOf] in Ht.
  destruct body as [|f fs]; [destruct (structType m); discriminate|].
  exists f, fs. split; [reflexivity|].
  destruct f; cbn [map typeOf] in Ht; eauto; destruct (structType m); discriminate.
Qed.

End Schemas.

(** * Frames that are cut short *)

(** ** A string without its end *)

Lemma readSliceLoop_kept_error (fuel : nat) (delim : byte) (b : Reader) (e : error) :
  IndexByte (buf b) delim = None -> rerr b = Some e ->
  readSliceLoop fuel delim b = (buf b, Some e, mkReader [] (rd b) None).
Proof.
  intros Hi He. destruct fuel; cbn [readSliceLoop]; rewrite Hi, He;
    unfold readErr; rewrite He; reflexivity.
Qed.

Lemma readSliceLoop_full (fuel : nat) (delim : byte) (b : Reader) :
  IndexByte (buf b) delim = None -> rerr b = None ->
  (defaultBufSize <= length (buf b))%nat ->
  readSliceLoop fuel delim b = (buf b, Some ErrBufferFull, mkReader [] (rd b) None).
Proof.
  intros Hi He Hl. destruct fuel; cbn [readSliceLoop]; rewrite Hi, He;
    (destruct (Nat.leb_spec defaultBufSize (length (buf b))); [reflexivity | lia]).
Qed.

Lemma readSliceLoop_fill (fuel : nat) (delim : byte) (b : Reader) :
  IndexByte (buf b) delim = None -> rerr b = None ->
  (length (buf b) < defaultBufSize)%nat ->
  readSliceLoop (S fuel) delim b = readSliceLoop fuel delim (fill b).
Proof.
  intros Hi He Hl. cbn [readSliceLoop]. rewrite Hi, He.
  destruct (Nat.leb_spec defaultBufSize (length (buf b))); [lia | reflexivity].
Qed.

(** ReadSlice on pending bytes that hold no delimiter: a full buffer, or the
    rest of the stream and io.EOF. *)
Lemma ReadSlice_no_delim (delim : byte) (b : Reader) :
  rinv b -> ~ In delim (pending b) ->
  exists frag e b',
    ReadSlice delim b = (frag, Some e, b') /\ rinv b'
    /\ frag ++ pending b' = pending b
    /\ (e = EOF \/ (e = ErrBufferFull /\ frag <> [])).
Proof.
  intros [Hl He] Hn.
  destruct (ReadSlice delim b) as [[frag e] b'] eqn:E.
  pose proof (readSliceLoop_law _ _ _ _ _ _ E) as Hlaw. revert E.
  destruct b as [bf r er]. cbn [buf rd rerr] in *. subst er.
  unfold pending in Hn |- *. cbn [buf rd] in Hn |- *.
  assert (Hbf : forall l, ~ In delim l -> IndexByte l delim = None)
    by (intros l; apply IndexByte_none).
  assert (Hnb : ~ In delim bf) by (intros Hin; apply Hn, in_or_app; auto).
  pose proof defaultBufSize_ge as Hsz.
  unfold ReadSlice. cbn [rd].
  destruct (Nat.le_gt_cases defaultBufSize (length bf)) as [Hfull|Hroom].
  { rewrite readSliceLoop_full by (cbn [buf rerr]; auto).
    intros [= <- <- <-]. cbn [buf rd]. do 3 eexists. split; [reflexivity|].
    split; [split; cbn; [lia | reflexivity]|]. split; [exact Hlaw|].
    right. split; [reflexivity|]. destruct bf; cbn [length] in *; [lia | discriminate]. }
  rewrite readSliceLoop_fill by (cbn [buf rerr]; auto).
  destruct r as [|x r].
  - rewrite fill_at_end.
    rewrite readSliceLoop_kept_error with (e := EOF) by (cbn [buf rerr]; auto).
    intros [= <- <- <-]. cbn [buf rd]. do 3 eexists. split; [reflexivity|].
    split; [split; cbn; [lia | reflexivity]|]. split; [exact Hlaw|].
    left. reflexivity.
  - set (r0 := x :: r) in *.
    assert (Hfill : fill (mkReader bf r0 None)
                    = mkReader (bf ++ take (defaultBufSize - length bf) r0)
                        (drop (defaultBufSize - length bf) r0) None).
    { unfold fill. cbn [buf rd rerr]. rewrite Stream_Read_cons by (subst r0; discriminate).
      reflexivity. }
    rewrite Hfill.
    assert (Hnb' : ~ In delim (bf ++ take (defaultBufSize - length bf) r0)).
    { intros [Hin|Hin]%in_app_or; apply Hn, in_or_app; auto.
      right. rewrite <- (take_drop (defaultBufSize - length bf) r0). apply in_or_app. auto. }
    destruct (Nat.le_gt_cases defaultBufSize
                (length (bf ++ take (defaultBufSize - length bf) r0))) as [Hfull'|Hroom'].
    + rewrite readSliceLoop_full by (cbn [buf rerr]; auto).
      intros [= <- <- <-]. cbn [buf rd]. do 3 eexists. split; [reflexivity|].
      split; [split; cbn; [lia | reflexivity]|].
      split; [exact Hlaw|].
      right. split; [reflexivity|].
      intros Hnil. rewrite Hnil in Hfull'. cbn [length] in Hfull'. lia.
    + assert (Hdrop : drop (defaultBufSize - length bf) r0 = []).
      { apply drop_ge. rewrite length_app, length_take in Hroom'. lia. }
      rewrite Hdrop.
      replace (length r0) with (S (length r)) by reflexivity.
      rewrite readSliceLoop_fill by (cbn [buf rerr]; auto).
      rewrite fill_at_end.
      rewrite readSliceLoop_kept_error with (e := EOF) by (cbn [buf rerr]; auto).
      intros [= <- <- <-]. cbn [buf rd]. do 3 eexists. split; [reflexivity|].
      split; [split; cbn; [lia | reflexivity]|].
      split; [exact Hlaw | left; reflexivity].
Qed.

Lemma collectFragments_no_delim (delim : byte) (fuel : nat) :
  forall (acc : list byte) (b : Reader),
    rinv b -> ~ In delim (pending b) -> (length (pending b) <= fuel)%nat ->
    exists str b', collectFragments fuel delim acc b = (str, Some EOF, b').
Proof.
  induction fuel as [|fuel IH]; intros acc b Hinv Hn Hf;
    destruct (ReadSlice_no_delim delim b Hinv Hn) as (frag & e & b1 & Hr & Hinv1 & Hp & He);
    cbn [collectFragments]; rewrite Hr.
  - destruct He as [->|[-> Hne]]; [eauto|].
    exfalso. rewrite <- Hp, length_app in Hf. destruct frag; [congruence | cbn in Hf; lia].
  - destruct He as [->|[-> Hne]]; [eauto|].
    apply IH; [exact Hinv1 | |].
    + intros Hin. apply Hn. rewrite <- Hp. apply in_or_app. auto.
    + rewrite <- Hp, length_app in Hf. destruct frag; [congruence | cbn in Hf; lia].
Qed.

Lemma ReadString_no_delim (delim : byte) (b : Reader) :
  rinv b -> ~ In delim (pending b) ->
  exists str b', ReadString delim b = (str, Some EOF, b').
Proof. intros Hinv Hn. apply collectFragments_no_delim; auto. Qed.

(** ** Fields that are cut short *)

Section Cut.
Context `{B : Bson}.

Lemma binaryRead_cut (b : Reader) (k : nat) :
  rinv b -> (length (pending b) < k)%nat ->
  exists e b', binaryRead k b = (Err e, b') /\ endOfStream e.
Proof.
  intros Hinv Hl. destruct (ReadFull_Reader_short b k Hinv Hl) as (b' & Hr).
  unfold binaryRead, try. rewrite Hr. do 2 eexists. split; [reflexivity|].
  unfold endOfStream. destruct (pending b); auto.
Qed.

Lemma readDoc_cut (b : Reader) (d : D) (k : nat) :
  rinv b -> goodDoc d -> pending b = take k (docBytes d) ->
  (k < length (docBytes d))%nat ->
  exists e b', readDoc b = (Err e, b') /\ endOfStream e.
Proof.
  intros Hinv Hd Hp Hk.
  assert (Hlen : length (pending b) = k) by (rewrite Hp, length_take; lia).
  pose proof (readDoc_no_size b Hinv) as H1. pose proof (readDoc_no_body b Hinv) as H2.
  destruct (readDoc b) as [res b'] eqn:E. cbn [fst] in *.
  destruct (Nat.lt_ge_cases k 4) as [Hlt|Hge].
  - rewrite H1 by lia. do 2 eexists. split; [reflexivity | left; reflexivity].
  - rewrite H2.
    + do 2 eexists. split; [reflexivity | right; reflexivity].
    + lia.
    + destruct Hd as (_ & bs & Hm & _ & _ & Hsz). unfold docBytes in *. rewrite Hm in *.
      rewrite Hlen, Hp, take_take. replace (4 `min` k)%nat with 4%nat by lia.
      rewrite Hsz. lia.
Qed.

Lemma readDocs_cut (h : MsgHeader) (ds : list D) :
  forall (fuel : nat) (bytesRead : Z) (acc : list D) (b : Reader) (k : nat),
    Forall goodDoc ds -> rinv b ->
    pending b = take k (concat (map docBytes ds)) ->
    (k < length (concat (map docBytes ds)))%nat ->
    MessageLength h = bytesRead + Z.of_nat (length (concat (map docBytes ds))) ->
    (k < fuel)%nat ->
    exists e b', readDocs fuel h bytesRead acc b = (Err e, b') /\ endOfStream e.
Proof.
  induction ds as [|d ds IH]; intros fuel bytesRead acc b k Hg Hinv Hp Hk HL Hf;
    [cbn in Hk; lia|].
  destruct fuel as [|fuel]; [lia|].
  pose proof (goodDoc_length d ltac:(apply Forall_cons in Hg as [Hd _]; exact Hd)) as Hd4.
  apply Forall_cons in Hg as [Hd Hg].
  cbn [map concat] in Hp, Hk, HL. rewrite length_app in Hk, HL.
  cbn [readDocs].
  destruct (Nat.le_gt_cases (length (docBytes d)) k) as [Hin|Hout].
  - rewrite take_app_ge in Hp by exact Hin.
    destruct (readDoc_good b _ d Hinv Hp Hd) as (b1 & Hr & Hp1 & Hinv1).
    rewrite (bind_ok _ _ _ _ _ Hr). cbn [fst snd].
    destruct (Z.eqb_spec (bytesRead + Z.of_nat (length (docBytes d))) (MessageLength h));
      [lia|].
    apply (IH fuel _ _ b1 (k - length (docBytes d))%nat); auto; lia.
  - rewrite take_app_le in Hp by lia.
    destruct (readDoc_cut b d k Hinv Hd Hp Hout) as (e & b' & Hr & He).
    unfold bind. rewrite Hr. eauto.
Qed.

Lemma readIds_cut (h : MsgHeader) (ids : list Z) :
  forall (fuel : nat) (bytesRead : Z) (acc : list Z) (b : Reader) (k : nat),
    Forall is_int64 ids -> rinv b ->
    pending b = take k (concat (map le_of_int64 ids)) ->
    (k < length (concat (map le_of_int64 ids)))%nat ->
    MessageLength h = bytesRead + Z.of_nat (length (concat (map le_of_int64 ids))) ->
    (k < fuel)%nat ->
    exists e b', readIds fuel h bytesRead acc b = (Err e, b') /\ endOfStream e.
Proof.
  induction ids as [|x ids IH]; intros fuel bytesRead acc b k Hg Hinv Hp Hk HL Hf;
    [cbn in Hk; lia|].
  destruct fuel as [|fuel]; [lia|].
  apply Forall_cons in Hg as [Hx Hg].
  cbn [map concat] in Hp, Hk, HL. rewrite length_app, length_le_of_int64 in Hk, HL.
  cbn [readIds].
  destruct (Nat.le_gt_cases 8 k) as [Hin|Hout].
  - rewrite take_app_ge in Hp by (rewrite length_le_of_int64; exact Hin).
    rewrite length_le_of_int64 in Hp.
    destruct (readInt64s_one b _ _ Hinv Hp (length_le_of_int64 x)) as (b1 & Hr & Hp1 & Hinv1).
    rewrite (bind_ok _ _ _ _ _ Hr).
    destruct (Z.eqb_spec (bytesRead + 8) (MessageLength h)); [lia|].
    apply (IH fuel _ _ b1 (k - 8)%nat); auto; lia.
  - assert (Hlen : (length (pending b) < 8)%nat).
    { rewrite Hp, length_take. lia. }
    destruct (binaryRead_cut b 8 Hinv Hlen) as (e & b' & Hr & He).
    cbn [readInt64s]. unfold bind at 1. unfold bind at 1. rewrite Hr. eauto.
Qed.

Lemma readFields_cut (h : MsgHeader) (fuel : nat) (fs : list FieldVal) :
  forall (i : nat) (bytesRead : Z) (v : list FieldVal) (b : Reader) (k : nat),
    Forall validField fs -> layoutOK fs = true -> rinv b ->
    pending b = take k (bodyBytes fs) ->
    (k < length (bodyBytes fs))%nat ->
    MessageLength h = bytesRead + Z.of_nat (length (bodyBytes fs)) ->
    (k < fuel)%nat ->
    exists e b', readFields fuel h (map typeOf fs) i bytesRead v b = (Err e, b')
                 /\ endOfStream e.
Proof.
  induction fs as [|f fs IH]; intros i bytesRead v b k Hv Hlay Hinv Hp Hk HL Hfuel;
    [cbn in Hk; lia|].
  apply Forall_cons in Hv as [Hf Hv].
  assert (Hpres : isAbsent f = false).
  { destruct (isAbsent f) eqn:Ea; [|reflexivity]. exfalso.
    cbn [layoutOK] in Hlay. rewrite Ea in Hlay. cbn [orb] in Hlay.
    destruct (forallb_isAbsent _ Hlay) as (Hb & _). destruct (isAbsent_spec f Ea) as [Hw _].
    unfold bodyBytes in *. cbn [map concat] in Hk. rewrite Hw, Hb in Hk. cbn in Hk. lia. }
  unfold bodyBytes in Hp, Hk, HL. cbn [map concat] in Hp, Hk, HL.
  fold (bodyBytes fs) in Hp, Hk, HL. rewrite length_app in Hk, HL.
  destruct (isSlice f) eqn:Es.
  - (* a slice: nothing follows it *)
    assert (Hb : bodyBytes fs = []).
    { cbn [layoutOK] in Hlay. rewrite Hpres, Es in Hlay. cbn [orb] in Hlay.
      apply forallb_isAbsent. exact Hlay. }
    rewrite Hb, app_nil_r in Hp. rewrite Hb in Hk, HL. cbn [length] in Hk, HL.
    rewrite Nat.add_0_r in *.
    cbn [map readFields].
    destruct (Z.eqb_spec bytesRead (MessageLength h)) as [?|_]; [lia|].
    destruct (Z.gtb_spec bytesRead (MessageLength h)) as [?|_]; [lia|].
    destruct f as [hh|n|n|s|d|ds|ids]; cbn [typeOf validField wire isSlice] in *;
      try discriminate.
    + destruct (readDocs_cut h ds fuel bytesRead [] b k Hf Hinv Hp Hk HL Hfuel)
        as (e & b' & Hr & He).
      unfold bind. rewrite Hr. eauto.
    + destruct (readIds_cut h ids fuel bytesRead [] b k Hf Hinv Hp Hk HL Hfuel)
        as (e & b' & Hr & He).
      unfold bind. rewrite Hr. eauto.
  - destruct (Nat.le_gt_cases (length (wire f)) k) as [Hin|Hout].
    + (* the field is whole *)
      rewrite take_app_ge in Hp by exact Hin.
      pose proof (valid_wire_length f Hf Hpres) as Hw.
      assert (Hlay' : layoutOK fs = true).
      { cbn [layoutOK] in Hlay. rewrite Hpres, Es in Hlay. exact Hlay. }
      cbn [map].
      destruct (readFields_step fuel h f (map typeOf fs) i bytesRead v b _ Hf Hpres Es Hinv Hp)
        as (b1 & -> & Hp1 & Hinv1); [lia|].
      apply (IH _ _ _ b1 (k - length (wire f))%nat); auto; lia.
    + (* the field is cut *)
      rewrite take_app_le in Hp by lia.
      cbn [map readFields].
      destruct (Z.eqb_spec bytesRead (MessageLength h)) as [?|_]; [lia|].
      destruct (Z.gtb_spec bytesRead (MessageLength h)) as [?|_]; [lia|].
      assert (Hlen : length (pending b) = k) by (rewrite Hp, length_take; lia).
      destruct f as [hh|n|n|s|d|ds|ids]; cbn [typeOf validField wire isSlice isAbsent] in *;
        try discriminate; try contradiction.
      * rewrite length_le_of_int32 in Hout.
        destruct (binaryRead_cut b 4 Hinv) as (e & b' & Hr & He); [lia|].
        cbn [readInt32s]. unfold bind at 1. unfold bind at 1. unfold bind at 1.
        rewrite Hr. eauto.
      * rewrite length_le_of_int64 in Hout.
        destruct (binaryRead_cut b 8 Hinv) as (e & b' & Hr & He); [lia|].
        cbn [readInt64s]. unfold bind at 1. unfold bind at 1. unfold bind at 1.
        rewrite Hr. eauto.
      * rewrite length_app in Hout. cbn [length] in Hout.
        rewrite take_app_le in Hp by lia.
        destruct (ReadString_no_delim Byte.x00 b Hinv) as (str & b' & Hr).
        { rewrite Hp. apply not_In_take. exact Hf. }
        unfold bind, try. rewrite Hr. do 2 eexists. split; [reflexivity | left; reflexivity].
      * destruct d as [|x d]; [discriminate|].
        destruct Hf as [Hf|Hf]; [discriminate|].
        destruct (readDoc_cut b _ k Hinv Hf Hp Hout) as (e & b' & Hr & He).
        unfold bind. rewrite Hr. eauto.
Qed.

(** X24.  A frame of a valid message that is cut short anywhere after its
    header is never decoded: ReadRequest returns io.EOF or
    io.ErrUnexpectedEOF. *)
Theorem ReadRequest_cut_frame (m : RequestMsg) (h : MsgHeader) (body : list FieldVal)
    (k : nat) :
  validMsg m h body -> (k < length (bodyBytes body))%nat ->
  exists e,
    fst (ReadRequest (headerBytes h ++ take k (bodyBytes body))) = Err e
    /\ endOfStream e.
Proof.
  intros [Hf Ht Hop [Hid Hrt] Hv Hlay HL Hsz] Hk.
  unfold ReadRequest.
  rewrite readMsgHeader_Stream; auto; [|rewrite Hop; apply is_int32_GetOp].
  rewrite (newReq_GetOp m h Hop).
  unfold wellTyped in Ht. rewrite Hf in Ht. cbn [map typeOf] in Ht.
  unfold structLit. cbn [structType fields]. rewrite <- Ht. cbn [tail].
  unfold HEADER_SIZE in *.
  rewrite readFields_header by lia.
  destruct (readFields_cut h (S (length (take k (bodyBytes body)))) body 1 16
              (VHeader h :: map zeroValue (map typeOf body))
              (NewReader (take k (bodyBytes body))) k)
    as (e & b' & Hr & He); auto.
  - apply rinv_NewReader.
  - rewrite length_take. lia.
  - rewrite Hr. eauto.
Qed.

End Cut.

(** * A declared length that no element ends on *)

Section Overrun.
Context `{B : Bson}.

(** The loop over the cursor ids when the byte counter never meets the
    declared length: every id on the stream is read, and the next read finds
    the end of the stream. *)
Lemma readIds_overrun (h : MsgHeader) (ids : list Z) :
  forall (fuel : nat) (bytesRead : Z) (acc : list Z) (b : Reader),
    Forall is_int64 ids -> rinv b ->
    pending b = concat (map le_of_int64 ids) ->
    (forall j, (1 <= j <= length ids)%nat -> MessageLength h <> bytesRead + 8 * Z.of_nat j) ->
    (length ids < fuel)%nat ->
    exists b', readIds fuel h bytesRead acc b = (Err EOF, b').
Proof.
  induction ids as [|x ids IH]; intros fuel bytesRead acc b Hg Hinv Hp Hne Hf;
    (destruct fuel as [|fuel]; [lia|]); cbn [readIds].
  - cbn [map concat] in Hp.
    destruct (ReadFull_Reader_short b 8 Hinv) as (b' & Hr); [rewrite Hp; cbn; lia|].
    rewrite Hp in Hr. cbn [readInt64s]. unfold binaryRead, bind, try. rewrite Hr. eauto.
  - apply Forall_cons in Hg as [Hx Hg]. cbn [map concat] in Hp.
    destruct (readInt64s_one b _ _ Hinv Hp (length_le_of_int64 x)) as (b1 & Hr & Hp1 & Hinv1).
    rewrite (bind_ok _ _ _ _ _ Hr).
    destruct (Z.eqb_spec (bytesRead + 8) (MessageLength h)) as [E|_].
    { exfalso. apply (Hne 1%nat); [cbn [length]; lia | lia]. }
    apply IH; auto.
    + intros j Hj. specialize (Hne (S j)). cbn [length] in Hne. lia.
    + cbn [length] in Hf. lia.
Qed.

(** X26.  Inside a slice the declared length is only compared for equality.
    When the header of a KillCursors frame declares a length on which no
    cursor id ends, ReadRequest does not report the wrong length: it reads
    every id the stream holds and returns io.EOF. *)
Theorem ReadRequest_reads_ids_past_the_declared_length (h : MsgHeader)
    (ZERO NumberOfCursorIDs : Z) (ids : list Z) :
  Opcode h = OP_KILL_CURSORS -> is_int32 (MessageLength h) ->
  is_int32 (RequestID h) -> is_int32 (ResponseTo h) ->
  is_int32 ZERO -> is_int32 NumberOfCursorIDs -> Forall is_int64 ids ->
  24 < MessageLength h ->
  (forall j, (1 <= j <= length ids)%nat -> MessageLength h <> 24 + 8 * Z.of_nat j) ->
  fst (ReadRequest (headerBytes h ++ le_of_int32 ZERO ++ le_of_int32 NumberOfCursorIDs
                      ++ concat (map le_of_int64 ids)))
  = Err EOF.
Proof.
  intros Hop H1 H2 H3 Hz Hn Hids Hlt Hne.
  unfold ReadRequest.
  rewrite readMsgHeader_Stream; auto; [|rewrite Hop; cbv; intuition discriminate].
  unfold newReq. rewrite Hop. cbn [Z.eqb Pos.eqb OP_KILL_CURSORS OP_UPDATE OP_QUERY OP_DELETE
    OP_GET_MORE OP_INSERT].
  unfold structLit. cbn [structType fields structFields tail map zeroValue].
  unfold HEADER_SIZE.
  rewrite readFields_header by lia.
  set (r := le_of_int32 ZERO ++ le_of_int32 NumberOfCursorIDs ++ concat (map le_of_int64 ids)).
  destruct (readFields_step (S (length r)) h (VInt32 ZERO) [Int32; SliceInt64] 1 16
              [VHeader h; VInt32 0; VInt32 0; VInt64s []] (NewReader r)
              (le_of_int32 NumberOfCursorIDs ++ concat (map le_of_int64 ids)))
    as (b1 & Hs1 & Hp1 & Hinv1); auto; try reflexivity; try apply rinv_NewReader; [lia|].
  cbn [typeOf] in Hs1. rewrite Hs1. cbn [wire]. rewrite length_le_of_int32.
  destruct (readFields_step (S (length r)) h (VInt32 NumberOfCursorIDs) [SliceInt64] 2 (16 + Z.of_nat 4)
              (<[1%nat := VInt32 ZERO]> [VHeader h; VInt32 0; VInt32 0; VInt64s []]) b1
              (concat (map le_of_int64 ids)))
    as (b2 & Hs2 & Hp2 & Hinv2); auto; try reflexivity; [lia|].
  cbn [typeOf] in Hs2. rewrite Hs2. cbn [wire]. rewrite length_le_of_int32.
  cbn [readFields].
  destruct (Z.eqb_spec (16 + Z.of_nat 4 + Z.of_nat 4) (MessageLength h)) as [?|_]; [lia|].
  destruct (Z.gtb_spec (16 + Z.of_nat 4 + Z.of_nat 4) (MessageLength h)) as [?|_]; [lia|].
  destruct (readIds_overrun h ids (S (length r)) (16 + Z.of_nat 4 + Z.of_nat 4) [] b2 Hids Hinv2 Hp2)
    as (b' & Hr).
  - intros j Hj. specialize (Hne j Hj). lia.
  - subst r. rewrite !length_app. pose proof (ids_length ids). lia.
  - unfold bind. rewrite Hr. reflexivity.
Qed.

End Overrun.

(** * A request of which only the header arrives *)

Lemma readInt32s_at_end :
  readInt32s 1 (NewReader []) = (Err EOF, mkReader [] [] None).
Proof. reflexivity. Qed.

Lemma ReadString_at_end (delim : byte) :
  ReadString delim (NewReader []) = ([], Some EOF, mkReader [] [] None).
Proof. reflexivity. Qed.

Section HeaderOnly.
Context `{B : Bson}.

Lemma ReadRequest_header_alone (m : RequestMsg) (h : MsgHeader) (body : list FieldVal) :
  validMsg m h body -> ReadRequest (headerBytes h) = (Err EOF, []).
Proof.
  intros [Hf Ht Hop [Hid Hrt] Hv Hlay HL Hsz].
  destruct (first_field m h body Hf Ht) as (f & fs & -> & Hfirst).
  rewrite <- (app_nil_r (headerBytes h)). unfold ReadRequest.
  rewrite readMsgHeader_Stream; auto; [|rewrite Hop; apply is_int32_GetOp].
  rewrite (newReq_GetOp m h Hop).
  unfold wellTyped in Ht. rewrite Hf in Ht. cbn [map typeOf] in Ht.
  unfold structLit. cbn [structType fields]. rewrite <- Ht. cbn [tail].
  unfold HEADER_SIZE in *.
  assert (Hw : (0 < length (wire f))%nat).
  { destruct Hfirst as [[n ->]|[s ->]]; cbn [wire];
      rewrite ?length_le_of_int32, ?length_app; cbn [length]; lia. }
  unfold bodyBytes in HL. cbn [map concat] in HL. rewrite length_app in HL.
  rewrite readFields_header by lia. cbn [readFields].
  destruct (Z.eqb_spec 16 (MessageLength h)) as [?|_]; [lia|].
  destruct (Z.gtb_spec 16 (MessageLength h)) as [?|_]; [lia|].
  destruct Hfirst as [[n ->]|[s ->]]; cbn [typeOf].
  - unfold bind at 1. rewrite readInt32s_at_end. reflexivity.
  - unfold bind, try. rewrite ReadString_at_end. reflexivity.
Qed.

(** X27.  A request of which only the header arrives leaves no trace.  The
    header of a valid message declares more than its own sixteen bytes, the
    read of the first field finds the end of the stream, and that io.EOF is
    passed over in silence: the handler returns without a record and without
    a byte sent to the backend, and closes both connections. *)
Theorem handleConnection_header_only_is_silent (p : Proxy) (m : RequestMsg)
    (h : MsgHeader) (body : list FieldVal) (co : list byte) (c : Conn) :
  validMsg m h body ->
  handleConnection p (mkConn (headerBytes h) (mkSink co false) false) (Some c, None)
  = mkHandled (Ok tt) (mkConn [] (mkSink co false) true) (Some (Close c)) [].
Proof.
  intros Hm. unfold handleConnection. cbn [rx relay].
  unfold connRead at 1. cbn [client rx tx isClosed].
  rewrite (ReadRequest_header_alone m h body Hm).
  reflexivity.
Qed.

End HeaderOnly.

(** * The declared length of a Query frame *)

Section QueryLength.
Context `{B : Bson}.

(** A document asked of a reader that is at its end. *)
Lemma readDoc_at_end (b : Reader) :
  rinv b -> pending b = [] -> fst (readDoc b) = Err EOF.
Proof.
  intros Hinv Hp. apply readDoc_no_size; [exact Hinv|]. rewrite Hp. cbn [length]. lia.
Qed.

Lemma wire_goodDoc (d : D) : goodDoc d -> wire (VD d) = docBytes d /\ isAbsent (VD d) = false.
Proof. intros Hd. destruct d; [destruct Hd; congruence|]. split; reflexivity. Qed.

(** The four fields of a Query that come before its documents, read when
    the header declares more than them. *)
Lemma readFields_Query_scalars (fuel : nat) (h : MsgHeader) (Flags : Z) (name : list byte)
    (skip ret : Z) (more : list byte) :
  is_int32 Flags -> ~ In Byte.x00 name -> is_int32 skip -> is_int32 ret ->
  16 + 4 + (Z.of_nat (length name) + 1) + 4 + 4 < MessageLength h ->
  exists b,
    readFields fuel h (structFields TQuery) 0 16 (fields (structLit TQuery h))
      (NewReader (le_of_int32 Flags ++ name ++ [Byte.x00] ++ le_of_int32 skip
                  ++ le_of_int32 ret ++ more))
    = readFields fuel h [BsonD; BsonD] 5 (16 + 4 + (Z.of_nat (length name) + 1) + 4 + 4)
        [VHeader h; VInt32 Flags; VString name; VInt32 skip; VInt32 ret; VD []; VD []] b
    /\ pending b = more /\ rinv b.
Proof.
  intros HF Hn Hs Hr HL.
  cbn [structLit structType structFields fields tail map zeroValue].
  rewrite readFields_header by lia.
  set (b0 := NewReader _).
  assert (Hi0 : rinv b0) by apply rinv_NewReader.
  assert (Hp0 : pending b0 = wire (VInt32 Flags) ++ wire (VString name) ++ wire (VInt32 skip)
                  ++ wire (VInt32 ret) ++ more).
  { subst b0. rewrite pending_NewReader. cbn [wire]. rewrite <- !app_assoc. reflexivity. }
  edestruct (readFields_step fuel h (VInt32 Flags)) as (b1 & -> & Hp1 & Hi1);
    [exact HF | reflexivity | reflexivity | exact Hi0 | exact Hp0 | lia |].
  edestruct (readFields_step fuel h (VString name)) as (b2 & -> & Hp2 & Hi2);
    [exact Hn | reflexivity | reflexivity | exact Hi1 | exact Hp1
    | cbn [wire]; rewrite length_le_of_int32; lia |].
  edestruct (readFields_step fuel h (VInt32 skip)) as (b3 & -> & Hp3 & Hi3);
    [exact Hs | reflexivity | reflexivity | exact Hi2 | exact Hp2
    | cbn [wire]; rewrite length_le_of_int32, length_app; cbn [length]; lia |].
  edestruct (readFields_step fuel h (VInt32 ret)) as (b4 & -> & Hp4 & Hi4);
    [exact Hr | reflexivity | reflexivity | exact Hi3 | exact Hp3
    | cbn [wire]; rewrite !length_le_of_int32, length_app; cbn [length]; lia |].
  exists b4. split; [|split; assumption].
  cbn [wire]. rewrite !length_le_of_int32, length_app. cbn [length].
  f_equal. lia.
Qed.

(** A field asked of a reader at its end, for a document. *)
Lemma readFields_doc_at_end (fuel : nat) (h : MsgHeader) (ts : list FieldType) (i : nat)
    (bytesRead : Z) (v : list FieldVal) (b : Reader) :
  rinv b -> pending b = [] -> bytesRead < MessageLength h ->
  fst (readFields fuel h (BsonD :: ts) i bytesRead v b) = Err EOF.
Proof.
  intros Hinv Hp HL. cbn [readFields].
  destruct (Z.eqb_spec bytesRead (MessageLength h)) as [?|_]; [lia|].
  destruct (Z.gtb_spec bytesRead (MessageLength h)) as [?|_]; [lia|].
  pose proof (readDoc_at_end b Hinv Hp) as He. unfold bind.
  destruct (readDoc b) as [[dn| | |] b']; cbn [fst] in He; try discriminate.
  cbn [fst]. injection He as ->. reflexivity.
Qed.

Ltac fields_ok :=
  repeat (apply Forall_cons; split); [.. | apply Forall_nil]; cbn [validField]; auto.

(** C2, as the code has it.  A Query frame whose declared length ends right
    after numberToReturn decodes, with query and returnFieldsSelector left at
    their zero value; a Query frame whose declared length ends inside its
    query document (it is too short) fails with the wrong-length error; and
    whenever the byte counter is past the declared length when the loop comes
    to a field, decoding fails with the wrong-length error.  A declared length
    greater than the bytes of the fields the frame holds is not reported:
    when the stream ends with the frame, after numberToReturn or after the
    query document, the read of the next document returns io.EOF; and when
    both documents are there the frame decodes whatever the header declares
    beyond the query document, since no check follows the last field. *)
Theorem C2_short_circuit_and_wrong_length (h : MsgHeader) (Flags : Z) (name : list byte)
    (skip ret : Z) (rest : list byte) :
  Opcode h = OP_QUERY -> is_int32 (MessageLength h) ->
  is_int32 (RequestID h) -> is_int32 (ResponseTo h) ->
  is_int32 Flags -> ~ In Byte.x00 name -> is_int32 skip -> is_int32 ret ->
  let scalars := 16 + 4 + (Z.of_nat (length name) + 1) + 4 + 4 in
  (MessageLength h = scalars ->
   fst (ReadRequest (headerBytes h ++ le_of_int32 Flags ++ name ++ [Byte.x00]
                       ++ le_of_int32 skip ++ le_of_int32 ret ++ rest))
   = Ok (Query h Flags name skip ret [] []))
  /\ (forall d : D,
        goodDoc d ->
        scalars < MessageLength h < scalars + Z.of_nat (length (docBytes d)) ->
        fst (ReadRequest (headerBytes h ++ le_of_int32 Flags ++ name ++ [Byte.x00]
                            ++ le_of_int32 skip ++ le_of_int32 ret ++ docBytes d ++ rest))
        = Err ErrorWrongLen)
  /\ (forall fuel t ts i bytesRead v b,
        MessageLength h < bytesRead ->
        readFields fuel h (t :: ts) i bytesRead v b = (Err ErrorWrongLen, b))
  /\ (scalars < MessageLength h ->
      fst (ReadRequest (headerBytes h ++ le_of_int32 Flags ++ name ++ [Byte.x00]
                          ++ le_of_int32 skip ++ le_of_int32 ret ++ []))
      = Err EOF)
  /\ (forall d : D,
        goodDoc d ->
        scalars + Z.of_nat (length (docBytes d)) < MessageLength h ->
        fst (ReadRequest (headerBytes h ++ le_of_int32 Flags ++ name ++ [Byte.x00]
                            ++ le_of_int32 skip ++ le_of_int32 ret ++ docBytes d ++ []))
        = Err EOF)
  /\ (forall d d' : D,
        goodDoc d -> goodDoc d' ->
        scalars + Z.of_nat (length (docBytes d)) < MessageLength h ->
        fst (ReadRequest (headerBytes h ++ le_of_int32 Flags ++ name ++ [Byte.x00]
                            ++ le_of_int32 skip ++ le_of_int32 ret
                            ++ docBytes d ++ docBytes d' ++ rest))
        = Ok (Query h Flags name skip ret d d')).
Proof.
  intros Hop Hsz Hid Hrt HF Hn Hs Hr scalars. subst scalars.
  assert (Hnew : newReq h = Some (structLit TQuery h)).
  { unfold newReq. rewrite Hop. reflexivity. }
  assert (Hhdr : forall more,
             ReadRequest (headerBytes h ++ more)
             = match readFields (S (length more)) h (structFields TQuery) 0 HEADER_SIZE
                       (fields (structLit TQuery h)) (NewReader more) with
               | (Ok v, b) => (Ok (mkReq TQuery v), rd b)
               | (Err e, b) => (Err e, rd b)
               | (Panic msg, b) => (Panic msg, rd b)
               | (Diverge, b) => (Diverge, rd b)
               end).
  { intros more. unfold ReadRequest.
    rewrite readMsgHeader_Stream; auto; [|rewrite Hop; cbv; intuition discriminate].
    rewrite Hnew. reflexivity. }
  split; [|split; [|split; [|split; [|split]]]].
  - intros HL.
    pose (body := [VInt32 Flags; VString name; VInt32 skip; VInt32 ret; VD []; VD []]).
    assert (Hm : validMsg (Query h Flags name skip ret [] []) h body).
    { split; auto; try reflexivity.
      - subst body. fields_ok.
      - unfold bodyBytes, body. cbn [map concat wire].
        rewrite !length_app, !length_le_of_int32. cbn [length]. unfold HEADER_SIZE. lia. }
    destruct (ReadRequest_frame _ h body rest Hm) as (r' & Hr').
    unfold bodyBytes, body in Hr'. cbn [map concat wire] in Hr'.
    rewrite <- !app_assoc in Hr'. cbn [app] in Hr'.
    cbn [app]. rewrite Hr'. reflexivity.
  - intros d Hd HL. rewrite Hhdr. unfold HEADER_SIZE. set (fuel := S _).
    destruct (wire_goodDoc d Hd) as [Hwd Hda].
    destruct (readFields_Query_scalars fuel
                h Flags name skip ret (docBytes d ++ rest) HF Hn Hs Hr)
      as (b4 & -> & Hp4 & Hi4); [lia|].
    rewrite <- Hwd in Hp4.
    edestruct (readFields_step fuel h (VD d)) as (b5 & -> & Hp5 & Hi5);
      [right; exact Hd | exact Hda | reflexivity | exact Hi4 | exact Hp4 | lia |].
    rewrite readFields_too_far; [reflexivity|].
    rewrite Hwd. lia.
  - intros. apply readFields_too_far. assumption.
  - intros HL. rewrite Hhdr. unfold HEADER_SIZE. set (fuel := S _).
    destruct (readFields_Query_scalars fuel
                h Flags name skip ret [] HF Hn Hs Hr HL)
      as (b4 & -> & Hp4 & Hi4).
    pose proof (readFields_doc_at_end fuel
                  h [BsonD] 5 _
                  [VHeader h; VInt32 Flags; VString name; VInt32 skip; VInt32 ret; VD []; VD []]
                  b4 Hi4 Hp4 HL) as He.
    destruct (readFields fuel h [BsonD; BsonD] 5 _ _ b4) as [[v| | |] b'];
      cbn [fst] in He; try discriminate.
    injection He as ->. reflexivity.
  - intros d Hd HL. rewrite Hhdr. unfold HEADER_SIZE. set (fuel := S _).
    destruct (wire_goodDoc d Hd) as [Hwd Hda].
    destruct (readFields_Query_scalars fuel
                h Flags name skip ret (docBytes d ++ []) HF Hn Hs Hr)
      as (b4 & -> & Hp4 & Hi4); [lia|].
    rewrite <- Hwd in Hp4.
    edestruct (readFields_step fuel h (VD d)) as (b5 & -> & Hp5 & Hi5);
      [right; exact Hd | exact Hda | reflexivity | exact Hi4 | exact Hp4 | lia |].
    rewrite Hwd.
    pose proof (readFields_doc_at_end fuel
                  h [] 6 _
                  (<[5%nat := VD d]>
                     [VHeader h; VInt32 Flags; VString name; VInt32 skip; VInt32 ret; VD []; VD []])
                  b5 Hi5 Hp5 HL) as He.
    destruct (readFields fuel h [BsonD] 6 _ _ b5) as [[v| | |] b'];
      cbn [fst] in He; try discriminate.
    injection He as ->. reflexivity.
  - intros d d' Hd Hd' HL. rewrite Hhdr. unfold HEADER_SIZE. set (fuel := S _).
    destruct (wire_goodDoc d Hd) as [Hwd Hda].
    destruct (wire_goodDoc d' Hd') as [Hwd' Hda'].
    destruct (readFields_Query_scalars fuel
                h Flags name skip ret (docBytes d ++ docBytes d' ++ rest) HF Hn Hs Hr)
      as (b4 & -> & Hp4 & Hi4); [lia|].
    rewrite <- Hwd, <- Hwd' in Hp4.
    edestruct (readFields_step fuel h (VD d)) as (b5 & -> & Hp5 & Hi5);
      [right; exact Hd | exact Hda | reflexivity | exact Hi4 | exact Hp4 | lia |].
    cbn [readFields].
    destruct (Z.eqb_spec (16 + 4 + (Z.of_nat (length name) + 1) + 4 + 4
                          + Z.of_nat (length (wire (VD d)))) (MessageLength h)) as [E|_];
      [rewrite Hwd in E; lia|].
    destruct (Z.gtb_spec (16 + 4 + (Z.of_nat (length name) + 1) + 4 + 4
                          + Z.of_nat (length (wire (VD d)))) (MessageLength h)) as [E|_];
      [rewrite Hwd in E; lia|].
    rewrite Hwd' in Hp5.
    destruct (readDoc_good b5 rest d' Hi5 Hp5 Hd') as (b6 & Hrd & _).
    rewrite (bind_ok _ _ _ _ _ Hrd). reflexivity.
Qed.

End QueryLength.

(** * A client that has gone away *)

(** Nothing reaches a sink that is broken: every write through the
    bufio.Writer leaves it as it was. *)
Lemma Flush_keeps (b : Writer) :
  broken (wr b) = true -> wr (snd (Flush b)) = wr b.
Proof.
  intros Hb. unfold Flush. destruct (werr b); [reflexivity|].
  destruct (wbuf b) as [|x bs] eqn:Eb; [reflexivity|].
  unfold Write, Sink_Write. rewrite Hb. cbn [isNil andb]. rewrite andb_false_r.
  reflexivity.
Qed.

Lemma writeLoop_keeps (fuel : nat) :
  forall p b, broken (wr b) = true -> wr (snd (writeLoop fuel p b)) = wr b.
Proof.
  induction fuel as [|fuel IH]; intros p b Hb; cbn [writeLoop].
  - destruct (_ && _); reflexivity.
  - destruct (_ && _); [|reflexivity].
    destruct (wbuf b) as [|x bs] eqn:Eb.
    + unfold Write, Sink_Write. rewrite Hb. rewrite IH by exact Hb. reflexivity.
    + pose proof (Flush_keeps (mkWriter ((x :: bs) ++ take (Available b) p) (wr b) (werr b)) Hb)
        as Hk.
      destruct (Flush _) as [e b']. cbn [snd wr] in Hk.
      rewrite IH by (rewrite Hk; exact Hb). exact Hk.
Qed.

Lemma Writer_Write_keeps (p : list byte) (b : Writer) :
  broken (wr b) = true -> wr (snd (Writer_Write p b)) = wr b.
Proof.
  intros Hb. unfold Writer_Write.
  pose proof (writeLoop_keeps (S (length p)) p b Hb) as Hk.
  destruct (writeLoop _ p b) as [p' b']. cbn [snd] in Hk.
  destruct (werr b'); exact Hk.
Qed.

Lemma writeStringLoop_keeps (fuel : nat) :
  forall s b, broken (wr b) = true -> wr (snd (writeStringLoop fuel s b)) = wr b.
Proof.
  induction fuel as [|fuel IH]; intros s b Hb; cbn [writeStringLoop].
  - destruct (_ && _); reflexivity.
  - destruct (_ && _); [|reflexivity].
    pose proof (Flush_keeps (mkWriter (wbuf b ++ take (Available b) s) (wr b) (werr b)) Hb)
      as Hk.
    destruct (Flush _) as [e b']. cbn [snd wr] in Hk.
    rewrite IH by (rewrite Hk; exact Hb). exact Hk.
Qed.

Lemma WriteString_keeps (s : list byte) (b : Writer) :
  broken (wr b) = true -> wr (snd (WriteString s b)) = wr b.
Proof.
  intros Hb. unfold WriteString.
  pose proof (writeStringLoop_keeps (S (length s)) s b Hb) as Hk.
  destruct (writeStringLoop _ s b) as [s' b']. cbn [snd] in Hk.
  destruct (werr b'); exact Hk.
Qed.

Lemma WriteByte_keeps (c : byte) (b : Writer) :
  broken (wr b) = true -> wr (snd (WriteByte c b)) = wr b.
Proof.
  intros Hb. unfold WriteByte. destruct (werr b); [reflexivity|].
  destruct (Available b <=? 0)%nat; [|reflexivity].
  pose proof (Flush_keeps b Hb) as Hk.
  destruct (Flush b) as [[e|] b']; exact Hk.
Qed.

Section Reset.
Context `{B : Bson}.

Lemma writeBson_keeps (d : D) (w : Writer) :
  broken (wr w) = true -> wr (snd (writeBson d w)) = wr w.
Proof.
  intros Hb. unfold writeBson. destruct (0 <? length d)%nat; [|reflexivity].
  destruct (Marshal d); [reflexivity|]. apply Writer_Write_keeps, Hb.
Qed.

Lemma writeDocs_keeps (data : list D) :
  forall e w, broken (wr w) = true -> wr (snd (writeDocs data e w)) = wr w.
Proof.
  induction data as [|d data IH]; intros e w Hb; cbn [writeDocs]; [reflexivity|].
  pose proof (writeBson_keeps d w Hb) as Hk.
  destruct (writeBson d w) as [[e'|] w']; cbn [snd] in *; [exact Hk|].
  rewrite IH by (rewrite Hk; exact Hb). exact Hk.
Qed.

Lemma writeIds_keeps (data : list Z) :
  forall e w, broken (wr w) = true -> wr (snd (writeIds data e w)) = wr w.
Proof.
  induction data as [|d data IH]; intros e w Hb; cbn [writeIds]; [reflexivity|].
  pose proof (Writer_Write_keeps (le_of_int64 d) w Hb) as Hk. unfold binaryWrite.
  destruct (Writer_Write _ w) as [[e'|] w']; cbn [snd] in *; [exact Hk|].
  rewrite IH by (rewrite Hk; exact Hb). exact Hk.
Qed.

Lemma writeField_keeps (f : FieldVal) (e : option error) (w : Writer) :
  broken (wr w) = true -> wr (snd (writeField f e w)) = wr w.
Proof.
  intros Hb. destruct f; cbn [writeField]; unfold binaryWrite;
    auto using Writer_Write_keeps, writeBson_keeps, writeDocs_keeps, writeIds_keeps.
  pose proof (WriteString_keeps s w Hb) as Hk.
  destruct (WriteString s w) as [e' w']. cbn [snd] in Hk.
  pose proof (WriteByte_keeps Byte.x00 w') as Hk'. rewrite Hk in Hk'. specialize (Hk' Hb).
  destruct (WriteByte Byte.x00 w') as [e'' w'']. cbn [snd] in *. exact Hk'.
Qed.

Lemma writeFields_keeps (fs : list FieldVal) :
  forall e w, broken (wr w) = true -> wr (snd (writeFields fs e w)) = wr w.
Proof.
  induction fs as [|f fs IH]; intros e w Hb; cbn [writeFields]; [reflexivity|].
  pose proof (writeField_keeps f e w Hb) as Hk.
  destruct (writeField f e w) as [e' w']. cbn [snd] in Hk.
  rewrite IH by (rewrite Hk; exact Hb). exact Hk.
Qed.

Lemma WriteRequest_keeps (req : RequestMsg) (out : list byte) :
  snd (WriteRequest req (mkSink out true)) = mkSink out true.
Proof.
  unfold WriteRequest.
  pose proof (writeFields_keeps (fields req) None (NewWriter (mkSink out true)) eq_refl) as Hk.
  destruct (writeFields _ None _) as [e w]. cbn [snd NewWriter wr] in Hk.
  pose proof (Flush_keeps w) as Hf. rewrite Hk in Hf. specialize (Hf eq_refl).
  destruct (Flush w) as [e' w']. cbn [snd] in *. exact Hf.
Qed.

(** X28.  A reply that cannot be delivered goes unnoticed.  The client has
    sent the frame of a valid request and nothing else, the backend answers
    with the frame of a valid reply, and every write to the client fails
    (it has gone away): the reply is decoded and printed as usual,
    WriteRequest(r, conn) is called and what it returns is not looked at,
    nothing reaches the client, no error is printed, and the loop goes on to
    the next read, which finds the end of the client's stream. *)
Theorem handleConnection_reset_client_is_silent (p : Proxy) (m m' : RequestMsg)
    (h h' : MsgHeader) (body body' : list FieldVal) (co bo : list byte) :
  validMsg m h body -> validMsg m' h' body' ->
  handleConnection p
    (mkConn (headerBytes h ++ bodyBytes body) (mkSink co true) false)
    (Some (mkConn (headerBytes h' ++ bodyBytes body') (mkSink bo false) false), None)
  = mkHandled (Ok tt)
      (mkConn [] (mkSink co true) true)
      (Some (mkConn [] (mkSink (bo ++ headerBytes h ++ bodyBytes body) false) true))
      (msgRecord m :: if LogResp p then [msgRecord m'] else []).
Proof.
  intros Hm Hm'. unfold handleConnection. cbn [rx].
  assert (Hlen : exists k, length (headerBytes h ++ bodyBytes body) = S k).
  { rewrite length_app, length_headerBytes. eexists. reflexivity. }
  destruct Hlen as [k ->]. remember (S k) as fuel eqn:Hfuel.
  cbn [relay]. unfold connRead at 1. cbn [client rx tx isClosed].
  rewrite (ReadRequest_whole_frame m h body Hm).
  unfold logMsg, setClient, printLog. cbn [client backend log app].
  unfold connWrite at 1. cbn [rx tx isClosed].
  rewrite (WriteRequest_frame m h body bo) by apply Hm.
  unfold connRead at 1. cbn [rx tx isClosed].
  rewrite (ReadRequest_whole_frame m' h' body' Hm').
  unfold setBackend. cbn [client backend log].
  pose proof (WriteRequest_keeps m' co) as Hk.
  destruct (LogResp p); cbn [client backend log app];
    unfold connWrite; cbn [rx tx isClosed];
    destruct (WriteRequest m' (mkSink co true)) as [e snk]; cbn [snd] in Hk; subst snk;
    subst fuel; rewrite relay_at_end by reflexivity; reflexivity.
Qed.


End Reset.

(** * The statements on concrete frames *)

Import BsonInt32 Samples.

Ltac int_ok := unfold is_int32, is_int64; split; vm_compute; [discriminate | reflexivity].
Ltac nul_free := cbv; intuition discriminate.

Lemma goodDoc_doc_a : goodDoc doc_a.
Proof.
  split; [discriminate|]. exists (docBytes doc_a).
  split; [reflexivity|]. split; [reflexivity|]. split; [vm_compute; lia | reflexivity].
Qed.

Lemma goodDoc_doc_bc : goodDoc doc_bc.
Proof.
  split; [discriminate|]. exists (docBytes doc_bc).
  split; [reflexivity|]. split; [reflexivity|]. split; [vm_compute; lia | reflexivity].
Qed.

(** The codec of the samples rejects the empty slice. *)
Lemma codec_rejectsEmpty : rejectsEmpty.
Proof. intros d. discriminate. Qed.

(** C1.  The frame of the query [db.c.find({})] decodes, and encoding the
    decoded message does not give the frame back: the query document is
    dropped, and 33 bytes go out under a header that says 38. *)
Theorem C1_empty_document_dropped :
  length find_all_frame = 38%nat
  /\ MessageLength find_all_header = 38
  /\ ReadRequest find_all_frame = (Ok find_all, [])
  /\ sent (snd (WriteRequest find_all open_sink)) = take 33 find_all_frame
  /\ sent (snd (WriteRequest find_all open_sink)) <> find_all_frame.
Proof.
  split; [reflexivity|]. split; [reflexivity|]. split; [reflexivity|].
  split; [reflexivity|].
  intros H. apply (f_equal length) in H. revert H.
  change (33%nat = 38%nat -> False). discriminate.
Qed.

(** C2, against it: two Query frames declared 4 bytes longer than their
    fields.  The one with a single document fails with io.EOF, the one with
    both documents decodes; neither fails with the wrong-length error. *)
Lemma C2_counterexample :
  (length long_frame = 45%nat /\ MessageLength long_header = 49
   /\ fst (ReadRequest long_frame) = Err EOF)
  /\ (length long_frame2 = 65%nat /\ MessageLength long_header2 = 69
      /\ fst (ReadRequest long_frame2)
         = Ok (Query long_header2 0 name_db_c 0 10 doc_a doc_bc))
  /\ fst (ReadRequest long_frame) <> Err ErrorWrongLen
  /\ fst (ReadRequest long_frame2) <> Err ErrorWrongLen.
Proof.
  assert (H1 : fst (ReadRequest long_frame) = Err EOF) by reflexivity.
  assert (H2 : fst (ReadRequest long_frame2)
               = Ok (Query long_header2 0 name_db_c 0 10 doc_a doc_bc)) by reflexivity.
  repeat split; try reflexivity; try assumption.
  - rewrite H1. discriminate.
  - rewrite H2. discriminate.
Qed.

Lemma C2_witness :
  fst (ReadRequest short_frame) = Ok (Query short_header 0 name_db_c 0 10 [] [])
  /\ fst (ReadRequest cut_frame) = Err ErrorWrongLen
  /\ fst (ReadRequest (take 33 long_frame)) = Err EOF
  /\ fst (ReadRequest long_frame) = Err EOF
  /\ fst (ReadRequest long_frame2) = Ok (Query long_header2 0 name_db_c 0 10 doc_a doc_bc).
Proof.
  split; [|split; [|split; [|split]]].
  - apply (proj1 (C2_short_circuit_and_wrong_length short_header 0 name_db_c 0 10 []
             eq_refl ltac:(int_ok) ltac:(int_ok) ltac:(int_ok) ltac:(int_ok)
             ltac:(nul_free) ltac:(int_ok) ltac:(int_ok))).
    reflexivity.
  - apply (proj1 (proj2 (C2_short_circuit_and_wrong_length cut_header 0 name_db_c 0 10 []
             eq_refl ltac:(int_ok) ltac:(int_ok) ltac:(int_ok) ltac:(int_ok)
             ltac:(nul_free) ltac:(int_ok) ltac:(int_ok))) doc_a goodDoc_doc_a).
    split; reflexivity.
  - apply (proj1 (proj2 (proj2 (proj2
             (C2_short_circuit_and_wrong_length long_header 0 name_db_c 0 10 []
                eq_refl ltac:(int_ok) ltac:(int_ok) ltac:(int_ok) ltac:(int_ok)
                ltac:(nul_free) ltac:(int_ok) ltac:(int_ok)))))).
    reflexivity.
  - apply (proj1 (proj2 (proj2 (proj2 (proj2
             (C2_short_circuit_and_wrong_length long_header 0 name_db_c 0 10 []
                eq_refl ltac:(int_ok) ltac:(int_ok) ltac:(int_ok) ltac:(int_ok)
                ltac:(nul_free) ltac:(int_ok) ltac:(int_ok)))))) doc_a goodDoc_doc_a).
    reflexivity.
  - apply (proj2 (proj2 (proj2 (proj2 (proj2
             (C2_short_circuit_and_wrong_length long_header2 0 name_db_c 0 10 []
                eq_refl ltac:(int_ok) ltac:(int_ok) ltac:(int_ok) ltac:(int_ok)
                ltac:(nul_free) ltac:(int_ok) ltac:(int_ok))))))
             doc_a doc_bc goodDoc_doc_a goodDoc_doc_bc).
    reflexivity.
Defined.

Lemma C3_witness :
  fst (ReadRequest insert_frame) = Ok (Insert insert_header 0 name_db_c [doc_a; doc_bc])
  /\ fst (ReadRequest kill_frame) = Ok (KillCursors kill_header 0 77 [5; -6; 7]).
Proof.
  split.
  - apply (proj1 C3_slices_follow_the_declared_length insert_header 0 name_db_c doc_a doc_bc []
             eq_refl ltac:(int_ok) ltac:(int_ok) ltac:(int_ok) ltac:(int_ok)
             ltac:(nul_free) goodDoc_doc_a goodDoc_doc_bc).
    reflexivity.
  - apply (proj1 (proj2 C3_slices_follow_the_declared_length) kill_header 0 77 [5; -6; 7] []
             eq_refl ltac:(int_ok) ltac:(int_ok) ltac:(int_ok) ltac:(int_ok) ltac:(int_ok)).
    + repeat (apply Forall_cons; split); [int_ok .. | apply Forall_nil; exact I].
    + reflexivity.
Defined.

Lemma C4_witness :
  ReadRequest unknown_frame = (Err ErrorOpcodeUnknown, [Byte.x61; Byte.x00])
  /\ ReadRequest reserved_frame = (Err ErrorOpcodeUnknown, [Byte.x61; Byte.x00]).
Proof.
  split.
  - apply (C4_unknown_opcode unknown_frame).
    + vm_compute. lia.
    + vm_compute. intuition discriminate.
  - apply (C4_unknown_opcode reserved_frame).
    + vm_compute. lia.
    + vm_compute. intuition discriminate.
Defined.

(** C5.  Two Message frames of 18 bytes follow each other on a stream.
    Decoding the first one succeeds and leaves the stream empty: the bytes of
    the second frame were taken into the buffered reader and are gone with
    it, so the next call meets the end of the stream, while the second frame
    decodes when it is alone. *)
Theorem C5_following_frame_consumed :
  ReadRequest (ping_frame ++ pong_frame) = (Ok ping, [])
  /\ ping_frame ++ pong_frame <> ping_frame
  /\ drop (Z.to_nat (MessageLength ping_header)) (ping_frame ++ pong_frame) = pong_frame
  /\ pong_frame <> []
  /\ ReadRequest pong_frame = (Ok pong, [])
  /\ fst (ReadRequest (snd (ReadRequest (ping_frame ++ pong_frame)))) = Err EOF.
Proof.
  split; [reflexivity|]. split; [|split; [reflexivity|]].
  - intros H. apply (f_equal length) in H. revert H.
    change (36%nat = 18%nat -> False). discriminate.
  - split; [discriminate|]. split; reflexivity.
Qed.

(** C6, against it: a message whose header says 100 is written as 18 bytes. *)
Lemma C6_counterexample :
  length (sent (snd (WriteRequest mislabelled open_sink))) = 18%nat
  /\ Z.of_nat (length (sent (snd (WriteRequest mislabelled open_sink))))
     <> MessageLength (mkMsgHeader 100 9 0 OP_MSG).
Proof.
  split; [reflexivity|].
  change (18 <> 100). discriminate.
Qed.

Lemma C6_witness :
  let n := (length (sent (snd (WriteRequest ping (mkSink [] false)))) - length (@nil byte))%nat in
  n = (16 + length (bodyBytes [VString [Byte.x61]]))%nat
  /\ (MessageLength ping_header = HEADER_SIZE + Z.of_nat (length (bodyBytes [VString [Byte.x61]])) ->
      Z.of_nat n = MessageLength ping_header).
Proof.
  apply (C6_bytes_written ping ping_header [VString [Byte.x61]] []).
  - reflexivity.
  - apply Forall_cons; split; [nul_free | apply Forall_nil; exact I].
  - reflexivity.
Defined.

(** C8.  A client sends the first bytes of a 45-byte Query frame and goes
    away.  When the bytes end with the header, inside the collection name or
    inside the size of the query document, ReadRequest returns io.EOF, the
    error of a stream that ended before the frame, and the handler prints
    nothing; when they end inside the flags or inside the body of the
    document it returns io.ErrUnexpectedEOF and the handler prints the ERROR
    record.  Both connections are closed either way. *)
Theorem C8_cut_request_ends_in_silence :
  ReadRequest query_frame = (Ok query_a, [])
  /\ handleConnection proxy (client idle_session) (Some idle_backend, None)
     = mkHandled (Ok tt) (Close (client idle_session)) (Some (Close idle_backend)) []
  /\ (fst (ReadRequest (take 16 query_frame)) = Err EOF
      /\ fst (ReadRequest (take 22 query_frame)) = Err EOF
      /\ fst (ReadRequest (take 35 query_frame)) = Err EOF)
  /\ (forall n, In n [16; 22; 35]%nat ->
        handleConnection proxy (cut_client n) (Some idle_backend, None)
        = mkHandled (Ok tt) (mkConn [] open_sink true) (Some (Close idle_backend)) [])
  /\ (fst (ReadRequest (take 18 query_frame)) = Err ErrUnexpectedEOF
      /\ fst (ReadRequest (take 40 query_frame)) = Err ErrUnexpectedEOF)
  /\ (forall n, In n [18; 40]%nat ->
        handleConnection proxy (cut_client n) (Some idle_backend, None)
        = mkHandled (Ok tt) (mkConn [] open_sink true) (Some (Close idle_backend))
            [mkLogMsg "ERROR" (inr ErrUnexpectedEOF)]).
Proof.
  split; [reflexivity|]. split; [reflexivity|].
  split; [split; [|split]; reflexivity|].
  split; [intros n [<-|[<-|[<-|[]]]]; reflexivity|].
  split; [split; reflexivity|].
  intros n [<-|[<-|[]]]; reflexivity.
Qed.

(** C9.  A Query frame whose query document declares the size -1 makes
    ReadRequest panic: readDoc passes the size to [make] unchecked. *)
Theorem C9_negative_size_panics :
  fst (ReadRequest negative_size_frame)
  = Panic "runtime error: makeslice: len out of range".
Proof. reflexivity. Qed.

(** C10.  The backend answers [ping] with a reply of 41 bytes whose one
    document is the empty document.  The reply is decoded, and what the
    handler sends to the client is not that reply: WriteRequest(r, conn)
    leaves the document out, so the client gets the first 36 bytes under a
    header that says 41.  Nothing is printed about it, with or without
    LogResp. *)
Theorem C10_empty_document_reply_cut_short :
  length empty_reply_frame = 41%nat
  /\ ReadRequest empty_reply_frame = (Ok empty_reply, [])
  /\ handleConnection proxy (mkConn ping_frame open_sink false)
       (Some (mkConn empty_reply_frame open_sink false), None)
     = mkHandled (Ok tt) (mkConn [] (mkSink (take 36 empty_reply_frame) false) true)
         (Some (mkConn [] (mkSink ping_frame false) true))
         [msgRecord ping]
  /\ handleConnection logging_proxy (mkConn ping_frame open_sink false)
       (Some (mkConn empty_reply_frame open_sink false), None)
     = mkHandled (Ok tt) (mkConn [] (mkSink (take 36 empty_reply_frame) false) true)
         (Some (mkConn [] (mkSink ping_frame false) true))
         [msgRecord ping; msgRecord empty_reply]
  /\ take 36 empty_reply_frame <> empty_reply_frame.
Proof.
  split; [reflexivity|]. split; [reflexivity|]. split; [reflexivity|]. split; [reflexivity|].
  intros H. apply (f_equal length) in H. revert H.
  change (36%nat = 41%nat -> False). discriminate.
Qed.

(** * The further properties on concrete frames *)

Ltac in_int32 := unfold is_int32; split; vm_compute; [discriminate | reflexivity].
Ltac in_int64 := unfold is_int64; split; vm_compute; [discriminate | reflexivity].
Ltac no_nul := cbv; intuition discriminate.

Lemma goodDoc_sample_a : goodDoc doc_a.
Proof.
  split; [discriminate|]. exists (docBytes doc_a).
  split; [reflexivity|]. split; [reflexivity|]. split; [vm_compute; lia | reflexivity].
Qed.

Lemma goodDoc_sample_bc : goodDoc doc_bc.
Proof.
  split; [discriminate|]. exists (docBytes doc_bc).
  split; [reflexivity|]. split; [reflexivity|]. split; [vm_compute; lia | reflexivity].
Qed.

Lemma valid_ping : validMsg ping ping_header [VString [Byte.x61]].
Proof.
  split; try reflexivity.
  - split; in_int32.
  - apply Forall_cons; split; [no_nul | apply Forall_nil; exact I].
  - in_int32.
Qed.

Lemma valid_pong : validMsg pong pong_header [VString [Byte.x62]].
Proof.
  split; try reflexivity.
  - split; in_int32.
  - apply Forall_cons; split; [no_nul | apply Forall_nil; exact I].
  - in_int32.
Qed.

Lemma valid_insert :
  validMsg (Insert insert_header 0 name_db_c [doc_a; doc_bc]) insert_header
    [VInt32 0; VString name_db_c; VDs [doc_a; doc_bc]].
Proof.
  split; try reflexivity.
  - split; in_int32.
  - apply Forall_cons; split; [in_int32|].
    apply Forall_cons; split; [no_nul|].
    apply Forall_cons; split; [|apply Forall_nil; exact I].
    cbn [validField].
    apply Forall_cons; split; [apply goodDoc_sample_a|].
    apply Forall_cons; split; [apply goodDoc_sample_bc | apply Forall_nil; exact I].
  - in_int32.
Qed.

Lemma readMsgHeader_sixteen_bytes_witness :
  exists h, readMsgHeader ping_frame = (Ok h, drop 16 ping_frame)
            /\ headerBytes h = take 16 ping_frame
            /\ is_int32 (MessageLength h) /\ is_int32 (RequestID h)
            /\ is_int32 (ResponseTo h) /\ is_int32 (Opcode h).
Proof. apply (readMsgHeader_sixteen_bytes ping_frame). vm_compute. lia. Defined.

Lemma ReadRequest_short_header_witness :
  ReadRequest (take 7 ping_frame) = (Err ErrUnexpectedEOF, [])
  /\ ReadRequest [] = (Err EOF, []).
Proof.
  split.
  - apply (ReadRequest_short_header (take 7 ping_frame)). vm_compute. lia.
  - apply (ReadRequest_short_header []). vm_compute. lia.
Defined.

Lemma readInts_round_trip_witness :
  readInt32s (R:=Stream) (length [1; -2]) (concat (map le_of_int32 [1; -2]) ++ [Byte.x61])
  = (Ok [1; -2], [Byte.x61])
  /\ readInt64s (R:=Stream) (length [5; -6; 7])
       (concat (map le_of_int64 [5; -6; 7]) ++ [Byte.x61])
     = (Ok [5; -6; 7], [Byte.x61]).
Proof.
  apply (readInts_round_trip [1; -2] [5; -6; 7] [Byte.x61]).
  - repeat (apply Forall_cons; split); [in_int32 .. | apply Forall_nil; exact I].
  - repeat (apply Forall_cons; split); [in_int64 .. | apply Forall_nil; exact I].
Defined.

Lemma readInt32s_takes_4n_witness :
  exists vs, readInt32s 2 ping_frame = (Ok vs, drop (4 * 2) ping_frame)
             /\ length vs = 2%nat /\ Forall is_int32 vs
             /\ concat (map le_of_int32 vs) = take (4 * 2) ping_frame.
Proof. apply (readInt32s_takes_4n 2 ping_frame). vm_compute. lia. Defined.

Lemma readInt32s_short_witness :
  readInt32s 5 ping_frame = (Err ErrUnexpectedEOF, [])
  /\ readInt32s 5 (take 16 ping_frame) = (Err EOF, []).
Proof.
  split.
  - apply (readInt32s_short 5 ping_frame). vm_compute. lia.
  - apply (readInt32s_short 5 (take 16 ping_frame)). vm_compute. lia.
Defined.

Lemma ReadRequest_stops_at_the_declared_length_witness :
  exists r',
    ReadRequest (headerBytes (mkMsgHeader 20 12 0 OP_QUERY) ++ bodyBytes [VInt32 7] ++ ping_frame)
    = (Ok (mkReq TQuery (VHeader (mkMsgHeader 20 12 0 OP_QUERY) :: [VInt32 7]
                           ++ map zeroValue [GoString; Int32; Int32; BsonD; BsonD])), r')
    /\ ([VInt32 7] = @nil FieldVal -> r' = ping_frame).
Proof.
  apply (ReadRequest_stops_at_the_declared_length TQuery (mkMsgHeader 20 12 0 OP_QUERY)
           [VInt32 7] [GoString; Int32; Int32; BsonD; BsonD] ping_frame).
  - reflexivity.
  - in_int32.
  - in_int32.
  - in_int32.
  - reflexivity.
  - apply Forall_cons; split; [in_int32 | apply Forall_nil; exact I].
  - apply Forall_cons; split; [split; reflexivity | apply Forall_nil; exact I].
  - reflexivity.
Defined.

Lemma readDoc_takes_the_declared_size_witness :
  exists bDoc,
    pending (NewReader (docBytes doc_a ++ [Byte.x61]))
    = bDoc ++ pending (snd (readDoc (NewReader (docBytes doc_a ++ [Byte.x61]))))
    /\ Unmarshal bDoc = inr doc_a
    /\ 12 = int32_of_le (take 4 (pending (NewReader (docBytes doc_a ++ [Byte.x61]))))
    /\ 0 <= 12 /\ Z.of_nat (length bDoc) = 12.
Proof.
  apply (readDoc_takes_the_declared_size (NewReader (docBytes doc_a ++ [Byte.x61])) doc_a 12
           (snd (readDoc (NewReader (docBytes doc_a ++ [Byte.x61]))))).
  reflexivity.
Defined.

Lemma readDoc_panics_on_negative_size_only_witness :
  (exists msg, fst (readDoc (NewReader (le_of_int32 (-1) ++ [Byte.x00]))) = Panic msg)
  <-> (4 <= length (pending (NewReader (le_of_int32 (-1) ++ [Byte.x00]))))%nat
      /\ int32_of_le (take 4 (pending (NewReader (le_of_int32 (-1) ++ [Byte.x00])))) < 0.
Proof.
  apply (readDoc_panics_on_negative_size_only (NewReader (le_of_int32 (-1) ++ [Byte.x00]))).
  apply rinv_NewReader.
Defined.

Lemma readDoc_cut_short_witness :
  fst (readDoc (NewReader (take 3 (docBytes doc_a)))) = Err EOF
  /\ fst (readDoc (NewReader (take 6 (docBytes doc_a)))) = Err ErrUnexpectedEOF.
Proof.
  split.
  - apply (proj1 (readDoc_cut_short (NewReader (take 3 (docBytes doc_a)))
                   (rinv_NewReader _))).
    vm_compute. lia.
  - apply (proj2 (readDoc_cut_short (NewReader (take 6 (docBytes doc_a)))
                   (rinv_NewReader _))).
    + vm_compute. lia.
    + vm_compute. reflexivity.
Defined.

Lemma ReadRequest_always_ends_witness :
  (exists m, fst (ReadRequest insert_frame) = Ok m)
  \/ (exists e, fst (ReadRequest insert_frame) = Err e)
  \/ fst (ReadRequest insert_frame) = Panic makeslicePanic.
Proof. apply (ReadRequest_always_ends insert_frame codec_rejectsEmpty). Defined.

Lemma ReadRequest_returns_a_struct_value_witness :
  exists h body,
    readMsgHeader kill_frame = (Ok h, drop 16 kill_frame)
    /\ fields (KillCursors kill_header 0 77 [5; -6; 7]) = VHeader h :: body
    /\ wellTyped (KillCursors kill_header 0 77 [5; -6; 7])
    /\ GetOp (KillCursors kill_header 0 77 [5; -6; 7]) = Opcode h
    /\ HEADER_SIZE <= MessageLength h
    /\ Forall inRange body.
Proof.
  apply (ReadRequest_returns_a_struct_value kill_frame (KillCursors kill_header 0 77 [5; -6; 7])
           []).
  reflexivity.
Defined.

Lemma ReadRequest_decodes_a_valid_frame_witness :
  (exists r' lost,
      ReadRequest (headerBytes insert_header
                     ++ bodyBytes [VInt32 0; VString name_db_c; VDs [doc_a; doc_bc]]
                     ++ pong_frame)
      = (Ok (Insert insert_header 0 name_db_c [doc_a; doc_bc]), r')
      /\ pong_frame = lost ++ r')
  /\ ReadRequest (headerBytes insert_header
                    ++ bodyBytes [VInt32 0; VString name_db_c; VDs [doc_a; doc_bc]])
     = (Ok (Insert insert_header 0 name_db_c [doc_a; doc_bc]), []).
Proof. apply (ReadRequest_decodes_a_valid_frame _ _ _ pong_frame valid_insert). Defined.

Lemma WriteRequest_sends_the_frame_witness :
  WriteRequest ping (mkSink pong_frame false)
  = (None, mkSink (pong_frame ++ headerBytes ping_header ++ bodyBytes [VString [Byte.x61]]) false)
  /\ length (headerBytes ping_header ++ bodyBytes [VString [Byte.x61]])
     = (16 + length (bodyBytes [VString [Byte.x61]]))%nat.
Proof.
  apply (WriteRequest_sends_the_frame ping ping_header [VString [Byte.x61]] pong_frame).
  - reflexivity.
  - apply Forall_cons; split; [no_nul | apply Forall_nil; exact I].
Defined.

Lemma valid_frames_round_trip_witness :
  let frame := headerBytes insert_header
               ++ bodyBytes [VInt32 0; VString name_db_c; VDs [doc_a; doc_bc]] in
  (exists r', ReadRequest
                (sent (snd (WriteRequest (Insert insert_header 0 name_db_c [doc_a; doc_bc])
                              (mkSink [] false))) ++ pong_frame)
              = (Ok (Insert insert_header 0 name_db_c [doc_a; doc_bc]), r'))
  /\ (exists m' r', ReadRequest (frame ++ pong_frame) = (Ok m', r')
                    /\ WriteRequest m' (mkSink ping_frame false)
                       = (None, mkSink (ping_frame ++ frame) false)).
Proof. apply (valid_frames_round_trip _ _ _ pong_frame ping_frame valid_insert). Defined.

Lemma WriteRequest_hides_a_failed_flush_witness :
  WriteRequest ping (mkSink [] true) = (None, mkSink [] true).
Proof.
  apply (WriteRequest_hides_a_failed_flush ping ping_header [VString [Byte.x61]] []).
  - reflexivity.
  - apply Forall_cons; split; [no_nul | apply Forall_nil; exact I].
  - vm_compute. lia.
Defined.

Lemma handleConnection_forwards_an_exchange_witness :
  handleConnection proxy
    (mkConn (headerBytes ping_header ++ bodyBytes [VString [Byte.x61]]) (mkSink [] false) false)
    (Some (mkConn (headerBytes pong_header ++ bodyBytes [VString [Byte.x62]])
             (mkSink [] false) false), None)
  = mkHandled (Ok tt)
      (mkConn [] (mkSink ([] ++ headerBytes pong_header ++ bodyBytes [VString [Byte.x62]]) false)
         true)
      (Some (mkConn [] (mkSink ([] ++ headerBytes ping_header ++ bodyBytes [VString [Byte.x61]])
                          false) true))
      (msgRecord ping :: if LogResp proxy then [msgRecord pong] else []).
Proof.
  apply (handleConnection_forwards_an_exchange proxy ping pong ping_header pong_header
           [VString [Byte.x61]] [VString [Byte.x62]] [] [] valid_ping valid_pong).
Defined.

Lemma handleConnection_reset_backend_is_silent_witness :
  handleConnection proxy
    (mkConn (headerBytes ping_header ++ bodyBytes [VString [Byte.x61]]) (mkSink [] false) false)
    (Some (mkConn [] (mkSink [] true) false), None)
  = mkHandled (Ok tt) (mkConn [] (mkSink [] false) true)
      (Some (mkConn [] (mkSink [] true) true)) [msgRecord ping].
Proof.
  apply (handleConnection_reset_backend_is_silent proxy ping ping_header
           [VString [Byte.x61]] [] [] valid_ping).
  vm_compute. lia.
Defined.

Lemma ReadRequest_cut_frame_witness :
  exists e,
    fst (ReadRequest (headerBytes insert_header
                        ++ take 10 (bodyBytes [VInt32 0; VString name_db_c;
                                               VDs [doc_a; doc_bc]])))
    = Err e
    /\ endOfStream e.
Proof.
  apply (ReadRequest_cut_frame _ _ _ 10 valid_insert). vm_compute. lia.
Defined.

Lemma ReadRequest_reads_ids_past_the_declared_length_witness :
  fst (ReadRequest (headerBytes (mkMsgHeader 30 14 0 OP_KILL_CURSORS) ++ le_of_int32 0
                      ++ le_of_int32 1 ++ concat (map le_of_int64 [5])))
  = Err EOF.
Proof.
  apply (ReadRequest_reads_ids_past_the_declared_length (mkMsgHeader 30 14 0 OP_KILL_CURSORS)
           0 1 [5]).
  - reflexivity.
  - in_int32.
  - in_int32.
  - in_int32.
  - in_int32.
  - in_int32.
  - apply Forall_cons; split; [in_int64 | apply Forall_nil; exact I].
  - cbn [MessageLength]. lia.
  - intros j Hj. cbn [length MessageLength] in *. lia.
Defined.

Lemma handleConnection_header_only_is_silent_witness :
  handleConnection proxy (mkConn (headerBytes ping_header) (mkSink [] false) false)
    (Some (mkConn [] (mkSink [] false) false), None)
  = mkHandled (Ok tt) (mkConn [] (mkSink [] false) true)
      (Some (Close (mkConn [] (mkSink [] false) false))) [].
Proof.
  apply (handleConnection_header_only_is_silent proxy ping ping_header [VString [Byte.x61]] []
           (mkConn [] (mkSink [] false) false) valid_ping).
Defined.

Lemma valid_big_reply : validMsg big_reply big_header [VString (repeat Byte.x61 5000)].
Proof.
  split; try reflexivity.
  - split; in_int32.
  - apply Forall_cons; split; [|apply Forall_nil; exact I].
    cbn [validField]. intros H. apply repeat_spec in H. discriminate.
  - in_int32.
Qed.

Lemma handleConnection_reset_client_is_silent_witness :
  fst (WriteRequest big_reply reset_sink) = Some ErrClosedPipe
  /\ handleConnection proxy
       (mkConn (headerBytes ping_header ++ bodyBytes [VString [Byte.x61]]) (mkSink [] true) false)
       (Some (mkConn (headerBytes big_header ++ bodyBytes [VString (repeat Byte.x61 5000)])
                (mkSink [] false) false), None)
     = mkHandled (Ok tt) (mkConn [] (mkSink [] true) true)
         (Some (mkConn [] (mkSink ([] ++ headerBytes ping_header ++ bodyBytes [VString [Byte.x61]])
                             false) true))
         (msgRecord ping :: if LogResp proxy then [msgRecord big_reply] else []).
Proof.
  split; [reflexivity|].
  apply (handleConnection_reset_client_is_silent proxy ping big_reply ping_header big_header
           [VString [Byte.x61]] [VString (repeat Byte.x61 5000)] [] [] valid_ping valid_big_reply).
Defined.


(** ** With a document bson.Marshal rejects *)

Section Rejected.
#[local] Existing Instance BsonPartial.codec.

Lemma WriteRequest_returns_the_last_error_witness :
  let h := mkMsgHeader 45 13 0 OP_UPDATE in
  let pre := [VInt32 0; VString name_db_c; VInt32 0] in
  let q : D := [(list_byte_of_string "f", BsonPartial.Unsupported)] in
  let d' : D := [(list_byte_of_string "a", BsonPartial.Int 1)] in
  fst (WriteRequest (mkReq TDelete (VHeader h :: pre ++ [VD q])) (mkSink [] false))
  = Some (ErrBson "Can't marshal func() in a BSON document")
  /\ WriteRequest (mkReq TUpdate (VHeader h :: pre ++ [VD q; VD d'])) (mkSink [] false)
     = (None, mkSink ([] ++ headerBytes h ++ bodyBytes pre ++ wire (VD d')) false).
Proof.
  intros h pre q d'. split.
  - refine (proj1 (WriteRequest_returns_the_last_error TDelete h pre q d'
                     (ErrBson "Can't marshal func() in a BSON document") [] _ _ _ _)).
    + unfold pre. apply Forall_cons; split; [in_int32|].
      apply Forall_cons; split; [no_nul|].
      apply Forall_cons; split; [in_int32 | apply Forall_nil; exact I].
    + right. split; [discriminate|]. exists (docBytes d').
      split; [reflexivity|]. split; [reflexivity|].
      split; [vm_compute; lia | reflexivity].
    + discriminate.
    + reflexivity.
  - refine (proj2 (WriteRequest_returns_the_last_error TUpdate h pre q d'
                     (ErrBson "Can't marshal func() in a BSON document") [] _ _ _ _)).
    + unfold pre. apply Forall_cons; split; [in_int32|].
      apply Forall_cons; split; [no_nul|].
      apply Forall_cons; split; [in_int32 | apply Forall_nil; exact I].
    + right. split; [discriminate|]. exists (docBytes d').
      split; [reflexivity|]. split; [reflexivity|].
      split; [vm_compute; lia | reflexivity].
    + discriminate.
    + reflexivity.
Defined.

End Rejected.
